(** * Infinite-recursion diagnosis and fingerprints: a verified model

    A shallow embedding of [lib/SILOptimizer/Mandatory/DiagnoseInfiniteRecursion.cpp]
    and of [Fingerprint.cpp].  The SIL data structures are records carrying
    the attributes the pass queries; pointers are identities ([nat]); the
    analysis state (a [DenseMap] of block summaries and a work list) is passed
    explicitly. *)

From Stdlib Require Import ZArith List Bool Ascii Lia.
From stdpp Require Import base option list gmap.

#[local] Set Warnings "-clear-no-such-hyp".

Local Open Scope Z_scope.

(** ** The host IR, as far as the pass looks at it *)

(** [SILFunction *], [SILValue] / [SILNode *], declarations and source
    locations are compared by identity only. *)
Abbreviation SILFunctionId := nat (only parsing).
Abbreviation SILValue := nat (only parsing).
Abbreviation SILDeclRef := nat (only parsing).
Abbreviation ModuleDecl := nat (only parsing).
Abbreviation ProtocolConformanceRef := nat (only parsing).
Abbreviation SourceLoc := nat (only parsing).
Abbreviation BlockId := nat (only parsing).

Record ClassDecl := mkClassDecl {
  classDeclId : nat;
  getModuleContext : ModuleDecl
}.

(** [class_method]: [cmi_classDecl] is
    [CMI->getOperand()->getType().getASTType().getClassOrBoundGenericClass()],
    which may be null. *)
Record ClassMethodInst := mkClassMethodInst {
  cmi_classDecl : option ClassDecl;
  cmi_getMember : SILDeclRef
}.

Record WitnessMethodInst := mkWitnessMethodInst {
  wmi_getConformance : ProtocolConformanceRef;
  wmi_getMember : SILDeclRef
}.

(** The callee operand of an apply, by the instruction that defines it. *)
Inductive CalleeValue :=
| SuperMethodInst
| ObjCSuperMethodInst
| ObjCMethodInst
| ClassMethod (CMI : ClassMethodInst)
| WitnessMethod (WMI : WitnessMethodInst)
| OtherCallee.

(** The module-level queries of the devirtualisation utilities.
    [isOverridden m] stands for
    [m.getAbstractFunctionDecl()->isOverridden()]. *)
Record SILModule := mkSILModule {
  getSwiftModule : ModuleDecl;
  calleesAreStaticallyKnowable : SILDeclRef -> bool;
  isOverridden : SILDeclRef -> bool;
  getTargetClassMethod : option ClassDecl -> ClassMethodInst -> option SILFunctionId;
  lookUpFunctionInWitnessTable :
    ProtocolConformanceRef -> SILDeclRef -> option SILFunctionId
}.

Record FullApplySite := mkFullApplySite {
  getReferencedFunctionOrNull : option SILFunctionId;
  getCallee : CalleeValue;
  getArguments : list SILValue;
  isCalleeKnownProgramTerminationPoint : bool
}.

Inductive SILInstructionKind :=
| LoadInst
| BeginAccessInst
| EndAccessInst
| OtherInstructionKind.

(** [inst_mayWriteToMemory] is the generic [inst->mayWriteToMemory()];
    [asFullApplySite] is [FullApplySite::isa(&inst)]. *)
Record SILInstruction := mkSILInstruction {
  getKind : SILInstructionKind;
  inst_mayWriteToMemory : bool;
  asFullApplySite : option FullApplySite;
  getLoc : SourceLoc
}.

Inductive TermKind :=
| SwitchEnumAddrInst
| CheckedCastAddrBranchInst
| CondBranchInst
| SwitchValueInst
| SwitchEnumInst
| CheckedCastBranchInst
| CheckedCastValueBranchInst
| BranchInst
| ReturnInst
| ThrowInst
| UnwindInst
| UnreachableInst
| TryApplyInst
| YieldInst
| DynamicMethodBranchInst
| AwaitAsyncContinuationInst.

(** A terminator is also the last instruction of its block
    ([term_asInstruction]); [term_getOperand0] is [term->getOperand(0)]. *)
Record TermInst := mkTermInst {
  term_asInstruction : SILInstruction;
  getTermKind : TermKind;
  term_getOperand0 : SILValue;
  isFunctionExiting : bool;
  isProgramTerminating : bool
}.

(** Successors and predecessors are listed per edge, so a block that is
    targeted twice by one terminator occurs twice. *)
Record SILBasicBlock := mkSILBasicBlock {
  getInstructions : list SILInstruction;
  getTerminator : TermInst;
  getSuccessorBlocks : list BlockId;
  getPredecessorBlocks : list BlockId
}.

(** Iterating over a block visits its instructions and then the terminator. *)
Definition allInstructions (block : SILBasicBlock) : list SILInstruction :=
  getInstructions block ++ [term_asInstruction (getTerminator block)].

Definition getNumSuccessors (block : SILBasicBlock) : Z :=
  Z.of_nat (length (getSuccessorBlocks block)).

(** The node behind a value, for the use-def walk. *)
Inductive SILNode :=
| InstructionNode (mayReadFromMemory : bool) (getAllOperands : list SILValue)
| FunctionArgumentNode (getIndex : Z)
| OtherNode.

(** A function: its blocks in order (a block's identity is its position, the
    entry block is the first), its incoming arguments, and the defining node
    of each value; a value without an entry in [fn_nodes] is of a kind the
    use-def walk does not look through.  [stripAccessMarkers] is the helper
    of MemAccessUtils. *)
Record SILFunction := mkSILFunction {
  fn_id : SILFunctionId;
  fn_getModule : SILModule;
  fn_getArguments : list SILValue;
  fn_nodes : gmap SILValue SILNode;
  stripAccessMarkers : SILValue -> SILValue;
  fn_blocks : list SILBasicBlock;
  wasDeserializedCanonical : bool
}.

(** ** The call classifier *)

Definition sameFunction (f : option SILFunctionId) (g : SILFunctionId) : bool :=
  match f with
  | Some f' => Nat.eqb f' g
  | None => false
  end.

Definition isRecursiveCall (module : SILModule) (parentFunc : SILFunctionId)
    (applySite : FullApplySite) : bool :=
  match getReferencedFunctionOrNull applySite with
  | Some calledFn => Nat.eqb calledFn parentFunc
  | None =>
    match getCallee applySite with
    | SuperMethodInst | ObjCSuperMethodInst | ObjCMethodInst => false
    | ClassMethod CMI =>
      let classDecl := cmi_classDecl CMI in
      if match classDecl with
         | Some cd => negb (Nat.eqb (getModuleContext cd) (getSwiftModule module))
         | None => false
         end
      then false
      else if negb (calleesAreStaticallyKnowable module (cmi_getMember CMI))
      then false
      else if isOverridden module (cmi_getMember CMI)
      then false
      else sameFunction (getTargetClassMethod module classDecl CMI) parentFunc
    | WitnessMethod WMI =>
      sameFunction
        (lookUpFunctionInWitnessTable module (wmi_getConformance WMI)
                                      (wmi_getMember WMI))
        parentFunc
    | OtherCallee => false
    end
  end.

(** ** The memory-effect filter *)

Definition mayWriteToMemory (inst : SILInstruction) : bool :=
  match getKind inst with
  | LoadInst | BeginAccessInst | EndAccessInst => false
  | OtherInstructionKind => inst_mayWriteToMemory inst
  end.

(** ** Invariants *)

(** [bitMask] is an [unsigned]; every value built below stays under [2^18]. *)
Record Invariants := mkInvariants { bitMask : Z }.

Definition invariantMemoryBit : Z := 0.
Definition firstArgBit : Z := 1.
Definition maxArgIndex : Z := 16.

#[global] Instance Invariants_eq_dec : EqDecision Invariants.
Proof. solve_decision. Defined.

Definition isBitSet (inv : Invariants) (bitNr : Z) : bool :=
  negb (Z.land (bitMask inv) (Z.shiftl 1 bitNr) =? 0).

Definition noInvariants : Invariants := mkInvariants 0.

Definition withInvariantMemory (inv : Invariants) : Invariants :=
  mkInvariants (Z.lor (bitMask inv) (Z.shiftl 1 invariantMemoryBit)).

Definition isMemoryInvariant (inv : Invariants) : bool :=
  isBitSet inv invariantMemoryBit.

Definition isArgumentInvariant (inv : Invariants) (argIdx : Z) : bool :=
  (argIdx <=? maxArgIndex) && isBitSet inv (argIdx + firstArgBit).

(** [unsigned argIdx = argAndIndex.index()]: the position, as an [unsigned]. *)
Definition argIndex (position : nat) : Z := Z.of_nat position mod 2 ^ 32.

(** [value == incomingArgs[argIdx]].  [ArrayRef::operator[]] asserts that the
    index is in range; a recursive apply passes as many arguments as the
    function has, and a missing argument compares unequal to every value. *)
Definition isIncomingArg (incomingArgs : list SILValue) (argIdx : Z)
    (value : SILValue) : bool :=
  match incomingArgs !! Z.to_nat argIdx with
  | Some arg => Nat.eqb value arg
  | None => false
  end.

(** [llvm::DenseMapInfo<Invariants>], which the candidate set keys its
    entries with.  The two reserved keys are those of
    [DenseMapInfo<unsigned>]: [~0U] and [~0U - 1]. *)
Module DenseMapInfo.

Definition getEmptyKey : Invariants := mkInvariants (2 ^ 32 - 1).

Definition getTombstoneKey : Invariants := mkInvariants (2 ^ 32 - 2).

Definition isEqual (LHS RHS : Invariants) : bool :=
  bitMask LHS =? bitMask RHS.

End DenseMapInfo.

(** ** Block summaries and the loops of the analysis *)

Record BlockInfo := mkBlockInfo {
  recursiveCall : option SILInstruction;
  numSuccsNotReachingReturn : Z;
  hasInvariantCondition : bool;
  reachesReturn : bool;
  reachableFromEntry : bool
}.

Definition setRecursiveCall (inst : SILInstruction) (bi : BlockInfo) :=
  mkBlockInfo (Some inst) (numSuccsNotReachingReturn bi)
              (hasInvariantCondition bi) (reachesReturn bi)
              (reachableFromEntry bi).

Definition setNumSuccsNotReachingReturn (n : Z) (bi : BlockInfo) :=
  mkBlockInfo (recursiveCall bi) n (hasInvariantCondition bi)
              (reachesReturn bi) (reachableFromEntry bi).

Definition setReachesReturn (bi : BlockInfo) :=
  mkBlockInfo (recursiveCall bi) (numSuccsNotReachingReturn bi)
              (hasInvariantCondition bi) true (reachableFromEntry bi).

Definition setReachableFromEntry (bi : BlockInfo) :=
  mkBlockInfo (recursiveCall bi) (numSuccsNotReachingReturn bi)
              (hasInvariantCondition bi) (reachesReturn bi) true.

(** What a loop of the analysis does next: go on, leave the loop, or stop
    the program ([assert], [llvm_unreachable]). *)
Inductive Step (S : Type) :=
| Next (s : S)
| Finished
| Abort.
Arguments Next {S} s.
Arguments Finished {S}.
Arguments Abort {S}.

(** The state of [isEntryReachableFromReturn] inside its [while] loop.
    [workList] has the back of the vector at its head; [predsToVisit] are
    the predecessors the inner [for] loop has still to visit. *)
Record Propagation := mkPropagation {
  blockInfos : gmap BlockId BlockInfo;
  workList : list BlockId;
  predsToVisit : list BlockId
}.

(** [steps] turns of a loop. *)
Fixpoint iterate {S : Type} (step : S -> Step S) (steps : nat) (s : S)
    : Step S :=
  match steps with
  | O => Next s
  | S steps' =>
    match step s with
    | Next s' => iterate step steps' s'
    | Finished => Finished
    | Abort => Abort
    end
  end.

(** The state in which the loop is left, if it is left within [fuel]
    turns. *)
Inductive Outcome (A : Type) :=
| Returned (a : A)
| Aborted
| OutOfFuel.
Arguments Returned {A} a.
Arguments Aborted {A}.
Arguments OutOfFuel {A}.

Fixpoint runLoop {S : Type} (step : S -> Step S) (fuel : nat) (s : S)
    : Outcome S :=
  match fuel with
  | O => OutOfFuel
  | S fuel' =>
    match step s with
    | Next s' => runLoop step fuel' s'
    | Finished => Returned s
    | Abort => Aborted
    end
  end.

Section WithFunction.
Variable F : SILFunction.

(** The loop of [fromForwardingArguments] over the call's arguments from
    position [position] on. *)
Fixpoint forwardingBits (args : list SILValue) (position : nat) (bitMask : Z)
    : Z :=
  match args with
  | [] => bitMask
  | value :: rest =>
    let argIdx := argIndex position in
    let bitMask' :=
      if (argIdx <=? maxArgIndex)
         && isIncomingArg (fn_getArguments F) argIdx (stripAccessMarkers F value)
      then Z.lor bitMask (Z.shiftl 1 (argIdx + firstArgBit))
      else bitMask in
    forwardingBits rest (S position) bitMask'
  end.

Definition fromForwardingArguments (recursiveApply : FullApplySite)
    : Invariants :=
  mkInvariants (forwardingBits (getArguments recursiveApply) 0 0).

Fixpoint allInvariantForwarded (inv : Invariants) (args : list SILValue)
    (position : nat) : bool :=
  match args with
  | [] => true
  | value :: rest =>
    let argIdx := argIndex position in
    if isArgumentInvariant inv argIdx
       && negb (isIncomingArg (fn_getArguments F) argIdx
                              (stripAccessMarkers F value))
    then false
    else allInvariantForwarded inv rest (S position)
  end.

Definition hasInvariantArguments (inv : Invariants)
    (recursiveApply : FullApplySite) : bool :=
  allInvariantForwarded inv (getArguments recursiveApply) 0.

(** *** The use-def walk

    [isInvariantValue] recurses through the operands and threads the
    [visited] set through all calls.  [depth] bounds the recursion depth;
    [None] means the bound was hit (see [isInvariantValue_terminates]: a
    bound above the number of nodes is never hit).  A value's
    representative node is the value itself. *)
Fixpoint isInvariantValue (depth : nat) (inv : Invariants) (value : SILValue)
    (visited : gset SILValue) : option (bool * gset SILValue) :=
  match depth with
  | O => None
  | S depth' =>
    let node := value in
    if decide (node ∈ visited) then Some (true, visited)
    else
      let visited := {[node]} ∪ visited in
      match fn_nodes F !! node with
      | Some (InstructionNode mayRead operands) =>
        if negb (isMemoryInvariant inv) && mayRead
        then Some (false, visited)
        else
          (fix allOperands (ops : list SILValue) (visited : gset SILValue)
             : option (bool * gset SILValue) :=
             match ops with
             | [] => Some (true, visited)
             | op :: ops' =>
               match isInvariantValue depth' inv op visited with
               | None => None
               | Some (false, visited') => Some (false, visited')
               | Some (true, visited') => allOperands ops' visited'
               end
             end) operands visited
      | Some (FunctionArgumentNode index) =>
        Some (isArgumentInvariant inv index, visited)
      | Some OtherNode | None => Some (false, visited)
      end
  end.

(** Enough depth for any walk over the function's values. *)
Definition walkDepth : nat := S (size (dom (fn_nodes F))).

Definition isInvariant (inv : Invariants) (term : TermInst) : bool :=
  let walk :=
    match isInvariantValue walkDepth inv (term_getOperand0 term) ∅ with
    | Some (result, _) => result
    | None => false
    end in
  match getTermKind term with
  | SwitchEnumAddrInst | CheckedCastAddrBranchInst =>
    if negb (isMemoryInvariant inv) then false else walk
  | CondBranchInst | SwitchValueInst | SwitchEnumInst
  | CheckedCastBranchInst | CheckedCastValueBranchInst => walk
  | _ => false
  end.


(** ** Building a block summary *)

(** The [for] loop of the [BlockInfo] constructor.  [Some bi] is a
    [return] out of the constructor with the summary [bi]; [None] is the
    loop running to its end. *)
Fixpoint scanInstructions (inv : Invariants) (insts : list SILInstruction)
    (bi : BlockInfo) : option BlockInfo :=
  match insts with
  | [] => None
  | inst :: rest =>
    let afterApply :=
      if isMemoryInvariant inv && mayWriteToMemory inst
      then Some (setReachesReturn bi)
      else scanInstructions inv rest bi in
    match asFullApplySite inst with
    | Some applySite =>
      if isCalleeKnownProgramTerminationPoint applySite then Some bi
      else if isRecursiveCall (fn_getModule F) (fn_id F) applySite
              && hasInvariantArguments inv applySite
      then Some (setRecursiveCall inst bi)
      else afterApply
    | None => afterApply
    end
  end.

Definition newBlockInfo (block : SILBasicBlock) (inv : Invariants)
    : BlockInfo :=
  let bi :=
    mkBlockInfo None (getNumSuccessors block)
                (isInvariant inv (getTerminator block)) false false in
  match scanInstructions inv (allInstructions block) bi with
  | Some bi' => bi'
  | None =>
    let term := getTerminator block in
    if isFunctionExiting term || isProgramTerminating term
    then setReachesReturn bi
    else bi
  end.

(** ** Backward propagation of [reachesReturn] *)

(** The initialisation loop: one summary per block, the blocks that reach
    a return pushed in order. *)
Fixpoint initBlockInfos (inv : Invariants) (blocks : list SILBasicBlock)
    (id : BlockId) (infos : gmap BlockId BlockInfo) (workList : list BlockId)
    : gmap BlockId BlockInfo * list BlockId :=
  match blocks with
  | [] => (infos, workList)
  | block :: rest =>
    let blockInfo := newBlockInfo block inv in
    initBlockInfos inv rest (S id) (<[id := blockInfo]> infos)
                   (if reachesReturn blockInfo then id :: workList
                    else workList)
  end.

Definition initPropagation (inv : Invariants) : Propagation :=
  let '(infos, workList) := initBlockInfos inv (fn_blocks F) 0%nat ∅ [] in
  mkPropagation infos workList [].

Definition predecessorsOf (block : BlockId) : list BlockId :=
  match fn_blocks F !! block with
  | Some b => getPredecessorBlocks b
  | None => []
  end.

Definition successorsOf (block : BlockId) : list BlockId :=
  match fn_blocks F !! block with
  | Some b => getSuccessorBlocks b
  | None => []
  end.

(** The body of the inner loop, for the predecessor [pred].  [info(pred)]
    of a block without a summary would run the default constructor, which
    is [llvm_unreachable]. *)
Definition visitPredecessor (infos : gmap BlockId BlockInfo)
    (workList : list BlockId) (pred : BlockId)
    : option (gmap BlockId BlockInfo * list BlockId) :=
  match infos !! pred with
  | None => None
  | Some predInfo =>
    if reachesReturn predInfo || bool_decide (recursiveCall predInfo ≠ None)
    then Some (infos, workList)
    else if negb (0 <? numSuccsNotReachingReturn predInfo) then None
    else
      let predInfo :=
        setNumSuccsNotReachingReturn
          (numSuccsNotReachingReturn predInfo - 1) predInfo in
      if hasInvariantCondition predInfo
         && (0 <? numSuccsNotReachingReturn predInfo)
      then Some (<[pred := predInfo]> infos, workList)
      else Some (<[pred := setReachesReturn predInfo]> infos,
                 pred :: workList)
  end.

Definition propagateStep (s : Propagation) : Step Propagation :=
  match predsToVisit s with
  | pred :: rest =>
    match visitPredecessor (blockInfos s) (workList s) pred with
    | Some (infos, workList) => Next (mkPropagation infos workList rest)
    | None => Abort
    end
  | [] =>
    match workList s with
    | [] => Finished
    | block :: workList =>
      Next (mkPropagation (blockInfos s) workList (predecessorsOf block))
    end
  end.

(** Each block is popped at most once and then has each of its
    predecessors visited. *)
Definition maxPredecessors : nat :=
  max_list (map (fun block => length (getPredecessorBlocks block))
                (fn_blocks F)).

Definition propagationFuel : nat :=
  S (S maxPredecessors * length (fn_blocks F)).

(** The summaries after propagation and the entry block's flag. *)
Definition isEntryReachableFromReturn (inv : Invariants)
    : Outcome (gmap BlockId BlockInfo * bool) :=
  match runLoop propagateStep propagationFuel (initPropagation inv) with
  | Returned s =>
    match blockInfos s !! 0%nat with
    | Some entryInfo => Returned (blockInfos s, reachesReturn entryInfo)
    | None => Aborted
    end
  | Aborted => Aborted
  | OutOfFuel => OutOfFuel
  end.

(** ** Forward search for the recursive calls *)

(** The state of [findRecursiveCallsAndDiagnose] inside its loop; the
    diagnostics are listed in the order they are issued. *)
Record Search := mkSearch {
  searchInfos : gmap BlockId BlockInfo;
  searchWorkList : list BlockId;
  diagnosed : list SourceLoc;
  foundInfiniteRecursion : bool
}.

(** The inner loop over the successors of a block. *)
Fixpoint visitSuccessors (infos : gmap BlockId BlockInfo)
    (workList : list BlockId) (succs : list BlockId)
    : option (gmap BlockId BlockInfo * list BlockId) :=
  match succs with
  | [] => Some (infos, workList)
  | succ :: rest =>
    match infos !! succ with
    | None => None
    | Some succInfo =>
      if negb (reachesReturn succInfo) && negb (reachableFromEntry succInfo)
      then visitSuccessors (<[succ := setReachableFromEntry succInfo]> infos)
                           (succ :: workList) rest
      else visitSuccessors infos workList rest
    end
  end.

Definition searchStep (s : Search) : Step Search :=
  match searchWorkList s with
  | [] => Finished
  | block :: workList =>
    match searchInfos s !! block with
    | None => Abort
    | Some blockInfo =>
      match recursiveCall blockInfo with
      | Some call =>
        Next (mkSearch (searchInfos s) workList
                       (diagnosed s ++ [getLoc call]) true)
      | None =>
        match visitSuccessors (searchInfos s) workList (successorsOf block) with
        | Some (infos, workList) =>
          Next (mkSearch infos workList (diagnosed s)
                         (foundInfiniteRecursion s))
        | None => Abort
        end
      end
    end
  end.

(** Each block with a summary is pushed at most once. *)
Definition searchFuel (infos : gmap BlockId BlockInfo) : nat :=
  S (S (size infos)).

(** The diagnostics issued and the value returned.  When the loop stops the
    program nothing is reported for the attempt. *)
Definition findRecursiveCallsAndDiagnose (infos : gmap BlockId BlockInfo)
    : list SourceLoc * Outcome bool :=
  match infos !! 0%nat with
  | None => ([], Aborted)
  | Some entryInfo =>
    let start :=
      mkSearch (<[0%nat := setReachableFromEntry entryInfo]> infos) [0%nat]
               [] false in
    match runLoop searchStep (searchFuel infos) start with
    | Returned s => (diagnosed s, Returned (foundInfiniteRecursion s))
    | Aborted => ([], Aborted)
    | OutOfFuel => ([], OutOfFuel)
    end
  end.

Definition analyzeAndDiagnose (inv : Invariants)
    : list SourceLoc * Outcome bool :=
  match isEntryReachableFromReturn inv with
  | Returned (infos, true) => ([], Returned false)
  | Returned (infos, false) => findRecursiveCallsAndDiagnose infos
  | Aborted => ([], Aborted)
  | OutOfFuel => ([], OutOfFuel)
  end.

(** ** The driver *)

(** [SmallSetVector::insert]: kept in insertion order, no element twice. *)
Definition setInsert (inv : Invariants) (set : list Invariants)
    : list Invariants :=
  if decide (inv ∈ set) then set else set ++ [inv].

(** The scan of [collectInvariantsToTry].  [inl set] is the early
    [return true]; [inr (found, set)] is the loop running on. *)
Fixpoint collectFromInstructions (insts : list SILInstruction)
    (recursiveCallsFound : bool) (invariantsToTry : list Invariants)
    : list Invariants + bool * list Invariants :=
  match insts with
  | [] => inr (recursiveCallsFound, invariantsToTry)
  | inst :: rest =>
    match asFullApplySite inst with
    | Some applySite =>
      if isRecursiveCall (fn_getModule F) (fn_id F) applySite
      then
        let invariantsToTry :=
          setInsert (fromForwardingArguments applySite) invariantsToTry in
        if (4 <=? length invariantsToTry)%nat then inl invariantsToTry
        else collectFromInstructions rest true invariantsToTry
      else collectFromInstructions rest recursiveCallsFound invariantsToTry
    | None => collectFromInstructions rest recursiveCallsFound invariantsToTry
    end
  end.

Fixpoint collectFromBlocks (blocks : list SILBasicBlock)
    (recursiveCallsFound : bool) (invariantsToTry : list Invariants)
    : list Invariants + bool * list Invariants :=
  match blocks with
  | [] => inr (recursiveCallsFound, invariantsToTry)
  | block :: rest =>
    match collectFromInstructions (allInstructions block) recursiveCallsFound
                                  invariantsToTry with
    | inl set => inl set
    | inr (found, set) => collectFromBlocks rest found set
    end
  end.

(** The value returned and the set filled in. *)
Definition collectInvariantsToTry : bool * list Invariants :=
  match collectFromBlocks (fn_blocks F) false (setInsert noInvariants []) with
  | inl set => (true, set)
  | inr (found, set) => (found, set)
  end.

(** One call of [analyzeAndDiagnose]. *)
Record Attempt := mkAttempt {
  attemptInvariants : Invariants;
  attemptDiagnostics : list SourceLoc;
  attemptResult : Outcome bool
}.

Definition attempt (inv : Invariants) : Attempt :=
  let '(diags, result) := analyzeAndDiagnose inv in
  mkAttempt inv diags result.

(** The loop of [run]: the attempts made, in order.  The loop goes on only
    after an attempt that returned [false]. *)
Fixpoint tryInvariants (invariantsToTry : list Invariants) : list Attempt :=
  match invariantsToTry with
  | [] => []
  | inv :: rest =>
    let plain := attempt inv in
    plain ::
    match attemptResult plain with
    | Returned false =>
      let withMemory := attempt (withInvariantMemory inv) in
      withMemory ::
      match attemptResult withMemory with
      | Returned false => tryInvariants rest
      | _ => []
      end
    | _ => []
    end
  end.

(** [DiagnoseInfiniteRecursion::run], as the list of analysis attempts it
    makes. *)
Definition run : list Attempt :=
  if wasDeserializedCanonical F then []
  else
    let '(found, invariantsToTry) := collectInvariantsToTry in
    if negb found then [] else tryInvariants invariantsToTry.

Definition diagnosticsOf (attempts : list Attempt) : list SourceLoc :=
  concat (map attemptDiagnostics attempts).

End WithFunction.

(** ** Fingerprints *)

Module Fingerprint.

(** Modelled from the spec: [Fingerprint::DIGEST_LENGTH] is declared in
    Fingerprint.h, which is not among the sources; 32 is the length the
    assertion of [fromString] names, a pair of 64-bit words in hexadecimal. *)
Definition DIGEST_LENGTH : nat := 32.

(** [core] is a pair of [uint64_t]. *)
Record Core := mkCore { first : Z; second : Z }.

Definition ZERO : Core := mkCore 0 0.

Definition uint64_max : Z := 2 ^ 64 - 1.

Definition hexdigit (d : Z) : ascii :=
  nth (Z.to_nat d)
      ["0"; "1"; "2"; "3"; "4"; "5"; "6"; "7"; "8"; "9";
       "a"; "b"; "c"; "d"; "e"; "f"]%char "0"%char.

(** The [digits] lowest hexadecimal digits of [N], the highest first. *)
Fixpoint hexDigits (digits : nat) (N : Z) : list ascii :=
  match digits with
  | O => []
  | S digits' =>
    hexdigit ((N / 16 ^ Z.of_nat digits') mod 16) :: hexDigits digits' N
  end.

(** Modelled from the spec: [llvm::format_hex_no_prefix(N, Width)] is
    library code outside the sources.  Written to a stream it gives [N] in
    hexadecimal: lower case, padded with zeros to [Width], never truncated. *)
Definition format_hex_no_prefix (N : Z) (Width : nat) : list ascii :=
  let Nibbles := if N =? 0 then 0%nat else Z.to_nat ((Z.log2 N + 4) / 4) in
  hexDigits (Nat.max Width (Nat.max 1 Nibbles)) N.

Definition getRawValue (fp : Core) : list ascii :=
  format_hex_no_prefix (first fp) 16 ++ format_hex_no_prefix (second fp) 16.

Definition isSpace (c : ascii) : bool :=
  existsb (Ascii.eqb c)
          [" "; "009"; "010"; "011"; "012"; "013"]%char.

Definition hexValue (c : ascii) : option Z :=
  let n := Z.of_nat (nat_of_ascii c) in
  if (48 <=? n) && (n <=? 57) then Some (n - 48)
  else if (97 <=? n) && (n <=? 102) then Some (n - 87)
  else if (65 <=? n) && (n <=? 70) then Some (n - 55)
  else None.

Fixpoint skipSpace (s : list ascii) : list ascii :=
  match s with
  | c :: rest => if isSpace c then skipSpace rest else s
  | [] => []
  end.

(** The value of the longest run of hexadecimal digits at the start of [s],
    from the accumulator [acc] on, and whether there was a digit. *)
Fixpoint readHexDigits (s : list ascii) (acc : Z) (any : bool) : Z * bool :=
  match s with
  | c :: rest =>
    match hexValue c with
    | Some d => readHexDigits rest (acc * 16 + d) true
    | None => (acc, any)
    end
  | [] => (acc, any)
  end.

(** Modelled from the spec: the formatted extraction of the standard
    library is outside the sources.
    [std::istringstream s(str); s >> std::hex >> x] for a [uint64_t x]:
    leading white space, a sign and a [0x] prefix are accepted; without a
    digit the value is 0; a value out of range is replaced by the largest
    one; a negative value wraps around. *)
Definition extractHex (s : list ascii) : Z :=
  let s := skipSpace s in
  let '(negative, s) :=
    match s with
    | c :: rest =>
      if Ascii.eqb c "+" then (false, rest)
      else if Ascii.eqb c "-" then (true, rest)
      else (false, s)
    | [] => (false, s)
    end in
  let s :=
    match s with
    | c0 :: c1 :: rest =>
      if Ascii.eqb c0 "0" && (Ascii.eqb c1 "x" || Ascii.eqb c1 "X")
      then c0 :: rest
      else s
    | _ => s
    end in
  let '(value, any) := readHexDigits s 0 false in
  if negb any then 0
  else if uint64_max <? value then uint64_max
  else if negative then (2 ^ 64 - value) mod 2 ^ 64
  else value.

Definition isLowerHexChar (c : ascii) : bool :=
  let n := Z.of_nat (nat_of_ascii c) in
  (48 <=? n) && (n <=? 57) || (97 <=? n) && (n <=? 102).

(** [StringRef::drop_back] and [StringRef::drop_front]. *)
Definition drop_back (n : nat) (s : list ascii) : list ascii :=
  take (length s - n) s.
Definition drop_front (n : nat) (s : list ascii) : list ascii :=
  drop n s.

Definition string_eqb (a b : list ascii) : bool :=
  bool_decide (a = b).

(** [Aborted] is the failed assertion on the length. *)
Definition fromString (value : list ascii) : Outcome (option Core) :=
  if negb (Nat.eqb (length value) DIGEST_LENGTH) then Aborted
  else
    let fp :=
      mkCore (extractHex (drop_back (DIGEST_LENGTH / 2) value))
             (extractHex (drop_front (DIGEST_LENGTH / 2) value)) in
    if negb (string_eqb value (getRawValue fp)) then Returned None
    else Returned (Some fp).

(** [mockFromString]: [contents.insert(0, DIGEST_LENGTH - n, '0')] pads at
    the front; [Aborted] is the call of [abort()]. *)
Definition mockFromString (value : list ascii) : Outcome (option Core) :=
  let n := length value in
  if Nat.eqb n 0 || Nat.ltb DIGEST_LENGTH n then Returned None
  else
    let contents := replicate (DIGEST_LENGTH - n) "0"%char ++ value in
    match fromString contents with
    | Returned (Some fingerprint) => Returned (Some fingerprint)
    | Returned None => Aborted
    | Aborted => Aborted
    | OutOfFuel => OutOfFuel
    end.

(** The number a string of hexadecimal digits stands for. *)
Fixpoint digitsValue (s : list ascii) : Z :=
  match s with
  | [] => 0
  | c :: rest =>
    match hexValue c with
    | Some d => d * 16 ^ Z.of_nat (length rest) + digitsValue rest
    | None => 0
    end
  end.

End Fingerprint.

(** ** Vocabulary of the statements *)

(** The declaration a dynamically dispatched callee names, and the function
    the module resolves it to. *)
Definition dispatchedMember (callee : CalleeValue) : option SILDeclRef :=
  match callee with
  | ClassMethod CMI => Some (cmi_getMember CMI)
  | WitnessMethod WMI => Some (wmi_getMember WMI)
  | _ => None
  end.

Definition resolvedTarget (module : SILModule) (callee : CalleeValue)
    : option SILFunctionId :=
  match callee with
  | ClassMethod CMI => getTargetClassMethod module (cmi_classDecl CMI) CMI
  | WitnessMethod WMI =>
    lookUpFunctionInWitnessTable module (wmi_getConformance WMI)
                                 (wmi_getMember WMI)
  | _ => None
  end.

Definition classInModule (module : SILModule) (CMI : ClassMethodInst) : Prop :=
  match cmi_classDecl CMI with
  | Some cd => getModuleContext cd = getSwiftModule module
  | None => True
  end.

(** An instruction that calls a program-termination point; an instruction
    that is a recursive call forwarding every argument [inv] expects to be
    invariant. *)
Definition isTerminationPointCall (inst : SILInstruction) : bool :=
  match asFullApplySite inst with
  | Some applySite => isCalleeKnownProgramTerminationPoint applySite
  | None => false
  end.

Definition isConsistentRecursiveCall (F : SILFunction) (inv : Invariants)
    (inst : SILInstruction) : bool :=
  match asFullApplySite inst with
  | Some applySite =>
    isRecursiveCall (fn_getModule F) (fn_id F) applySite
    && hasInvariantArguments F inv applySite
  | None => false
  end.

(** The summary a block starts from, before its instructions are scanned. *)
Definition initialBlockInfo (F : SILFunction) (block : SILBasicBlock)
    (inv : Invariants) : BlockInfo :=
  mkBlockInfo None (getNumSuccessors block)
              (isInvariant F inv (getTerminator block)) false false.

(** The states the propagation loop passes through. *)
Definition reachedBy (F : SILFunction) (inv : Invariants) (s : Propagation)
    : Prop :=
  exists steps, iterate (propagateStep F) steps (initPropagation F inv) = Next s.

(** Instructions that are neither calls of a termination point, nor
    recursive calls consistent with [inv], nor counted as writes under
    [inv], let the scan run on. *)
Definition quiet (F : SILFunction) (inv : Invariants) (inst : SILInstruction)
    : Prop :=
  isTerminationPointCall inst = false
  /\ isConsistentRecursiveCall F inv inst = false
  /\ isMemoryInvariant inv && mayWriteToMemory inst = false.

(** How the summary of a block may differ, during propagation, from the
    summary [bi0] it was built with. *)
Definition summaryEvolved (bi0 bi : BlockInfo) : Prop :=
  recursiveCall bi = recursiveCall bi0
  /\ hasInvariantCondition bi = hasInvariantCondition bi0
  /\ numSuccsNotReachingReturn bi <= numSuccsNotReachingReturn bi0
  /\ (recursiveCall bi0 <> None -> bi = bi0)
  /\ (reachesReturn bi0 = true -> bi = bi0)
  /\ (reachesReturn bi0 = false -> reachesReturn bi = true ->
      hasInvariantCondition bi0 = true -> numSuccsNotReachingReturn bi = 0).

(** What holds of every state of the propagation loop: the work list holds
    blocks that reach a return, and every summary has evolved from the one
    built for its block. *)
Definition propagationInvariant (F : SILFunction) (inv : Invariants)
    (s : Propagation) : Prop :=
  (forall b, b ∈ workList s ->
     exists bi, blockInfos s !! b = Some bi /\ reachesReturn bi = true)
  /\ (forall b,
        option_Forall2 summaryEvolved
          (blockInfos (initPropagation F inv) !! b) (blockInfos s !! b)).


(** The number of summaries in which [flag] is not set yet. *)
Definition pending (flag : BlockInfo -> bool) (infos : gmap BlockId BlockInfo)
    : nat :=
  size (filter (fun entry => flag entry.2 = false) infos).

(** What decreases with every turn of the two loops. *)
Definition propagationMeasure (F : SILFunction) (s : Propagation) : nat :=
  length (predsToVisit s)
  + S (maxPredecessors F)
    * (length (workList s) + pending reachesReturn (blockInfos s)).

Definition searchMeasure (s : Search) : nat :=
  length (searchWorkList s) + pending reachableFromEntry (searchInfos s).

(** How often [b] occurs in a list of blocks. *)
Fixpoint occurrences (b : BlockId) (l : list BlockId) : nat :=
  match l with
  | [] => 0
  | x :: l' => (if Nat.eqb x b then 1 else 0) + occurrences b l'
  end.

(** A function has a block, its edges lead to blocks of the function, and
    every edge is listed once at its source and once at its target. *)
Definition wellFormedCFG (F : SILFunction) : Prop :=
  fn_blocks F <> []
  /\ (forall b x, x ∈ predecessorsOf F b \/ x ∈ successorsOf F b ->
        (x < length (fn_blocks F))%nat)
  /\ (forall pred block,
        occurrences pred (predecessorsOf F block)
        = occurrences block (successorsOf F pred)).

(** The bookkeeping behind the counters: [popped] are the blocks taken from
    the work list so far, [visited] the predecessors visited so far.  The
    counter of a block that neither reaches a return nor has a recursive
    call is the number of its successor edges not visited yet. *)
Definition edgeAccounting (F : SILFunction) (s : Propagation) : Prop :=
  exists popped visited : list BlockId,
    NoDup (popped ++ workList s)
    /\ (forall b, b ∈ popped ->
          exists bi, blockInfos s !! b = Some bi /\ reachesReturn bi = true)
    /\ visited ++ predsToVisit s = concat (map (predecessorsOf F) popped)
    /\ (forall P bi,
          blockInfos s !! P = Some bi -> reachesReturn bi = false ->
          recursiveCall bi = None ->
          numSuccsNotReachingReturn bi
          = Z.of_nat (length (successorsOf F P))
            - Z.of_nat (occurrences P visited)).

(** What the forward search keeps true: every block of the function and
    every block on the work list has a summary. *)
Definition searchInvariant (F : SILFunction) (s : Search) : Prop :=
  (forall b, (b < length (fn_blocks F))%nat -> is_Some (searchInfos s !! b))
  /\ (forall b, b ∈ searchWorkList s -> is_Some (searchInfos s !! b)).

(** What [collectInvariantsToTry] keeps true of its set, with at most
    [bound] entries. *)
Definition candidateSet (bound : nat) (set : list Invariants) : Prop :=
  NoDup set /\ noInvariants ∈ set /\ (length set <= bound)%nat.

(** The attempts [run] would make if no attempt reported: every candidate
    plain and then with memory invariance. *)
Definition scheduledAttempts (set : list Invariants) : list Invariants :=
  flat_map (fun inv => [inv; withInvariantMemory inv]) set.

(** No instruction of the function is a call of the function itself. *)
Definition noRecursiveCall (F : SILFunction) : Prop :=
  forall block inst applySite,
    block ∈ fn_blocks F -> inst ∈ allInstructions block ->
    asFullApplySite inst = Some applySite ->
    isRecursiveCall (fn_getModule F) (fn_id F) applySite = false.

(** ** Vocabulary of the further properties *)

(** The argument at [position] of a call is the function's own argument at
    that position, access markers apart. *)
Definition forwards (F : SILFunction) (args : list SILValue) (position : nat)
    : bool :=
  match args !! position with
  | Some value =>
    isIncomingArg (fn_getArguments F) (Z.of_nat position)
                  (stripAccessMarkers F value)
  | None => false
  end.

(** An assumption without memory invariance whose mask fits in 18 bits. *)
Definition plainCandidate (inv : Invariants) : Prop :=
  0 <= bitMask inv < 2 ^ 18 /\ isMemoryInvariant inv = false.

(** A recursive call of [F], as [collectInvariantsToTry] finds them. *)
Definition recursiveCallSite (F : SILFunction) (applySite : FullApplySite)
    : Prop :=
  exists block inst,
    block ∈ fn_blocks F /\ inst ∈ allInstructions block
    /\ asFullApplySite inst = Some applySite
    /\ isRecursiveCall (fn_getModule F) (fn_id F) applySite = true.

(** The terminator leaves the function or ends the program. *)
Definition exits (block : SILBasicBlock) : bool :=
  isFunctionExiting (getTerminator block)
  || isProgramTerminating (getTerminator block).

(** The blocks the forward search can get to over the summaries [infos]:
    the entry block, and every successor that does not reach a return of a
    block that has been reached and has no recursive-call site. *)
Inductive searchReaches (F : SILFunction) (infos : gmap BlockId BlockInfo)
    : BlockId -> Prop :=
| reaches_entry : searchReaches F infos 0%nat
| reaches_successor (b c : BlockId) (bi ci : BlockInfo) :
    searchReaches F infos b ->
    infos !! b = Some bi -> recursiveCall bi = None ->
    c ∈ successorsOf F b ->
    infos !! c = Some ci -> reachesReturn ci = false ->
    searchReaches F infos c.

(** The search changes a summary in one way only. *)
Definition markedOnly (bi0 bi : BlockInfo) : Prop :=
  bi = bi0 \/ bi = setReachableFromEntry bi0.

Definition isMarked (infos : gmap BlockId BlockInfo) (b : BlockId) : Prop :=
  exists bi, infos !! b = Some bi /\ reachableFromEntry bi = true.

(** The bookkeeping of the forward search over the summaries [infos0] it
    was started with: [done] are the blocks taken from the work list. *)
Definition searchAccounting (F : SILFunction)
    (infos0 : gmap BlockId BlockInfo) (s : Search) : Prop :=
  exists done : list BlockId,
    (0%nat ∈ searchWorkList s \/ 0%nat ∈ done)
    /\ (forall b, option_Forall2 markedOnly (infos0 !! b) (searchInfos s !! b))
    /\ (forall b, isMarked (searchInfos s) b <->
                  b ∈ searchWorkList s \/ b ∈ done)
    /\ (forall b, b ∈ searchWorkList s \/ b ∈ done ->
                  searchReaches F infos0 b)
    /\ (forall b, b ∈ done ->
          exists bi, infos0 !! b = Some bi
            /\ match recursiveCall bi with
               | Some call => getLoc call ∈ diagnosed s
               | None =>
                 forall c, c ∈ successorsOf F b ->
                   exists ci, searchInfos s !! c = Some ci
                     /\ (reachesReturn ci = true
                         \/ reachableFromEntry ci = true)
               end)
    /\ (forall loc, loc ∈ diagnosed s ->
          exists b bi call,
            b ∈ done /\ infos0 !! b = Some bi
            /\ recursiveCall bi = Some call /\ getLoc call = loc).

(** A node that is no evidence against invariance: an instruction that
    reads no memory (or any instruction, when memory is assumed invariant)
    or an argument assumed invariant. *)
Definition nodeInvariant (F : SILFunction) (inv : Invariants)
    (node : SILValue) : Prop :=
  match fn_nodes F !! node with
  | Some (InstructionNode mayRead _) =>
    isMemoryInvariant inv = true \/ mayRead = false
  | Some (FunctionArgumentNode index) => isArgumentInvariant inv index = true
  | _ => False
  end.

Definition operandsOf (F : SILFunction) (node : SILValue) : list SILValue :=
  match fn_nodes F !! node with
  | Some (InstructionNode _ operands) => operands
  | _ => []
  end.

(** The values [value] is computed from: itself, and the operands of the
    instructions among them. *)
Inductive usedBy (F : SILFunction) (value : SILValue) : SILValue -> Prop :=
| used_self : usedBy F value value
| used_operand (node operand : SILValue) :
    usedBy F value node -> operand ∈ operandsOf F node ->
    usedBy F value operand.

(** The terminators whose condition [isInvariant] looks at, under [inv]. *)
Definition conditionLookedAt (inv : Invariants) (kind : TermKind) : Prop :=
  match kind with
  | SwitchEnumAddrInst | CheckedCastAddrBranchInst =>
    isMemoryInvariant inv = true
  | CondBranchInst | SwitchValueInst | SwitchEnumInst
  | CheckedCastBranchInst | CheckedCastValueBranchInst => True
  | _ => False
  end.

(** A block that reaches a return according to the summaries [infos]. *)
Definition returnsIn (infos : gmap BlockId BlockInfo) (b : BlockId) : Prop :=
  exists bi, infos !! b = Some bi /\ reachesReturn bi = true.

(** A block whose summary was built with reaches-return. *)
Definition seeded (F : SILFunction) (inv : Invariants) (b : BlockId) : Prop :=
  exists block,
    fn_blocks F !! b = Some block
    /\ reachesReturn (newBlockInfo F block inv) = true.

(** The ledger of the backward propagation: [popped] are the blocks taken
    from the work list, [visited] the predecessors visited.  The blocks
    that reach a return are the popped ones and those on the work list.  A
    block without a recursive-call site that reaches a return was seeded or
    visited (as often as it has successor edges, under an invariant
    condition); one that does not has its counter at the number of
    successor edges not visited, and was never visited (under an invariant
    condition: not for all its edges). *)
Definition propagationLedger (F : SILFunction) (inv : Invariants)
    (s : Propagation) : Prop :=
  exists popped visited : list BlockId,
    NoDup (popped ++ workList s)
    /\ (forall b, returnsIn (blockInfos s) b <->
                  b ∈ popped \/ b ∈ workList s)
    /\ visited ++ predsToVisit s = concat (map (predecessorsOf F) popped)
    /\ (forall P bi,
          blockInfos s !! P = Some bi -> recursiveCall bi = None ->
          let n := occurrences P visited in
          if reachesReturn bi
          then seeded F inv P
               \/ (0 < n)%nat
                  /\ (hasInvariantCondition bi = true ->
                      (length (successorsOf F P) <= n)%nat)
          else numSuccsNotReachingReturn bi
               = Z.of_nat (length (successorsOf F P)) - Z.of_nat n
               /\ (if hasInvariantCondition bi
                   then n = 0%nat \/ (n < length (successorsOf F P))%nat
                   else n = 0%nat)).

(** The blocks the forward search has reported, in the order of the
    diagnostics: no block twice, each with the recursive-call site of its
    summary in [infos0]; the work list holds no block twice, only marked
    blocks and none that was reported. *)
Definition reportLedger (infos0 : gmap BlockId BlockInfo) (s : Search)
    : Prop :=
  exists reported : list BlockId,
    NoDup reported
    /\ Forall2 (fun b loc => exists bi call,
                  infos0 !! b = Some bi /\ recursiveCall bi = Some call
                  /\ getLoc call = loc)
               reported (diagnosed s)
    /\ (forall b, option_Forall2 markedOnly (infos0 !! b) (searchInfos s !! b))
    /\ NoDup (searchWorkList s)
    /\ (forall b, b ∈ searchWorkList s -> isMarked (searchInfos s) b)
    /\ (forall b, b ∈ reported ->
          isMarked (searchInfos s) b /\ b ∉ searchWorkList s).

(** ** Example programs *)

Module Examples.

Definition module0 : SILModule :=
  mkSILModule 0%nat (fun _ => false) (fun _ => true)
              (fun _ _ => None) (fun _ _ => Some 7%nat).

Definition witnessCall : FullApplySite :=
  mkFullApplySite None (WitnessMethod (mkWitnessMethodInst 1%nat 2%nat)) []
                  false.

Definition module1 : SILModule :=
  mkSILModule 0%nat (fun _ => true) (fun _ => false)
              (fun _ _ => Some 7%nat) (fun _ _ => None).

Definition classCall : FullApplySite :=
  mkFullApplySite None
    (ClassMethod (mkClassMethodInst (Some (mkClassDecl 3%nat 0%nat)) 2%nat))
    [] false.

Definition plainInst : SILInstruction :=
  mkSILInstruction OtherInstructionKind false None 0%nat.

Definition storeInst : SILInstruction :=
  mkSILInstruction OtherInstructionKind true None 1%nat.

(** A direct call of function 7. *)
Definition selfCall (args : list SILValue) (loc : SourceLoc) : SILInstruction :=
  mkSILInstruction OtherInstructionKind true
    (Some (mkFullApplySite (Some 7%nat) OtherCallee args false)) loc.

Definition assertCall : SILInstruction :=
  mkSILInstruction OtherInstructionKind true
    (Some (mkFullApplySite (Some 9%nat) OtherCallee [] true)) 2%nat.

Definition condBr (condition : SILValue) : TermInst :=
  mkTermInst plainInst CondBranchInst condition false false.
Definition br : TermInst :=
  mkTermInst plainInst BranchInst 0%nat false false.
Definition ret : TermInst :=
  mkTermInst plainInst ReturnInst 0%nat true false.

(** Seventeen values, all of them incoming arguments, and a call that
    forwards all seventeen. *)
Definition manyArgs : list SILValue := seq 0 17.

Definition forwardAll : SILFunction :=
  mkSILFunction 7%nat module0 manyArgs ∅ (fun v => v)
    [mkSILBasicBlock [selfCall manyArgs 42%nat] ret [] []] false.

Definition forwardAllSite : FullApplySite :=
  mkFullApplySite (Some 7%nat) OtherCallee manyArgs false.

(** [func f(_ x: Int) { if x > 0 { f(x) } }]: value 0 is [x], value 1 the
    comparison. *)
Definition guardedNodes : gmap SILValue SILNode :=
  <[0%nat := FunctionArgumentNode 0]>
    (<[1%nat := InstructionNode false [0%nat]]> ∅).

Definition guarded : SILFunction :=
  mkSILFunction 7%nat module0 [0%nat] guardedNodes (fun v => v)
    [mkSILBasicBlock [plainInst] (condBr 1%nat) [1; 2]%nat [];
     mkSILBasicBlock [selfCall [0%nat] 42%nat] br [2%nat] [0%nat];
     mkSILBasicBlock [] ret [] [0; 1]%nat] false.

(** Two instructions that use each other, and a user of both. *)
Definition cyclicNodes : gmap SILValue SILNode :=
  <[0%nat := InstructionNode false [1%nat; 1%nat]]>
    (<[1%nat := InstructionNode false [0%nat]]>
       (<[2%nat := InstructionNode false [0%nat; 1%nat]]> ∅)).

Definition cyclic : SILFunction :=
  mkSILFunction 7%nat module0 [] cyclicNodes (fun v => v) [] false.

Definition cyclicWalk : option bool :=
  fst <$> isInvariantValue cyclic (walkDepth cyclic) noInvariants 2%nat ∅.

(** The propagation over [guarded] under [inv], [steps] turns in. *)
Definition guardedAfter (inv : Invariants) (steps : nat) : Propagation :=
  match iterate (propagateStep guarded) steps (initPropagation guarded inv) with
  | Next s => s
  | _ => initPropagation guarded inv
  end.

(** [func f() { f() }]. *)
Definition unconditional : SILFunction :=
  mkSILFunction 7%nat module0 [] ∅ (fun v => v)
    [mkSILBasicBlock [selfCall [] 42%nat] ret [] []] false.

(** [func g(_ x: Int) { if x > 0 { g(x - 1) } else { g(x - 2) } }]: values
    5 and 6 are the two differences. *)
Definition decreasing : SILFunction :=
  mkSILFunction 7%nat module0 [0%nat] guardedNodes (fun v => v)
    [mkSILBasicBlock [plainInst] (condBr 1%nat) [1; 2]%nat [];
     mkSILBasicBlock [selfCall [5%nat] 42%nat] br [3%nat] [0%nat];
     mkSILBasicBlock [selfCall [6%nat] 43%nat] br [3%nat] [0%nat];
     mkSILBasicBlock [] ret [] [1; 2]%nat] false.

(** [func f() { if #available(...) { f() } }]: value 1 is the availability
    check, which reads memory and writes none. *)
Definition availabilityNodes : gmap SILValue SILNode :=
  <[1%nat := InstructionNode true []]> ∅.

Definition available : SILFunction :=
  mkSILFunction 7%nat module0 [] availabilityNodes (fun v => v)
    [mkSILBasicBlock [plainInst] (condBr 1%nat) [1; 2]%nat [];
     mkSILBasicBlock [selfCall [] 42%nat] br [2%nat] [0%nat];
     mkSILBasicBlock [] ret [] [0; 1]%nat] false.

(** The assumptions tried on a function and what each attempt reported. *)
Definition report (F : SILFunction)
    : list (Z * list SourceLoc * Outcome bool) :=
  map (fun a => (bitMask (attemptInvariants a), attemptDiagnostics a,
                 attemptResult a))
      (run F).

(** A block that writes memory and then calls the function again. *)
Definition storeThenCall : SILBasicBlock :=
  mkSILBasicBlock [storeInst; selfCall [] 42%nat] ret [] [].

Definition storing : SILFunction :=
  mkSILFunction 7%nat module0 [] ∅ (fun v => v) [storeThenCall] false.

(** A block that calls the function again and then writes memory. *)
Definition callThenStore : SILBasicBlock :=
  mkSILBasicBlock [plainInst; selfCall [] 42%nat; storeInst] ret [] [].

(** A block that asserts before it calls the function again. *)
Definition assertThenCall : SILBasicBlock :=
  mkSILBasicBlock [plainInst; assertCall; selfCall [] 42%nat] ret [] [].

(** A function without any call. *)
Definition leaf : SILFunction :=
  mkSILFunction 7%nat module0 [] ∅ (fun v => v)
    [mkSILBasicBlock [plainInst; storeInst] ret [] []] false.

(** A [load [take]] and the end of an access, which the generic query
    counts as writes, and a block of these that branches on. *)
Definition loadTake : SILInstruction :=
  mkSILInstruction LoadInst true None 2%nat.

Definition endAccess : SILInstruction :=
  mkSILInstruction EndAccessInst true None 3%nat.

Definition loadsOnly : SILBasicBlock :=
  mkSILBasicBlock [loadTake; plainInst; endAccess] br [0%nat] [].

(** The summaries of [guarded] after the backward propagation, with
    argument 0 assumed invariant. *)
Definition guardedSummaries : gmap BlockId BlockInfo :=
  match isEntryReachableFromReturn guarded (mkInvariants 2) with
  | Returned (infos, _) => infos
  | _ => ∅
  end.

End Examples.

(** * Properties *)

(** ** The call classifier *)

Lemma sameFunction_true (f : option SILFunctionId) (g : SILFunctionId) :
  sameFunction f g = true <-> f = Some g.
Proof.
  destruct f as [f'|]; simpl.
  - rewrite Nat.eqb_eq. split; congruence.
  - split; discriminate.
Qed.

(** C1, as it is stated, fails: a witness-method call is classified by the
    witness-table lookup alone, whatever the closedness and override
    queries answer for its member. *)
Lemma witness_call_ignores_closedness :
  ~ (forall module parentFunc applySite member,
       getReferencedFunctionOrNull applySite = None ->
       dispatchedMember (getCallee applySite) = Some member ->
       isRecursiveCall module parentFunc applySite = true ->
       calleesAreStaticallyKnowable module member = true
       /\ isOverridden module member = false
       /\ resolvedTarget module (getCallee applySite) = Some parentFunc).
Proof.
  intros claim.
  destruct (claim Examples.module0 7%nat Examples.witnessCall 2%nat
                  eq_refl eq_refl eq_refl) as [closed _].
  discriminate closed.
Qed.

(** C1, amended: for a call without a directly referenced function, a
    class-method callee is recursive exactly when its class is declared in
    this module (or there is no class declaration), the callees of its
    member are statically knowable, the member is not overridden and the
    resolved method is the enclosing function; a witness-method callee is
    recursive exactly when the witness-table lookup yields the enclosing
    function; every other callee is not recursive. *)
Theorem isRecursiveCall_dynamic_dispatch (module : SILModule)
    (parentFunc : SILFunctionId) (applySite : FullApplySite) :
  getReferencedFunctionOrNull applySite = None ->
  match getCallee applySite with
  | ClassMethod CMI =>
    isRecursiveCall module parentFunc applySite = true <->
    classInModule module CMI
    /\ calleesAreStaticallyKnowable module (cmi_getMember CMI) = true
    /\ isOverridden module (cmi_getMember CMI) = false
    /\ resolvedTarget module (ClassMethod CMI) = Some parentFunc
  | WitnessMethod WMI =>
    isRecursiveCall module parentFunc applySite = true <->
    resolvedTarget module (WitnessMethod WMI) = Some parentFunc
  | _ => isRecursiveCall module parentFunc applySite = false
  end.
Proof.
  intros direct. unfold isRecursiveCall. rewrite direct.
  destruct (getCallee applySite) as [ | | |CMI|WMI| ]; try reflexivity.
  - unfold classInModule, resolvedTarget.
    destruct (cmi_classDecl CMI) as [cd|]; simpl.
    + destruct (Nat.eqb_spec (getModuleContext cd) (getSwiftModule module));
        simpl.
      * destruct (calleesAreStaticallyKnowable module (cmi_getMember CMI));
          destruct (isOverridden module (cmi_getMember CMI)); simpl;
          rewrite ?sameFunction_true; intuition congruence.
      * intuition congruence.
    + destruct (calleesAreStaticallyKnowable module (cmi_getMember CMI));
        destruct (isOverridden module (cmi_getMember CMI)); simpl;
        rewrite ?sameFunction_true; intuition congruence.
  - simpl. apply sameFunction_true.
Qed.

Lemma isRecursiveCall_dynamic_dispatch_witness :
  isRecursiveCall Examples.module1 7%nat Examples.classCall = true <->
  classInModule Examples.module1
    (mkClassMethodInst (Some (mkClassDecl 3%nat 0%nat)) 2%nat)
  /\ calleesAreStaticallyKnowable Examples.module1 2%nat = true
  /\ isOverridden Examples.module1 2%nat = false
  /\ resolvedTarget Examples.module1
       (ClassMethod (mkClassMethodInst (Some (mkClassDecl 3%nat 0%nat)) 2%nat))
     = Some 7%nat.
Proof.
  exact (isRecursiveCall_dynamic_dispatch Examples.module1 7%nat
           Examples.classCall eq_refl).
Defined.

(** ** The argument cap *)

Lemma argIndex_nonneg (position : nat) : 0 <= argIndex position.
Proof. unfold argIndex. apply Z.mod_pos_bound. lia. Qed.

(** [fromForwardingArguments] sets no bit above bit 17. *)
Lemma forwardingBits_high (F : SILFunction) (args : list SILValue)
    (position : nat) (mask n : Z) :
  17 < n -> Z.testbit mask n = false ->
  Z.testbit (forwardingBits F args position mask) n = false.
Proof.
  intros high. revert position mask.
  induction args as [|value rest IH]; intros position mask clear; simpl.
  - exact clear.
  - apply IH.
    destruct (Z.leb_spec (argIndex position) maxArgIndex) as [small|]; simpl;
      [|exact clear].
    destruct (isIncomingArg _ _ _); [|exact clear].
    pose proof (argIndex_nonneg position) as nonneg.
    unfold maxArgIndex, firstArgBit in *.
    rewrite Z.lor_spec, clear, Z.shiftl_1_l, Z.pow2_bits_eqb by lia.
    simpl. apply Z.eqb_neq. lia.
Qed.

Lemma isBitSet_high (mask bitNr : Z) :
  0 <= bitNr -> Z.testbit mask bitNr = false ->
  isBitSet (mkInvariants mask) bitNr = false.
Proof.
  intros nonneg clear. unfold isBitSet. simpl.
  apply negb_false_iff, Z.eqb_eq, Z.bits_inj'. intros n n_nonneg.
  rewrite Z.land_spec, Z.shiftl_1_l, Z.pow2_bits_eqb, Z.bits_0 by lia.
  destruct (Z.eqb_spec bitNr n) as [->|]; [|apply andb_false_r].
  rewrite clear. reflexivity.
Qed.

(** C2, as it is stated, fails at position 16: [maxArgIndex] is the largest
    tracked index, not the number of tracked positions, so a call that
    forwards its seventeenth argument makes position 16 invariant. *)
Lemma position_16_is_tracked :
  16 >= 16
  /\ isArgumentInvariant
       (fromForwardingArguments Examples.forwardAll Examples.forwardAllSite) 16
     = true.
Proof. split; [lia | reflexivity]. Qed.

(** C2, amended: for every position above 16, [isArgumentInvariant] is
    false under every assumption, and [fromForwardingArguments] leaves the
    position's bit clear. *)
Theorem positions_above_16_not_invariant (F : SILFunction) (inv : Invariants)
    (recursiveApply : FullApplySite) (i : Z) :
  16 < i ->
  isArgumentInvariant inv i = false
  /\ isBitSet (fromForwardingArguments F recursiveApply) (i + firstArgBit)
     = false
  /\ isArgumentInvariant (fromForwardingArguments F recursiveApply) i = false.
Proof.
  intros above.
  assert (capped : forall inv', isArgumentInvariant inv' i = false).
  { intros inv'. unfold isArgumentInvariant, maxArgIndex.
    destruct (Z.leb_spec i 16); [lia | reflexivity]. }
  split; [apply capped|]. split; [|apply capped].
  unfold fromForwardingArguments, firstArgBit.
  apply isBitSet_high; [lia|].
  apply forwardingBits_high; [lia | apply Z.bits_0].
Qed.

Lemma positions_above_16_not_invariant_witness :
  isArgumentInvariant (mkInvariants (2 ^ 18 - 1)) 17 = false
  /\ isBitSet (fromForwardingArguments Examples.forwardAll
                 Examples.forwardAllSite) (17 + firstArgBit) = false
  /\ isArgumentInvariant
       (fromForwardingArguments Examples.forwardAll Examples.forwardAllSite) 17
     = false.
Proof.
  apply (positions_above_16_not_invariant Examples.forwardAll
           (mkInvariants (2 ^ 18 - 1)) Examples.forwardAllSite 17).
  lia.
Defined.

(** ** Block summaries *)

Lemma scanInstructions_app (F : SILFunction) (inv : Invariants)
    (pre rest : list SILInstruction) (bi : BlockInfo) :
  scanInstructions F inv (pre ++ rest) bi =
  match scanInstructions F inv pre bi with
  | Some bi' => Some bi'
  | None => scanInstructions F inv rest bi
  end.
Proof.
  induction pre as [|inst pre IH]; simpl; [reflexivity|].
  rewrite IH.
  destruct (asFullApplySite inst) as [applySite|];
    repeat match goal with |- context [if ?c then _ else _] => destruct c end;
    reflexivity.
Qed.

Lemma scanInstructions_quiet (F : SILFunction) (inv : Invariants)
    (pre : list SILInstruction) (bi : BlockInfo) :
  Forall (quiet F inv) pre -> scanInstructions F inv pre bi = None.
Proof.
  induction 1 as [|inst pre [noAssert [noCall noWrite]] _ IH]; simpl;
    [reflexivity|].
  unfold isTerminationPointCall, isConsistentRecursiveCall in *.
  rewrite noWrite, IH.
  destruct (asFullApplySite inst) as [applySite|]; [|reflexivity].
  rewrite noAssert, noCall. reflexivity.
Qed.

(** The three ways the scan leaves the constructor early. *)
Lemma scanInstructions_returns (F : SILFunction) (inv : Invariants)
    (insts : list SILInstruction) (bi bi' : BlockInfo) :
  scanInstructions F inv insts bi = Some bi' ->
  bi' = bi
  \/ (exists inst, bi' = setRecursiveCall inst bi)
  \/ (bi' = setReachesReturn bi /\ isMemoryInvariant inv = true).
Proof.
  induction insts as [|inst rest IH]; simpl; [discriminate|].
  assert (after :
    (if isMemoryInvariant inv && mayWriteToMemory inst
     then Some (setReachesReturn bi)
     else scanInstructions F inv rest bi) = Some bi' ->
    bi' = bi
    \/ (exists inst, bi' = setRecursiveCall inst bi)
    \/ (bi' = setReachesReturn bi /\ isMemoryInvariant inv = true)).
  { destruct (isMemoryInvariant inv); simpl; [|exact IH].
    destruct (mayWriteToMemory inst); [|exact IH].
    intros [= <-]. right. right. split; reflexivity. }
  destruct (asFullApplySite inst) as [applySite|]; [|exact after].
  destruct (isCalleeKnownProgramTerminationPoint applySite).
  { intros [= <-]. left. reflexivity. }
  destruct (isRecursiveCall _ _ _ && hasInvariantArguments _ _ _);
    [|exact after].
  intros [= <-]. right. left. exists inst. reflexivity.
Qed.

(** C3, as it is stated, fails: under memory invariance a write that comes
    before the recursive call ends the scan, and the call is not recorded. *)
Lemma write_before_call_hides_call :
  ~ (forall F inv block pre call post,
       isMemoryInvariant inv = true ->
       allInstructions block = pre ++ call :: post ->
       Forall (fun inst => isTerminationPointCall inst = false
                           /\ isConsistentRecursiveCall F inv inst = false)
              pre ->
       isTerminationPointCall call = false ->
       isConsistentRecursiveCall F inv call = true ->
       recursiveCall (newBlockInfo F block inv) = Some call).
Proof.
  intros claim.
  specialize (claim Examples.storing (withInvariantMemory noInvariants)
                    Examples.storeThenCall [Examples.storeInst]
                    (Examples.selfCall [] 42%nat)
                    [term_asInstruction Examples.ret]
                    eq_refl eq_refl).
  discriminate claim; [|reflexivity..].
  constructor; [split; reflexivity | constructor].
Qed.

(** C3, amended: under memory invariance, let [inst] be the first
    instruction of the block that is a recursive call consistent with the
    assumption or a memory write, with no call of a termination point before
    it.  If [inst] is such a recursive call, it becomes the recursive-call
    site and the block does not reach a return; if it is a write, the block
    reaches a return and has no recursive-call site, whatever follows. *)
Theorem first_call_or_write_decides (F : SILFunction) (inv : Invariants)
    (block : SILBasicBlock) (pre : list SILInstruction)
    (inst : SILInstruction) (post : list SILInstruction) :
  isMemoryInvariant inv = true ->
  allInstructions block = pre ++ inst :: post ->
  Forall (quiet F inv) pre ->
  isTerminationPointCall inst = false ->
  (isConsistentRecursiveCall F inv inst = true ->
   newBlockInfo F block inv
   = setRecursiveCall inst (initialBlockInfo F block inv))
  /\ (isConsistentRecursiveCall F inv inst = false ->
      mayWriteToMemory inst = true ->
      newBlockInfo F block inv = setReachesReturn (initialBlockInfo F block inv)).
Proof.
  intros memory split_at quiet_pre noAssert.
  unfold newBlockInfo. fold (initialBlockInfo F block inv).
  rewrite split_at, scanInstructions_app.
  rewrite (scanInstructions_quiet F inv pre _ quiet_pre). simpl.
  unfold isTerminationPointCall, isConsistentRecursiveCall in *.
  rewrite memory. simpl.
  destruct (asFullApplySite inst) as [applySite|].
  - rewrite noAssert. split.
    + intros ->. reflexivity.
    + intros -> ->. reflexivity.
  - split; [discriminate|]. intros _ ->. reflexivity.
Qed.

Lemma first_call_or_write_decides_witness :
  (isConsistentRecursiveCall Examples.storing
     (withInvariantMemory noInvariants) (Examples.selfCall [] 42%nat) = true ->
   newBlockInfo Examples.storing Examples.callThenStore
                (withInvariantMemory noInvariants)
   = setRecursiveCall (Examples.selfCall [] 42%nat)
       (initialBlockInfo Examples.storing Examples.callThenStore
                         (withInvariantMemory noInvariants)))
  /\ (isConsistentRecursiveCall Examples.storing
        (withInvariantMemory noInvariants) (Examples.selfCall [] 42%nat)
      = false ->
      mayWriteToMemory (Examples.selfCall [] 42%nat) = true ->
      newBlockInfo Examples.storing Examples.callThenStore
                   (withInvariantMemory noInvariants)
      = setReachesReturn
          (initialBlockInfo Examples.storing Examples.callThenStore
                            (withInvariantMemory noInvariants))).
Proof.
  apply (first_call_or_write_decides Examples.storing
           (withInvariantMemory noInvariants) Examples.callThenStore
           [Examples.plainInst] (Examples.selfCall [] 42%nat)
           [Examples.storeInst; term_asInstruction Examples.ret]);
    [reflexivity | reflexivity | | reflexivity].
  constructor; [repeat split | constructor].
Defined.

(** C6: when the scan of a block reaches a call of a program-termination
    point, the summary is the one the block started from: no recursive-call
    site and no reaches-return, whatever the later instructions, the
    terminator's exit kind and the assumption are.  (The counter and the
    invariant-condition flag were set from the terminator beforehand.) *)
Theorem termination_point_short_circuits (F : SILFunction) (inv : Invariants)
    (block : SILBasicBlock) (pre : list SILInstruction)
    (call : SILInstruction) (post : list SILInstruction) :
  allInstructions block = pre ++ call :: post ->
  scanInstructions F inv pre (initialBlockInfo F block inv) = None ->
  isTerminationPointCall call = true ->
  newBlockInfo F block inv = initialBlockInfo F block inv
  /\ recursiveCall (newBlockInfo F block inv) = None
  /\ reachesReturn (newBlockInfo F block inv) = false.
Proof.
  intros split_at reached is_assert.
  assert (same : newBlockInfo F block inv = initialBlockInfo F block inv).
  { unfold newBlockInfo. fold (initialBlockInfo F block inv).
    rewrite split_at, scanInstructions_app, reached. simpl.
    unfold isTerminationPointCall in is_assert.
    destruct (asFullApplySite call) as [applySite|]; [|discriminate].
    rewrite is_assert. reflexivity. }
  rewrite same. repeat split.
Qed.

Lemma termination_point_short_circuits_witness :
  newBlockInfo Examples.storing Examples.assertThenCall
               (withInvariantMemory noInvariants)
  = initialBlockInfo Examples.storing Examples.assertThenCall
                     (withInvariantMemory noInvariants)
  /\ recursiveCall (newBlockInfo Examples.storing Examples.assertThenCall
                                 (withInvariantMemory noInvariants)) = None
  /\ reachesReturn (newBlockInfo Examples.storing Examples.assertThenCall
                                 (withInvariantMemory noInvariants)) = false.
Proof.
  apply (termination_point_short_circuits Examples.storing
           (withInvariantMemory noInvariants) Examples.assertThenCall
           [Examples.plainInst] Examples.assertCall
           [Examples.selfCall [] 42%nat; term_asInstruction Examples.ret]);
    reflexivity.
Defined.

(** ** Backward propagation *)

Lemma newBlockInfo_recursive (F : SILFunction) (inv : Invariants)
    (block : SILBasicBlock) :
  recursiveCall (newBlockInfo F block inv) <> None ->
  reachesReturn (newBlockInfo F block inv) = false
  /\ numSuccsNotReachingReturn (newBlockInfo F block inv)
     = getNumSuccessors block.
Proof.
  unfold newBlockInfo.
  destruct (scanInstructions F inv (allInstructions block) _) as [bi'|] eqn:scan.
  - apply scanInstructions_returns in scan.
    destruct scan as [->|[[inst ->]|[-> _]]]; simpl; intros call;
      solve [split; reflexivity | contradiction].
  - destruct (isFunctionExiting _ || isProgramTerminating _); simpl;
      intros call; contradiction.
Qed.

Lemma initBlockInfos_spec (F : SILFunction) (inv : Invariants)
    (blocks : list SILBasicBlock) (id : BlockId)
    (infos : gmap BlockId BlockInfo) (workList : list BlockId) :
  forall infos' workList',
  initBlockInfos F inv blocks id infos workList = (infos', workList') ->
  (forall b, infos' !! b =
     if decide (id <= b)%nat
     then match blocks !! (b - id)%nat with
          | Some block => Some (newBlockInfo F block inv)
          | None => infos !! b
          end
     else infos !! b)
  /\ (forall b, b ∈ workList' ->
        b ∈ workList
        \/ exists block, (id <= b)%nat /\ blocks !! (b - id)%nat = Some block
                         /\ reachesReturn (newBlockInfo F block inv) = true).
Proof.
  revert id infos workList.
  induction blocks as [|block rest IH]; intros id infos workList infos' workList';
    simpl.
  - intros [= <- <-]. split.
    + intros b. destruct (decide (id <= b)%nat); reflexivity.
    + intros b. left. assumption.
  - intros run. apply IH in run. destruct run as [lookups pushed]. split.
    + intros b. rewrite lookups.
      destruct (decide (S id <= b)%nat) as [above|below].
      * destruct (decide (id <= b)%nat); [|lia].
        replace (b - id)%nat with (S (b - S id)) by lia. simpl.
        destruct (rest !! (b - S id)%nat); [reflexivity|].
        apply lookup_insert_ne. lia.
      * destruct (decide (id <= b)%nat) as [at_id|].
        -- replace b with id by lia. rewrite Nat.sub_diag. simpl.
           apply lookup_insert_eq.
        -- apply lookup_insert_ne. lia.
    + intros b member. apply pushed in member.
      destruct member as [member|[blk [above [found reaches]]]].
      * destruct (reachesReturn (newBlockInfo F block inv)) eqn:reaches;
          [|left; exact member].
        apply elem_of_cons in member. destruct member as [->|member];
          [|left; exact member].
        right. exists block. rewrite Nat.sub_diag. repeat split; [lia|exact reaches].
      * right. exists blk. split; [lia|]. split; [|exact reaches].
        replace (b - id)%nat with (S (b - S id)) by lia. exact found.
Qed.

Lemma init_lookup (F : SILFunction) (inv : Invariants) (b : BlockId) :
  blockInfos (initPropagation F inv) !! b =
  match fn_blocks F !! b with
  | Some block => Some (newBlockInfo F block inv)
  | None => None
  end.
Proof.
  unfold initPropagation.
  destruct (initBlockInfos F inv (fn_blocks F) 0%nat ∅ []) as [infos wl] eqn:run.
  apply initBlockInfos_spec in run. destruct run as [lookups _]. simpl.
  rewrite lookups, Nat.sub_0_r. destruct (decide (0 <= b)%nat); [|lia].
  destruct (fn_blocks F !! b); [reflexivity | apply lookup_empty].
Qed.

Lemma init_workList (F : SILFunction) (inv : Invariants) (b : BlockId) :
  b ∈ workList (initPropagation F inv) ->
  exists block, fn_blocks F !! b = Some block
                /\ reachesReturn (newBlockInfo F block inv) = true.
Proof.
  unfold initPropagation.
  destruct (initBlockInfos F inv (fn_blocks F) 0%nat ∅ []) as [infos wl] eqn:run.
  apply initBlockInfos_spec in run. destruct run as [_ pushed]. simpl.
  intros member. apply pushed in member.
  destruct member as [member|[block [_ [found reaches]]]].
  - apply elem_of_nil in member. contradiction.
  - rewrite Nat.sub_0_r in found. exists block. split; assumption.
Qed.

Lemma summaryEvolved_refl (F : SILFunction) (inv : Invariants)
    (block : SILBasicBlock) :
  summaryEvolved (newBlockInfo F block inv) (newBlockInfo F block inv).
Proof.
  unfold summaryEvolved. repeat split; try reflexivity; try lia.
  intros no yes. congruence.
Qed.

Lemma propagationInvariant_init (F : SILFunction) (inv : Invariants) :
  propagationInvariant F inv (initPropagation F inv).
Proof.
  split.
  - intros b member. apply init_workList in member.
    destruct member as [block [found reaches]].
    exists (newBlockInfo F block inv). rewrite init_lookup, found.
    split; [reflexivity | exact reaches].
  - intros b. rewrite init_lookup. destruct (fn_blocks F !! b) as [block|].
    + constructor. apply summaryEvolved_refl.
    + constructor.
Qed.

(** What one visit of a predecessor does to the summaries and the work
    list. *)
Lemma visitPredecessor_cases (infos infos' : gmap BlockId BlockInfo)
    (wl wl' : list BlockId) (pred : BlockId) :
  visitPredecessor infos wl pred = Some (infos', wl') ->
  exists bi, infos !! pred = Some bi /\
    ((infos' = infos /\ wl' = wl
      /\ (reachesReturn bi = true \/ recursiveCall bi <> None))
     \/ (reachesReturn bi = false /\ recursiveCall bi = None
         /\ 0 < numSuccsNotReachingReturn bi
         /\ let bi1 := setNumSuccsNotReachingReturn
                         (numSuccsNotReachingReturn bi - 1) bi in
            (hasInvariantCondition bi = true
             /\ 1 < numSuccsNotReachingReturn bi
             /\ infos' = <[pred := bi1]> infos /\ wl' = wl)
            \/ ((hasInvariantCondition bi = false
                 \/ numSuccsNotReachingReturn bi = 1)
                /\ infos' = <[pred := setReachesReturn bi1]> infos
                /\ wl' = pred :: wl))).
Proof.
  unfold visitPredecessor.
  destruct (infos !! pred) as [bi|]; [|discriminate].
  intros visit. exists bi. split; [reflexivity|].
  destruct (reachesReturn bi) eqn:reaches; simpl in visit.
  { injection visit as <- <-. left. auto. }
  destruct (bool_decide_reflect (recursiveCall bi <> None)) as [call|nocall].
  { injection visit as <- <-. left. auto. }
  right. split; [reflexivity|].
  split; [destruct (recursiveCall bi); [exfalso; apply nocall|]; congruence|].
  destruct (Z.ltb_spec 0 (numSuccsNotReachingReturn bi)) as [positive|];
    simpl in visit; [|discriminate].
  split; [exact positive|]. simpl.
  destruct (hasInvariantCondition bi); simpl in visit.
  - destruct (Z.ltb_spec 0 (numSuccsNotReachingReturn bi - 1));
      injection visit as <- <-.
    + left. repeat split. lia.
    + right. repeat split. right. lia.
  - injection visit as <- <-. right. repeat split. left. reflexivity.
Qed.

Lemma propagationInvariant_step (F : SILFunction) (inv : Invariants)
    (s s' : Propagation) :
  propagationInvariant F inv s -> propagateStep F s = Next s' ->
  propagationInvariant F inv s'.
Proof.
  intros [listed evolved]. unfold propagateStep.
  destruct (predsToVisit s) as [|pred rest].
  { destruct (workList s) as [|block wl] eqn:list_eq; [discriminate|].
    intros [= <-]. split; simpl; [|exact evolved].
    intros b member. apply listed. apply elem_of_cons. auto. }
  destruct (visitPredecessor (blockInfos s) (workList s) pred)
    as [[infos' wl']|] eqn:visit; [|discriminate].
  intros [= <-]. simpl.
  apply visitPredecessor_cases in visit.
  destruct visit as [bi [found [[-> [-> _]]|[noreturn [nocall [positive change]]]]]].
  { split; assumption. }
  pose proof (evolved pred) as at_pred. rewrite found in at_pred.
  inversion at_pred as [bi0 bi_ related init_eq cur_eq|]; subst bi_.
  destruct related as [same_call [same_cond [below [keep_call [keep_ret zero]]]]].
  assert (initial_noreturn : reachesReturn bi0 = false).
  { destruct (reachesReturn bi0) eqn:r; [|reflexivity].
    rewrite (keep_ret eq_refl) in noreturn. congruence. }
  assert (initial_nocall : recursiveCall bi0 = None) by congruence.
  simpl in change.
  destruct change as [[cond [more [-> ->]]]|[last [-> ->]]]; split; simpl.
  - intros b member. destruct (decide (b = pred)) as [->|other].
    + apply listed in member. destruct member as [bi' [found' reaches]].
      congruence.
    + rewrite lookup_insert_ne by congruence. apply listed. exact member.
  - intros b. destruct (decide (b = pred)) as [->|other].
    + rewrite lookup_insert_eq, <- init_eq. constructor.
      unfold summaryEvolved. simpl.
      repeat split; try assumption; try lia; try congruence.
    + rewrite lookup_insert_ne by congruence. apply evolved.
  - intros b member. destruct (decide (b = pred)) as [->|other].
    + rewrite lookup_insert_eq. eexists. split; reflexivity.
    + rewrite lookup_insert_ne by congruence. apply listed.
      apply elem_of_cons in member. destruct member; [congruence|assumption].
  - intros b. destruct (decide (b = pred)) as [->|other].
    + rewrite lookup_insert_eq, <- init_eq. constructor.
      unfold summaryEvolved. simpl.
      repeat split; try assumption; try lia; try congruence.
      intros _ _ cond0. destruct last as [nocond|one]; [congruence|lia].
    + rewrite lookup_insert_ne by congruence. apply evolved.
Qed.

Lemma iterate_invariant {S : Type} (step : S -> Step S) (P : S -> Prop) :
  (forall s s', P s -> step s = Next s' -> P s') ->
  forall steps s s', P s -> iterate step steps s = Next s' -> P s'.
Proof.
  intros preserved. induction steps as [|steps IH]; intros s s' holds; simpl.
  - intros [= <-]. exact holds.
  - destruct (step s) as [s1| |] eqn:one; try discriminate.
    apply IH. eapply preserved; eassumption.
Qed.

Lemma reachedBy_invariant (F : SILFunction) (inv : Invariants)
    (s : Propagation) :
  reachedBy F inv s -> propagationInvariant F inv s.
Proof.
  intros [steps run].
  eapply (iterate_invariant (propagateStep F) (propagationInvariant F inv));
    [apply propagationInvariant_step | apply propagationInvariant_init
    | exact run].
Qed.

Lemma guardedAfter_reached (inv : Invariants) (steps : nat) :
  (if iterate (propagateStep Examples.guarded) steps
        (initPropagation Examples.guarded inv) is Next _ then true else false)
  = true ->
  reachedBy Examples.guarded inv (Examples.guardedAfter inv steps).
Proof.
  intros goes_on. exists steps. unfold Examples.guardedAfter.
  destruct (iterate _ steps _); [reflexivity | discriminate..].
Defined.

(** C5: while the propagation runs, a block whose summary was built with a
    recursive-call site keeps that summary, with its counter at the number
    of successors and reaches-return false, and is never on the work list,
    so its predecessors are never visited on its account. *)
Theorem recursive_call_blocks_are_excluded (F : SILFunction)
    (inv : Invariants) (s : Propagation) (b : BlockId)
    (block : SILBasicBlock) :
  reachedBy F inv s ->
  fn_blocks F !! b = Some block ->
  recursiveCall (newBlockInfo F block inv) <> None ->
  blockInfos s !! b = Some (newBlockInfo F block inv)
  /\ numSuccsNotReachingReturn (newBlockInfo F block inv)
     = getNumSuccessors block
  /\ reachesReturn (newBlockInfo F block inv) = false
  /\ b ∉ workList s.
Proof.
  intros reached found call.
  destruct (newBlockInfo_recursive F inv block call) as [noreturn counter].
  destruct (reachedBy_invariant F inv s reached) as [listed evolved].
  specialize (evolved b). rewrite init_lookup, found in evolved.
  inversion evolved as [bi0 bi related init_eq cur_eq|]; subst bi0.
  destruct related as [_ [_ [_ [keep _]]]].
  rewrite (keep call) in *.
  repeat split; try assumption.
  intros member. apply listed in member.
  destruct member as [bi' [found' reaches]]. congruence.
Qed.

Lemma recursive_call_blocks_are_excluded_witness :
  let block :=
    mkSILBasicBlock [Examples.selfCall [0%nat] 42%nat] Examples.br [2%nat]
                    [0%nat] in
  let s := Examples.guardedAfter noInvariants 4 in
  blockInfos s !! 1%nat = Some (newBlockInfo Examples.guarded block noInvariants)
  /\ numSuccsNotReachingReturn (newBlockInfo Examples.guarded block noInvariants)
     = getNumSuccessors block
  /\ reachesReturn (newBlockInfo Examples.guarded block noInvariants) = false
  /\ 1%nat ∉ workList s.
Proof.
  apply (recursive_call_blocks_are_excluded Examples.guarded noInvariants
           (Examples.guardedAfter noInvariants 4) 1%nat).
  - apply guardedAfter_reached. vm_compute. reflexivity.
  - reflexivity.
  - vm_compute. discriminate.
Defined.

(** ** Termination of the two loops *)

Lemma runLoop_returns {S : Type} (step : S -> Step S) (measure : S -> nat) :
  (forall s s', step s = Next s' -> (measure s' < measure s)%nat) ->
  forall fuel s, (measure s < fuel)%nat -> runLoop step fuel s <> OutOfFuel.
Proof.
  intros decreases. induction fuel as [|fuel IH]; intros s enough; [lia|].
  simpl. destruct (step s) as [s'| |] eqn:one; try discriminate.
  apply IH. apply decreases in one. lia.
Qed.

Section Pending.
Variable flag : BlockInfo -> bool.

Lemma pending_insert_fresh (infos : gmap nat BlockInfo) (b : nat)
    (bi : BlockInfo) :
  infos !! b = None ->
  pending flag (<[b := bi]> infos)
  = ((if flag bi then 0 else 1) + pending flag infos)%nat.
Proof.
  intros fresh. unfold pending.
  destruct (flag bi) eqn:is_set; simpl.
  - rewrite map_filter_insert_False by (simpl; congruence).
    rewrite delete_id by exact fresh. reflexivity.
  - rewrite map_filter_insert_True by exact is_set.
    rewrite map_size_insert_None; [reflexivity|].
    rewrite map_lookup_filter, fresh. reflexivity.
Qed.

Lemma pending_insert_unset (infos : gmap nat BlockInfo) (b : nat)
    (bi bi' : BlockInfo) :
  infos !! b = Some bi -> flag bi = false -> flag bi' = false ->
  pending flag (<[b := bi']> infos) = pending flag infos.
Proof.
  intros found unset unset'. unfold pending.
  rewrite map_filter_insert_True by exact unset'.
  apply map_size_insert_Some. exists bi.
  apply map_lookup_filter_Some. split; assumption.
Qed.

Lemma pending_insert_set (infos : gmap nat BlockInfo) (b : nat)
    (bi bi' : BlockInfo) :
  infos !! b = Some bi -> flag bi = false -> flag bi' = true ->
  S (pending flag (<[b := bi']> infos)) = pending flag infos.
Proof.
  intros found unset set'. unfold pending.
  rewrite map_filter_insert_False by (simpl; congruence).
  rewrite map_filter_delete.
  assert (inside : filter (fun entry => flag entry.2 = false) infos !! b
                   = Some bi).
  { apply map_lookup_filter_Some. split; assumption. }
  rewrite map_size_delete, inside. simpl.
  assert (size (filter (fun entry => flag entry.2 = false) infos) <> 0)%nat.
  { intros empty. apply map_size_empty_iff in empty.
    rewrite empty, lookup_empty in inside. discriminate. }
  lia.
Qed.

Lemma pending_le_size (infos : gmap nat BlockInfo) :
  (pending flag infos <= size infos)%nat.
Proof. apply map_subseteq_size, map_filter_subseteq. Qed.

End Pending.

Lemma predecessorsOf_length (F : SILFunction) (b : BlockId) :
  (length (predecessorsOf F b) <= maxPredecessors F)%nat.
Proof.
  unfold predecessorsOf, maxPredecessors.
  destruct (fn_blocks F !! b) as [block|] eqn:found; [|simpl; lia].
  apply max_list_elem_of_le, list_elem_of_fmap.
  exists block. split; [reflexivity|].
  apply list_elem_of_lookup. exists b. exact found.
Qed.

Lemma propagateStep_decreases (F : SILFunction) (s s' : Propagation) :
  propagateStep F s = Next s' ->
  (propagationMeasure F s' < propagationMeasure F s)%nat.
Proof.
  unfold propagateStep, propagationMeasure.
  destruct (predsToVisit s) as [|pred rest].
  { destruct (workList s) as [|block wl]; [discriminate|].
    intros [= <-]. simpl.
    pose proof (predecessorsOf_length F block). nia. }
  destruct (visitPredecessor (blockInfos s) (workList s) pred)
    as [[infos' wl']|] eqn:visit; [|discriminate].
  intros [= <-]. simpl.
  apply visitPredecessor_cases in visit.
  destruct visit as [bi [found [[-> [-> _]]|[noreturn [_ [_ change]]]]]];
    [lia|].
  simpl in change.
  destruct change as [[_ [_ [-> ->]]]|[_ [-> ->]]].
  - rewrite (pending_insert_unset reachesReturn _ _ bi) by
      (assumption || reflexivity).
    lia.
  - pose proof (pending_insert_set reachesReturn (blockInfos s) pred bi
                  (setReachesReturn
                     (setNumSuccsNotReachingReturn
                        (numSuccsNotReachingReturn bi - 1) bi))
                  found noreturn eq_refl) as flipped.
    simpl. nia.
Qed.

Lemma initBlockInfos_measure (F : SILFunction) (inv : Invariants)
    (blocks : list SILBasicBlock) :
  forall id infos workList infos' workList',
  (forall b, (id <= b)%nat -> infos !! b = None) ->
  initBlockInfos F inv blocks id infos workList = (infos', workList') ->
  (length workList' + pending reachesReturn infos'
   = length workList + pending reachesReturn infos + length blocks)%nat.
Proof.
  induction blocks as [|block rest IH];
    intros id infos workList infos' workList' fresh; simpl.
  - intros [= <- <-]. lia.
  - intros run. apply IH in run.
    + rewrite run, pending_insert_fresh by (apply fresh; lia).
      destruct (reachesReturn (newBlockInfo F block inv)); simpl; lia.
    + intros b above. rewrite lookup_insert_ne by lia. apply fresh. lia.
Qed.

(** The propagation loop is left within [propagationFuel] turns. *)
Lemma propagation_terminates (F : SILFunction) (inv : Invariants) :
  runLoop (propagateStep F) (propagationFuel F) (initPropagation F inv)
  <> OutOfFuel.
Proof.
  apply (runLoop_returns _ (propagationMeasure F)).
  - apply propagateStep_decreases.
  - unfold propagationMeasure, propagationFuel, initPropagation.
    destruct (initBlockInfos F inv (fn_blocks F) 0%nat ∅ []) as [infos wl]
      eqn:run.
    apply initBlockInfos_measure in run;
      [|intros b _; apply lookup_empty].
    simpl in *. unfold pending in run at 2.
    rewrite map_filter_empty, map_size_empty in run. rewrite run. lia.
Qed.

Lemma visitSuccessors_measure (succs : list BlockId) :
  forall infos workList infos' workList',
  visitSuccessors infos workList succs = Some (infos', workList') ->
  (length workList' + pending reachableFromEntry infos'
   = length workList + pending reachableFromEntry infos)%nat.
Proof.
  induction succs as [|succ rest IH]; intros infos workList infos' workList';
    simpl.
  - intros [= <- <-]. reflexivity.
  - destruct (infos !! succ) as [succInfo|] eqn:found; [|discriminate].
    destruct (reachesReturn succInfo); simpl; [apply IH|].
    destruct (reachableFromEntry succInfo) eqn:unreached; simpl; [apply IH|].
    intros run. apply IH in run. rewrite run. simpl.
    pose proof (pending_insert_set reachableFromEntry infos succ succInfo
                  (setReachableFromEntry succInfo) found unreached eq_refl).
    lia.
Qed.

Lemma searchStep_decreases (F : SILFunction) (s s' : Search) :
  searchStep F s = Next s' -> (searchMeasure s' < searchMeasure s)%nat.
Proof.
  unfold searchStep, searchMeasure.
  destruct (searchWorkList s) as [|block wl]; [discriminate|].
  destruct (searchInfos s !! block) as [blockInfo|]; [|discriminate].
  destruct (recursiveCall blockInfo) as [call|].
  { intros [= <-]. simpl. lia. }
  destruct (visitSuccessors (searchInfos s) wl (successorsOf F block))
    as [[infos' wl']|] eqn:visit; [|discriminate].
  intros [= <-]. simpl. apply visitSuccessors_measure in visit. lia.
Qed.

(** X22: the two work-list loops of an analysis attempt end: the backward
    propagation within [propagationFuel] turns and the forward search
    within [searchFuel] turns, for every function and assumption, whatever
    the shape of the control-flow graph. *)
Theorem analyzeAndDiagnose_terminates (F : SILFunction) (inv : Invariants) :
  isEntryReachableFromReturn F inv <> OutOfFuel
  /\ snd (analyzeAndDiagnose F inv) <> OutOfFuel.
Proof.
  assert (backward : isEntryReachableFromReturn F inv <> OutOfFuel).
  { unfold isEntryReachableFromReturn.
    pose proof (propagation_terminates F inv) as left.
    destruct (runLoop (propagateStep F) _ _) as [s| |];
      [|discriminate|contradiction].
    destruct (blockInfos s !! 0%nat); discriminate. }
  split; [exact backward|].
  unfold analyzeAndDiagnose.
  destruct (isEntryReachableFromReturn F inv) as [[infos [|]]| |];
    simpl; try discriminate; [|contradiction].
  unfold findRecursiveCallsAndDiagnose.
  destruct (infos !! 0%nat) as [entryInfo|] eqn:entry; [|discriminate].
  cbv zeta.
  pose proof (runLoop_returns (searchStep F) searchMeasure
                (searchStep_decreases F) (searchFuel infos)
                (mkSearch (<[0%nat := setReachableFromEntry entryInfo]> infos)
                          [0%nat] [] false)) as left.
  destruct (runLoop (searchStep F) (searchFuel infos) _) as [s| |];
    try discriminate.
  exfalso. apply left; [|reflexivity].
  unfold searchMeasure, searchFuel. cbn [searchWorkList searchInfos length].
  pose proof (pending_le_size reachableFromEntry
                (<[0%nat := setReachableFromEntry entryInfo]> infos)) as le.
  rewrite map_size_insert_Some in le by (eexists; exact entry). lia.
Qed.

(** ** The analysis of a well-formed function runs to its end *)

Lemma occurrences_app (b : BlockId) (l k : list BlockId) :
  occurrences b (l ++ k) = (occurrences b l + occurrences b k)%nat.
Proof. induction l as [|x l IH]; simpl; [reflexivity | rewrite IH; lia]. Qed.

Lemma occurrences_concat (b : BlockId) (ls : list (list BlockId)) :
  occurrences b (concat ls) = sum_list (map (occurrences b) ls).
Proof.
  induction ls as [|l ls IH]; simpl; [reflexivity|].
  rewrite occurrences_app, IH. reflexivity.
Qed.

Lemma elem_of_concat_map (f : BlockId -> list BlockId) (x : BlockId)
    (l : list BlockId) :
  x ∈ concat (map f l) -> exists b, x ∈ f b.
Proof.
  induction l as [|b l IH]; simpl; intros member.
  - apply elem_of_nil in member. contradiction.
  - apply elem_of_app in member. destruct member as [here|later];
      [exists b; exact here | apply IH; exact later].
Qed.

Lemma occurrences_le_one (b : BlockId) (l : list BlockId) :
  NoDup l -> (occurrences b l <= 1)%nat.
Proof.
  induction 1 as [|x l fresh _ IH]; simpl; [lia|].
  destruct (Nat.eqb_spec x b) as [->|]; [|lia].
  assert (occurrences b l = 0)%nat; [|lia].
  clear IH. induction l as [|y l IHl]; simpl; [reflexivity|].
  apply not_elem_of_cons in fresh. destruct fresh as [differs fresh].
  destruct (Nat.eqb_spec y b); [congruence | apply IHl; exact fresh].
Qed.

(** Distinct blocks occur in a list at most as often as the list is long. *)
Lemma occurrences_sum_le (targets : list BlockId) (blocks : list BlockId) :
  NoDup blocks ->
  (sum_list (map (fun b => occurrences b targets) blocks)
   <= length targets)%nat.
Proof.
  intros distinct. induction targets as [|x targets IH]; simpl.
  - induction blocks as [|b blocks IHb]; simpl; [lia|].
    apply IHb. apply NoDup_cons in distinct. apply distinct.
  - assert (split_sum :
      (sum_list (map (fun b => (if Nat.eqb x b then 1 else 0)
                               + occurrences b targets) blocks)
       = occurrences x blocks
         + sum_list (map (fun b => occurrences b targets) blocks))%nat).
    { clear. induction blocks as [|b blocks IHb]; simpl; [reflexivity|].
      rewrite IHb. rewrite (Nat.eqb_sym b x). lia. }
    rewrite split_sum.
    pose proof (occurrences_le_one x blocks distinct). lia.
Qed.

Lemma visited_edges_le (F : SILFunction) (P : BlockId)
    (popped : list BlockId) :
  wellFormedCFG F -> NoDup popped ->
  (occurrences P (concat (map (predecessorsOf F) popped))
   <= length (successorsOf F P))%nat.
Proof.
  intros [_ [_ edges]] distinct.
  rewrite occurrences_concat, map_map.
  rewrite (map_ext _ (fun b => occurrences b (successorsOf F P)))
    by (intros b; apply edges).
  apply occurrences_sum_le. exact distinct.
Qed.

Lemma newBlockInfo_counter (F : SILFunction) (inv : Invariants)
    (block : SILBasicBlock) :
  numSuccsNotReachingReturn (newBlockInfo F block inv)
  = getNumSuccessors block.
Proof.
  unfold newBlockInfo.
  destruct (scanInstructions F inv (allInstructions block) _) as [bi'|] eqn:scan.
  - apply scanInstructions_returns in scan.
    destruct scan as [->|[[inst ->]|[-> _]]]; reflexivity.
  - destruct (isFunctionExiting _ || isProgramTerminating _); reflexivity.
Qed.

Lemma initBlockInfos_NoDup (F : SILFunction) (inv : Invariants)
    (blocks : list SILBasicBlock) :
  forall id infos workList infos' workList',
  NoDup workList -> (forall b, b ∈ workList -> (b < id)%nat) ->
  initBlockInfos F inv blocks id infos workList = (infos', workList') ->
  NoDup workList'.
Proof.
  induction blocks as [|block rest IH];
    intros id infos workList infos' workList' distinct below; simpl.
  - intros [= <- <-]. exact distinct.
  - apply IH.
    + destruct (reachesReturn (newBlockInfo F block inv)); [|exact distinct].
      apply NoDup_cons. split; [|exact distinct].
      intros member. apply below in member. lia.
    + intros b member.
      destruct (reachesReturn (newBlockInfo F block inv)).
      * apply elem_of_cons in member. destruct member as [->|member];
          [lia | apply below in member; lia].
      * apply below in member. lia.
Qed.

Lemma edgeAccounting_init (F : SILFunction) (inv : Invariants) :
  edgeAccounting F (initPropagation F inv).
Proof.
  exists [], []. repeat split.
  - simpl. unfold initPropagation.
    destruct (initBlockInfos F inv (fn_blocks F) 0%nat ∅ []) as [infos wl]
      eqn:run.
    simpl. eapply initBlockInfos_NoDup; [| |exact run].
    + apply NoDup_nil. exact I.
    + intros b member. apply elem_of_nil in member. contradiction.
  - intros b member. apply elem_of_nil in member. contradiction.
  - unfold initPropagation.
    destruct (initBlockInfos F inv (fn_blocks F) 0%nat ∅ []). reflexivity.
  - intros P bi found _ _. rewrite init_lookup in found. simpl.
    unfold successorsOf.
    destruct (fn_blocks F !! P) as [block|]; [|discriminate].
    injection found as <-. rewrite newBlockInfo_counter.
    unfold getNumSuccessors. lia.
Qed.

(** In a well-formed function a visit finds the summary of the predecessor
    and the counter above 0, and the bookkeeping goes on. *)
Lemma edgeAccounting_step (F : SILFunction) (inv : Invariants)
    (s : Propagation) :
  wellFormedCFG F ->
  propagationInvariant F inv s -> edgeAccounting F s ->
  propagateStep F s <> Abort
  /\ forall s', propagateStep F s = Next s' -> edgeAccounting F s'.
Proof.
  intros wf [listed evolved] [popped [visited [distinct [done [edges counters]]]]].
  unfold propagateStep.
  destruct (predsToVisit s) as [|pred rest] eqn:to_visit.
  { destruct (workList s) as [|block wl] eqn:list_eq; [split; discriminate|].
    split; [discriminate|]. intros s' [= <-].
    exists (popped ++ [block]), visited. simpl. repeat split.
    - rewrite <- app_assoc. exact distinct.
    - intros b member. apply elem_of_app in member.
      destruct member as [member|member]; [apply done; exact member|].
      apply list_elem_of_singleton in member. subst b.
      apply listed. apply list_elem_of_here.
    - rewrite map_app, concat_app, <- edges, app_nil_r. simpl.
      rewrite app_nil_r. reflexivity.
    - exact counters. }
  assert (is_edge : pred ∈ concat (map (predecessorsOf F) popped)).
  { rewrite <- edges. apply elem_of_app. right. apply list_elem_of_here. }
  assert (in_range : (pred < length (fn_blocks F))%nat).
  { destruct wf as [_ [range _]].
    apply elem_of_concat_map in is_edge. destruct is_edge as [b member].
    apply (range b). left. exact member. }
  assert (has_info : exists bi, blockInfos s !! pred = Some bi).
  { specialize (evolved pred). rewrite init_lookup in evolved.
    apply lookup_lt_is_Some_2 in in_range. destruct in_range as [block found].
    rewrite found in evolved. inversion evolved. eexists. reflexivity. }
  destruct has_info as [bi found].
  assert (room : reachesReturn bi = false -> recursiveCall bi = None ->
                 0 < numSuccsNotReachingReturn bi).
  { intros noreturn nocall.
    rewrite (counters pred bi found noreturn nocall).
    assert (NoDup popped) as distinct'
      by (apply NoDup_app in distinct; apply distinct).
    pose proof (visited_edges_le F pred popped wf distinct') as le.
    rewrite <- edges, occurrences_app in le. simpl in le.
    rewrite Nat.eqb_refl in le. lia. }
  destruct (visitPredecessor (blockInfos s) (workList s) pred)
    as [[infos' wl']|] eqn:visit.
  2:{ exfalso. unfold visitPredecessor in visit. rewrite found in visit.
      destruct (reachesReturn bi); simpl in visit; [discriminate|].
      destruct (bool_decide_reflect (recursiveCall bi <> None)) as [|nocall];
        [discriminate|].
      assert (recursiveCall bi = None) as nocall'
        by (destruct (recursiveCall bi); [exfalso; apply nocall|]; congruence).
      specialize (room eq_refl nocall').
      destruct (Z.ltb_spec 0 (numSuccsNotReachingReturn bi)); [|lia].
      simpl in visit.
      destruct (hasInvariantCondition bi && _); discriminate. }
  split; [discriminate|]. intros s' [= <-].
  apply visitPredecessor_cases in visit.
  destruct visit as [bi_ [found_ change]].
  rewrite found in found_. injection found_ as <-.
  exists popped, (visited ++ [pred]). simpl.
  assert (edges' : (visited ++ [pred]) ++ rest
                   = concat (map (predecessorsOf F) popped)).
  { rewrite <- app_assoc. exact edges. }
  destruct change as [[-> [-> skipped]]|[noreturn [nocall [positive change]]]].
  { repeat split; try assumption.
    intros P bi' found' noreturn nocall.
    rewrite occurrences_app. simpl.
    destruct (Nat.eqb_spec pred P) as [->|other].
    - rewrite found in found'. injection found' as <-.
      destruct skipped; congruence.
    - rewrite (counters P bi' found' noreturn nocall). lia. }
  simpl in change.
  destruct change as [[_ [_ [-> ->]]]|[_ [-> ->]]]; repeat split;
    try assumption.
  - intros b member. rewrite lookup_insert_ne; [apply done; exact member|].
    intros <-. apply done in member. destruct member as [bi' [found' reaches]].
    congruence.
  - intros P bi' found' noreturn' nocall'.
    rewrite occurrences_app. simpl.
    destruct (Nat.eqb_spec pred P) as [->|other].
    + rewrite lookup_insert_eq in found'. injection found' as <-. simpl.
      rewrite (counters P bi found noreturn nocall). lia.
    + rewrite lookup_insert_ne in found' by exact other.
      rewrite (counters P bi' found' noreturn' nocall'). lia.
  - apply NoDup_app in distinct.
    destruct distinct as [distinct_popped [apart distinct_list]].
    apply NoDup_app. repeat split; [exact distinct_popped| |].
    + intros b member on_list. apply elem_of_cons in on_list.
      destruct on_list as [->|on_list]; [|exact (apart b member on_list)].
      apply done in member. destruct member as [bi' [found' reaches]].
      congruence.
    + apply NoDup_cons. split; [|exact distinct_list].
      intros member. apply listed in member.
      destruct member as [bi' [found' reaches]]. congruence.
  - intros b member. destruct (decide (b = pred)) as [->|other].
    + rewrite lookup_insert_eq. eexists. split; reflexivity.
    + rewrite lookup_insert_ne by congruence. apply done. exact member.
  - intros P bi' found' noreturn' nocall'.
    rewrite occurrences_app. simpl.
    destruct (Nat.eqb_spec pred P) as [->|other].
    + rewrite lookup_insert_eq in found'. injection found' as <-.
      discriminate noreturn'.
    + rewrite lookup_insert_ne in found' by exact other.
      rewrite (counters P bi' found' noreturn' nocall'). lia.
Qed.

Lemma runLoop_safe {S : Type} (step : S -> Step S) (P : S -> Prop) :
  (forall s, P s ->
     step s <> Abort /\ forall s', step s = Next s' -> P s') ->
  forall fuel s, P s ->
  match runLoop step fuel s with
  | Returned s' => P s'
  | Aborted => False
  | OutOfFuel => True
  end.
Proof.
  intros safe. induction fuel as [|fuel IH]; intros s holds; simpl; [exact I|].
  destruct (safe s holds) as [goes preserved].
  destruct (step s) as [s'| |]; [|exact holds|contradiction].
  apply IH. apply preserved. reflexivity.
Qed.

Lemma propagation_safe (F : SILFunction) (inv : Invariants) :
  wellFormedCFG F ->
  exists s,
    runLoop (propagateStep F) (propagationFuel F) (initPropagation F inv)
    = Returned s
    /\ propagationInvariant F inv s.
Proof.
  intros wf.
  pose proof (runLoop_safe (propagateStep F)
                (fun s => propagationInvariant F inv s /\ edgeAccounting F s))
    as safe.
  specialize (safe
    (fun s '(conj holds accounted) =>
       let '(conj goes preserved) :=
         edgeAccounting_step F inv s wf holds accounted in
       conj goes
            (fun s' one =>
               conj (propagationInvariant_step F inv s s' holds one)
                    (preserved s' one)))
    (propagationFuel F) (initPropagation F inv)
    (conj (propagationInvariant_init F inv) (edgeAccounting_init F inv))).
  pose proof (propagation_terminates F inv) as ends.
  destruct (runLoop (propagateStep F) _ _) as [s| |];
    [|contradiction|contradiction].
  exists s. split; [reflexivity | apply safe].
Qed.

Lemma visitSuccessors_safe (F : SILFunction) (succs : list BlockId) :
  forall infos workList,
  (forall b, (b < length (fn_blocks F))%nat -> is_Some (infos !! b)) ->
  (forall b, b ∈ workList -> is_Some (infos !! b)) ->
  (forall b, b ∈ succs -> (b < length (fn_blocks F))%nat) ->
  exists infos' workList',
    visitSuccessors infos workList succs = Some (infos', workList')
    /\ (forall b, (b < length (fn_blocks F))%nat -> is_Some (infos' !! b))
    /\ (forall b, b ∈ workList' -> is_Some (infos' !! b)).
Proof.
  induction succs as [|succ rest IH]; intros infos workList known listed range;
    simpl.
  - exists infos, workList. repeat split; assumption.
  - destruct (known succ) as [succInfo found];
      [apply range, list_elem_of_here|].
    rewrite found.
    assert (range' : forall b, b ∈ rest -> (b < length (fn_blocks F))%nat).
    { intros b member. apply range. apply elem_of_cons. auto. }
    destruct (negb (reachesReturn succInfo)
              && negb (reachableFromEntry succInfo)).
    + apply IH; [| |exact range'].
      * intros b below. apply lookup_insert_is_Some'. right. apply known, below.
      * intros b member. apply lookup_insert_is_Some'.
        apply elem_of_cons in member. destruct member as [->|member];
          [left; reflexivity | right; apply listed, member].
    + apply IH; assumption.
Qed.

Lemma searchStep_safe (F : SILFunction) (s : Search) :
  wellFormedCFG F -> searchInvariant F s ->
  searchStep F s <> Abort
  /\ forall s', searchStep F s = Next s' -> searchInvariant F s'.
Proof.
  intros [_ [range _]] [known listed]. unfold searchStep.
  destruct (searchWorkList s) as [|block wl] eqn:list_eq;
    [split; discriminate|].
  destruct (listed block) as [blockInfo found]; [apply list_elem_of_here|].
  rewrite found.
  assert (listed' : forall b, b ∈ wl -> is_Some (searchInfos s !! b)).
  { intros b member. apply listed. apply elem_of_cons. auto. }
  destruct (recursiveCall blockInfo) as [call|].
  { split; [discriminate|]. intros s' [= <-]. split; assumption. }
  destruct (visitSuccessors_safe F (successorsOf F block) (searchInfos s) wl
              known listed')
    as [infos' [wl' [visit [known' listed'']]]].
  { intros b member. apply (range block). right. exact member. }
  rewrite visit. split; [discriminate|]. intros s' [= <-].
  split; assumption.
Qed.

(** X23: in a function whose edges are listed consistently no analysis
    attempt stops on the assertion of the propagation loop or on a block
    without a summary: every attempt returns a result. *)
Theorem analyzeAndDiagnose_returns (F : SILFunction) (inv : Invariants) :
  wellFormedCFG F ->
  exists result, snd (analyzeAndDiagnose F inv) = Returned result.
Proof.
  intros wf.
  destruct (propagation_safe F inv wf) as [s [run [_ evolved]]].
  assert (known : forall b, (b < length (fn_blocks F))%nat ->
                            is_Some (blockInfos s !! b)).
  { intros b below. specialize (evolved b). rewrite init_lookup in evolved.
    apply lookup_lt_is_Some_2 in below. destruct below as [block found].
    rewrite found in evolved. inversion evolved. eexists. reflexivity. }
  assert (entry : is_Some (blockInfos s !! 0%nat)).
  { apply known. destruct wf as [nonempty _].
    destruct (fn_blocks F); [contradiction | simpl; lia]. }
  destruct entry as [entryInfo entry].
  unfold analyzeAndDiagnose, isEntryReachableFromReturn.
  rewrite run, entry.
  destruct (reachesReturn entryInfo); [exists false; reflexivity|].
  unfold findRecursiveCallsAndDiagnose. rewrite entry. cbv zeta.
  pose proof (runLoop_safe (searchStep F) (searchInvariant F)
                (fun s' => searchStep_safe F s' wf)
                (searchFuel (blockInfos s))
                (mkSearch
                   (<[0%nat := setReachableFromEntry entryInfo]> (blockInfos s))
                   [0%nat] [] false)) as safe.
  pose proof (runLoop_returns (searchStep F) searchMeasure
                (searchStep_decreases F) (searchFuel (blockInfos s))
                (mkSearch
                   (<[0%nat := setReachableFromEntry entryInfo]> (blockInfos s))
                   [0%nat] [] false)) as ends.
  destruct (runLoop (searchStep F) (searchFuel (blockInfos s)) _)
    as [final| |].
  - eexists. reflexivity.
  - exfalso. apply safe. split; simpl.
    + intros b below. apply lookup_insert_is_Some'. right. apply known, below.
    + intros b member. apply list_elem_of_singleton in member. subst b.
      apply lookup_insert_is_Some'. left. reflexivity.
  - exfalso. apply ends; [|reflexivity].
    unfold searchMeasure, searchFuel. cbn [searchWorkList searchInfos length].
    pose proof (pending_le_size reachableFromEntry
                  (<[0%nat := setReachableFromEntry entryInfo]> (blockInfos s)))
      as le.
    rewrite map_size_insert_Some in le by (eexists; exact entry). lia.
Qed.

Lemma guarded_well_formed : wellFormedCFG Examples.guarded.
Proof.
  split; [discriminate|]. split.
  - intros [|[|[|b]]] x [member|member]; simpl in member;
      repeat (apply elem_of_cons in member;
              destruct member as [->|member]; [simpl; lia|]);
      apply elem_of_nil in member; contradiction.
  - intros [|[|[|pred]]] [|[|[|block]]]; reflexivity.
Qed.

(** ** The driver *)

Lemma setInsert_candidate (bound : nat) (inv : Invariants)
    (set : list Invariants) :
  candidateSet bound set -> candidateSet (S bound) (setInsert inv set).
Proof.
  intros [nodup [none size]]. unfold setInsert.
  destruct (decide (inv ∈ set)) as [old|new].
  - repeat split; [assumption..|lia].
  - repeat split.
    + apply NoDup_app. repeat split; [assumption| |apply NoDup_singleton].
      intros x in_set in_new. apply list_elem_of_singleton in in_new.
      congruence.
    + apply elem_of_app. left. assumption.
    + rewrite length_app. simpl. lia.
Qed.

Lemma collectFromInstructions_candidate (F : SILFunction)
    (insts : list SILInstruction) (found : bool) (set : list Invariants) :
  candidateSet 3 set ->
  match collectFromInstructions F insts found set with
  | inl set' => candidateSet 4 set'
  | inr (_, set') => candidateSet 3 set'
  end.
Proof.
  revert found set.
  induction insts as [|inst rest IH]; intros found set good;
    cbn [collectFromInstructions]; [exact good|].
  destruct (asFullApplySite inst) as [applySite|]; [|apply IH; exact good].
  destruct (isRecursiveCall _ _ applySite); [|apply IH; exact good].
  pose proof (setInsert_candidate 3 (fromForwardingArguments F applySite) set
                good) as grown.
  destruct (Nat.leb_spec 4 (length (setInsert (fromForwardingArguments F applySite)
                                              set))) as [full|room].
  - exact grown.
  - apply IH. destruct grown as [nodup [none _]]. repeat split;
      [assumption..|lia].
Qed.

Lemma collectFromBlocks_candidate (F : SILFunction)
    (blocks : list SILBasicBlock) (found : bool) (set : list Invariants) :
  candidateSet 3 set ->
  match collectFromBlocks F blocks found set with
  | inl set' => candidateSet 4 set'
  | inr (_, set') => candidateSet 3 set'
  end.
Proof.
  revert found set.
  induction blocks as [|block rest IH]; intros found set good; simpl;
    [exact good|].
  pose proof (collectFromInstructions_candidate F (allInstructions block)
                found set good) as scanned.
  destruct (collectFromInstructions F (allInstructions block) found set)
    as [set'|[found' set']]; [exact scanned | apply IH; exact scanned].
Qed.

Lemma collectInvariantsToTry_candidate (F : SILFunction) :
  candidateSet 4 (snd (collectInvariantsToTry F)).
Proof.
  unfold collectInvariantsToTry.
  assert (start : candidateSet 3 (setInsert noInvariants [])).
  { repeat split; simpl; [apply NoDup_singleton | apply list_elem_of_here | lia]. }
  pose proof (collectFromBlocks_candidate F (fn_blocks F) false _ start)
    as collected.
  destruct (collectFromBlocks F (fn_blocks F) false _) as [set|[found set]];
    simpl; [exact collected|].
  destruct collected as [nodup [none size]]. repeat split; [assumption..|lia].
Qed.

Lemma attemptInvariants_attempt (F : SILFunction) (inv : Invariants) :
  attemptInvariants (attempt F inv) = inv.
Proof. unfold attempt. destruct (analyzeAndDiagnose F inv). reflexivity. Qed.

(** The attempts follow the schedule, and only the last one can have
    returned anything but [false]. *)
Lemma tryInvariants_schedule (F : SILFunction) (set : list Invariants) :
  map attemptInvariants (tryInvariants F set) `prefix_of` scheduledAttempts set
  /\ (forall i a, tryInvariants F set !! i = Some a ->
        (S i < length (tryInvariants F set))%nat ->
        attemptResult a = Returned false).
Proof.
  induction set as [|inv rest [IHprefix IHlast]]; cbn [tryInvariants].
  - split; [apply prefix_nil | intros i a found; discriminate found].
  - cbn [scheduledAttempts flat_map app].
    fold (scheduledAttempts rest).
    destruct (attemptResult (attempt F inv)) as [[|]| |] eqn:plain;
      cbn [map]; rewrite attemptInvariants_attempt;
      try (split; [apply prefix_cons, prefix_nil
                  | intros [|i] a found; simpl; intros more; lia]).
    destruct (attemptResult (attempt F (withInvariantMemory inv)))
      as [[|]| |] eqn:memory;
      cbn [map]; rewrite attemptInvariants_attempt;
      try (split; [apply prefix_cons, prefix_cons, prefix_nil
                  | intros [|[|i]] a found; simpl; intros more;
                    try lia; injection found as <-; exact plain]).
    split; [apply prefix_cons, prefix_cons, IHprefix|].
    intros [|[|i]] a found more.
    + injection found as <-. exact plain.
    + injection found as <-. exact memory.
    + apply (IHlast i a found). simpl in more. lia.
Qed.

Lemma scheduledAttempts_length (set : list Invariants) :
  length (scheduledAttempts set) = (2 * length set)%nat.
Proof. induction set as [|inv rest IH]; simpl; [reflexivity | rewrite IH; lia]. Qed.

(** C7: the candidate set has no duplicates, holds the empty assumption and
    at most 4 entries; [run] tries the candidates in order, each plain and
    then with memory invariance, goes on only after an attempt that reported
    nothing, and so makes at most 8 attempts. *)
Theorem at_most_eight_attempts (F : SILFunction) :
  let set := snd (collectInvariantsToTry F) in
  NoDup set
  /\ noInvariants ∈ set
  /\ (length set <= 4)%nat
  /\ map attemptInvariants (run F) `prefix_of` scheduledAttempts set
  /\ (forall i a, run F !! i = Some a -> (S i < length (run F))%nat ->
        attemptResult a = Returned false)
  /\ (length (run F) <= 8)%nat.
Proof.
  intros set.
  destruct (collectInvariantsToTry_candidate F) as [nodup [none size]].
  fold set in nodup, none, size.
  assert (scheduled :
    map attemptInvariants (run F) `prefix_of` scheduledAttempts set
    /\ (forall i a, run F !! i = Some a -> (S i < length (run F))%nat ->
          attemptResult a = Returned false)).
  { unfold run, set.
    destruct (wasDeserializedCanonical F).
    { split; [apply prefix_nil | intros i a found; discriminate found]. }
    destruct (collectInvariantsToTry F) as [found candidates]. simpl.
    destruct found; simpl.
    - apply tryInvariants_schedule.
    - split; [apply prefix_nil | intros i a found; discriminate found]. }
  destruct scheduled as [follows last].
  repeat split; try assumption.
  apply prefix_length in follows.
  rewrite length_map, scheduledAttempts_length in follows. lia.
Qed.

Lemma collectFromInstructions_none (F : SILFunction)
    (insts : list SILInstruction) (found : bool) (set : list Invariants) :
  (forall inst applySite, inst ∈ insts ->
     asFullApplySite inst = Some applySite ->
     isRecursiveCall (fn_getModule F) (fn_id F) applySite = false) ->
  collectFromInstructions F insts found set = inr (found, set).
Proof.
  induction insts as [|inst rest IH]; intros none; simpl; [reflexivity|].
  assert (IH' : collectFromInstructions F rest found set = inr (found, set)).
  { apply IH. intros i a member. apply none. apply elem_of_cons. auto. }
  destruct (asFullApplySite inst) as [applySite|] eqn:is_apply; [|exact IH'].
  rewrite (none inst applySite); [exact IH' | apply list_elem_of_here
                                  | exact is_apply].
Qed.

Lemma collectFromBlocks_none (F : SILFunction) (blocks : list SILBasicBlock)
    (found : bool) (set : list Invariants) :
  (forall block inst applySite, block ∈ blocks ->
     inst ∈ allInstructions block ->
     asFullApplySite inst = Some applySite ->
     isRecursiveCall (fn_getModule F) (fn_id F) applySite = false) ->
  collectFromBlocks F blocks found set = inr (found, set).
Proof.
  induction blocks as [|block rest IH]; intros none; simpl; [reflexivity|].
  rewrite collectFromInstructions_none.
  - apply IH. intros b i a member. apply none. apply elem_of_cons. auto.
  - intros i a. apply none. apply list_elem_of_here.
Qed.

(** C8: for a function none of whose instructions is a recursive call,
    [run] makes no analysis attempt (so no block summary is built and no
    propagation runs) and issues no diagnostic. *)
Theorem no_recursive_call_no_analysis (F : SILFunction) :
  noRecursiveCall F ->
  fst (collectInvariantsToTry F) = false
  /\ run F = []
  /\ diagnosticsOf (run F) = [].
Proof.
  intros none.
  assert (collected : collectInvariantsToTry F
                      = (false, setInsert noInvariants [])).
  { unfold collectInvariantsToTry.
    rewrite (collectFromBlocks_none F (fn_blocks F) false _ none).
    reflexivity. }
  assert (nothing : run F = []).
  { unfold run. rewrite collected.
    destruct (wasDeserializedCanonical F); reflexivity. }
  rewrite collected, nothing. repeat split.
Qed.

Lemma leaf_has_no_recursive_call : noRecursiveCall Examples.leaf.
Proof.
  intros block inst applySite in_blocks in_block is_apply.
  apply list_elem_of_singleton in in_blocks. subst block.
  unfold allInstructions in in_block. simpl in in_block.
  repeat (apply elem_of_cons in in_block;
          destruct in_block as [->|in_block]; [discriminate is_apply|]).
  apply elem_of_nil in in_block. contradiction.
Defined.

Lemma no_recursive_call_no_analysis_witness :
  fst (collectInvariantsToTry Examples.leaf) = false
  /\ run Examples.leaf = []
  /\ diagnosticsOf (run Examples.leaf) = [].
Proof.
  exact (no_recursive_call_no_analysis Examples.leaf
           leaf_has_no_recursive_call).
Defined.

(** ** The use-def walk *)

Lemma unvisited_shrinks (nodes visited : gset nat) (node : nat) :
  node ∈ nodes -> node ∉ visited ->
  (size (nodes ∖ ({[node]} ∪ visited)) < size (nodes ∖ visited))%nat.
Proof.
  intros known fresh. apply subset_size. set_solver.
Qed.

Lemma unvisited_monotone (nodes visited visited' : gset nat) :
  visited ⊆ visited' ->
  (size (nodes ∖ visited') <= size (nodes ∖ visited))%nat.
Proof. intros grows. apply subseteq_size. set_solver. Qed.

(** A walk that is allowed more depth than there are unvisited nodes
    returns, with a visited set that has only grown. *)
Lemma isInvariantValue_returns (F : SILFunction) (inv : Invariants)
    (depth : nat) :
  forall value visited,
  (size (dom (fn_nodes F) ∖ visited) < depth)%nat ->
  exists result visited',
    isInvariantValue F depth inv value visited = Some (result, visited')
    /\ visited ⊆ visited'.
Proof.
  induction depth as [|depth IH]; intros value visited enough; [lia|].
  cbn [isInvariantValue].
  destruct (decide (value ∈ visited)) as [seen|fresh].
  { exists true, visited. split; [reflexivity | set_solver]. }
  destruct (fn_nodes F !! value) as [[mayRead operands|index|]|] eqn:node;
    try (eexists _, _; split; [reflexivity | set_solver]).
  destruct (negb (isMemoryInvariant inv) && mayRead).
  { eexists _, _. split; [reflexivity | set_solver]. }
  assert (known : value ∈ dom (fn_nodes F)).
  { apply elem_of_dom. rewrite node. eexists. reflexivity. }
  pose proof (unvisited_shrinks _ _ _ known fresh) as shrunk.
  assert (walk : forall ops vis,
    {[value]} ∪ visited ⊆ vis ->
    exists result visited',
      (fix allOperands (ops : list nat) (visited : gset nat)
         : option (bool * gset nat) :=
         match ops with
         | [] => Some (true, visited)
         | op :: ops' =>
           match isInvariantValue F depth inv op visited with
           | None => None
           | Some (false, visited') => Some (false, visited')
           | Some (true, visited') => allOperands ops' visited'
           end
         end) ops vis = Some (result, visited')
      /\ vis ⊆ visited').
  { induction ops as [|op ops IHops]; intros vis above.
    - exists true, vis. split; [reflexivity | set_solver].
    - pose proof (unvisited_monotone (dom (fn_nodes F)) _ _ above) as le.
      destruct (IH op vis) as [result [vis' [run grows]]]; [lia|].
      rewrite run. destruct result.
      + destruct (IHops vis') as [result [vis'' [run' grows']]];
          [set_solver|].
        exists result, vis''. split; [exact run' | set_solver].
      + exists false, vis'. split; [reflexivity | exact grows]. }
  destruct (walk operands ({[value]} ∪ visited)) as [result [vis' [run grows]]];
    [set_solver|].
  exists result, vis'. split; [exact run | set_solver].
Qed.

(** More depth does not change what a walk returns. *)
Lemma isInvariantValue_more_depth (F : SILFunction) (inv : Invariants)
    (depth : nat) :
  forall depth' value visited result,
  (depth <= depth')%nat ->
  isInvariantValue F depth inv value visited = Some result ->
  isInvariantValue F depth' inv value visited = Some result.
Proof.
  induction depth as [|depth IH]; intros depth' value visited result le;
    [discriminate|].
  destruct depth' as [|depth']; [lia|].
  cbn [isInvariantValue].
  destruct (decide (value ∈ visited)); [trivial|].
  destruct (fn_nodes F !! value) as [[mayRead operands|index|]|]; trivial.
  destruct (negb (isMemoryInvariant inv) && mayRead); [trivial|].
  generalize ({[value]} ∪ visited).
  induction operands as [|op ops IHops]; intros vis; [trivial|].
  destruct (isInvariantValue F depth inv op vis) as [[[|] vis']|] eqn:run;
    [| |discriminate].
  - rewrite (IH depth' op vis _ ltac:(lia) run). apply IHops.
  - rewrite (IH depth' op vis _ ltac:(lia) run). trivial.
Qed.

(** C9: the walk returns for every value, assumption and visited set, also
    on values that use each other in a cycle: the depth [walkDepth] is
    always enough, what is returned does not depend on the depth allowed,
    and a value already in the visited set is invariant without any
    recursion. *)
Theorem isInvariantValue_terminates (F : SILFunction) (inv : Invariants)
    (value : SILValue) (visited : gset SILValue) :
  (exists result visited',
     isInvariantValue F (walkDepth F) inv value visited
     = Some (result, visited')
     /\ visited ⊆ visited'
     /\ forall depth other,
          isInvariantValue F depth inv value visited = Some other ->
          other = (result, visited'))
  /\ (forall depth,
        value ∈ visited ->
        isInvariantValue F (S depth) inv value visited = Some (true, visited)).
Proof.
  split.
  - destruct (isInvariantValue_returns F inv (walkDepth F) value visited)
      as [result [visited' [run grows]]].
    { unfold walkDepth.
      pose proof (unvisited_monotone (dom (fn_nodes F)) ∅ visited) as le.
      replace (dom (fn_nodes F) ∖ ∅) with (dom (fn_nodes F)) in le
        by set_solver.
      assert (∅ ⊆ visited) as sub by set_solver. specialize (le sub). lia. }
    exists result, visited'. repeat split; [exact run | exact grows|].
    intros depth other run'.
    pose proof (isInvariantValue_more_depth F inv _ (Nat.max depth (walkDepth F))
                  value visited _ (Nat.le_max_l _ _) run') as up'.
    pose proof (isInvariantValue_more_depth F inv _ (Nat.max depth (walkDepth F))
                  value visited _ (Nat.le_max_r _ _) run) as up.
    congruence.
  - intros depth seen. cbn [isInvariantValue].
    destruct (decide (value ∈ visited)); [reflexivity | contradiction].
Qed.

(** The walk over two instructions that use each other. *)
Example cyclic_walk_returns : Examples.cyclicWalk = Some true.
Proof. vm_compute. reflexivity. Qed.

(** ** Fingerprints *)

Lemma hexDigits_length (digits : nat) (N : Z) :
  length (Fingerprint.hexDigits digits N) = digits.
Proof. induction digits as [|digits IH]; simpl; [reflexivity | rewrite IH; reflexivity]. Qed.

Lemma nibble_cases (d : Z) :
  0 <= d < 16 ->
  d = 0 \/ d = 1 \/ d = 2 \/ d = 3 \/ d = 4 \/ d = 5 \/ d = 6 \/ d = 7
  \/ d = 8 \/ d = 9 \/ d = 10 \/ d = 11 \/ d = 12 \/ d = 13 \/ d = 14
  \/ d = 15.
Proof. lia. Qed.

(** A digit the formatter writes is read back as itself, is lower case, and
    is neither white space, nor a sign, nor the [x] of a prefix. *)
Lemma hexdigit_read (d : Z) :
  0 <= d < 16 ->
  let c := Fingerprint.hexdigit d in
  Fingerprint.hexValue c = Some d
  /\ Fingerprint.isLowerHexChar c = true
  /\ Fingerprint.isSpace c = false
  /\ Ascii.eqb c "+" = false
  /\ Ascii.eqb c "-" = false
  /\ Ascii.eqb c "x" = false
  /\ Ascii.eqb c "X" = false.
Proof.
  intros range. apply nibble_cases in range.
  repeat (destruct range as [->|range]; [vm_compute; repeat split|]).
  subst d. vm_compute. repeat split.
Qed.

Lemma nibble_range (N : Z) (k : nat) : 0 <= (N / 16 ^ Z.of_nat k) mod 16 < 16.
Proof. apply Z.mod_pos_bound. lia. Qed.

Lemma readHexDigits_hexDigits (digits : nat) (N acc : Z) (any : bool) :
  Fingerprint.readHexDigits (Fingerprint.hexDigits digits N) acc any
  = (acc * 16 ^ Z.of_nat digits + N mod 16 ^ Z.of_nat digits,
     any || negb (Nat.eqb digits 0)).
Proof.
  revert acc any. induction digits as [|digits IH]; intros acc any.
  - simpl. rewrite Z.mod_1_r, orb_false_r. f_equal. lia.
  - cbn [Fingerprint.hexDigits Fingerprint.readHexDigits].
    destruct (hexdigit_read _ (nibble_range N digits)) as [-> _].
    rewrite IH. simpl Nat.eqb. rewrite orb_true_r. f_equal.
    rewrite Nat2Z.inj_succ, Z.pow_succ_r by lia.
    rewrite (Z.mul_comm 16), Z.rem_mul_r by lia. ring.
Qed.

Lemma format_hex_16 (N : Z) :
  0 <= N < 2 ^ 64 ->
  Fingerprint.format_hex_no_prefix N 16 = Fingerprint.hexDigits 16 N.
Proof.
  intros range. unfold Fingerprint.format_hex_no_prefix.
  destruct (Z.eqb_spec N 0) as [->|nonzero]; [reflexivity|].
  assert (Z.log2 N < 64) by (apply Z.log2_lt_pow2; lia).
  pose proof (Z.log2_nonneg N).
  assert ((Z.log2 N + 4) / 4 < 17) by (apply Z.div_lt_upper_bound; lia).
  f_equal. lia.
Qed.

Lemma extractHex_hexDigits (N : Z) :
  0 <= N < 2 ^ 64 ->
  Fingerprint.extractHex (Fingerprint.hexDigits 16 N) = N.
Proof.
  intros range. unfold Fingerprint.extractHex.
  pose proof (readHexDigits_hexDigits 16 N 0 false) as read.
  remember (Fingerprint.hexDigits 16 N) as digits eqn:digits_eq.
  assert (shape : exists rest,
    digits = Fingerprint.hexdigit ((N / 16 ^ Z.of_nat 15) mod 16)
             :: Fingerprint.hexdigit ((N / 16 ^ Z.of_nat 14) mod 16) :: rest).
  { rewrite digits_eq. eexists. reflexivity. }
  destruct shape as [rest shape].
  destruct (hexdigit_read _ (nibble_range N 15))
    as [_ [_ [nospace [noplus [nominus _]]]]].
  destruct (hexdigit_read _ (nibble_range N 14)) as [_ [_ [_ [_ [_ [nox noX]]]]]].
  cbv zeta in *.
  rewrite shape in *. cbn [Fingerprint.skipSpace].
  rewrite nospace, noplus, nominus, nox, noX, andb_false_r, read.
  simpl negb. cbv iota.
  rewrite Z.mod_small by (simpl; lia).
  unfold Fingerprint.uint64_max.
  destruct (Z.ltb_spec (2 ^ 64 - 1) (0 * 16 ^ Z.of_nat 16 + N)); [lia|].
  lia.
Qed.

Lemma forall_hexDigits_lower (digits : nat) (N : Z) :
  Forall (fun c => Fingerprint.isLowerHexChar c = true)
         (Fingerprint.hexDigits digits N).
Proof.
  induction digits as [|digits IH]; simpl; constructor; [|exact IH].
  apply (hexdigit_read _ (nibble_range N digits)).
Qed.

(** C10: for a fingerprint of two 64-bit words, [getRawValue] is 32 lower
    case hexadecimal digits, and [fromString] of it returns the
    fingerprint. *)
Theorem fingerprint_round_trip (fp : Fingerprint.Core) :
  0 <= Fingerprint.first fp < 2 ^ 64 ->
  0 <= Fingerprint.second fp < 2 ^ 64 ->
  length (Fingerprint.getRawValue fp) = 32%nat
  /\ Forall (fun c => Fingerprint.isLowerHexChar c = true)
            (Fingerprint.getRawValue fp)
  /\ Fingerprint.fromString (Fingerprint.getRawValue fp) = Returned (Some fp).
Proof.
  intros range1 range2. destruct fp as [w1 w2]. simpl in range1, range2.
  assert (raw : Fingerprint.getRawValue (Fingerprint.mkCore w1 w2)
                = Fingerprint.hexDigits 16 w1 ++ Fingerprint.hexDigits 16 w2).
  { unfold Fingerprint.getRawValue. simpl.
    rewrite !format_hex_16 by assumption. reflexivity. }
  assert (size : length (Fingerprint.hexDigits 16 w1
                         ++ Fingerprint.hexDigits 16 w2) = 32%nat).
  { rewrite length_app, !hexDigits_length. reflexivity. }
  rewrite raw.
  split; [exact size|].
  split; [apply Forall_app; split; apply forall_hexDigits_lower|].
  unfold Fingerprint.fromString. rewrite size.
  change (negb (Nat.eqb 32 Fingerprint.DIGEST_LENGTH)) with false. cbv iota.
  change (Fingerprint.DIGEST_LENGTH / 2)%nat with 16%nat.
  assert (front : Fingerprint.drop_back 16
                    (Fingerprint.hexDigits 16 w1 ++ Fingerprint.hexDigits 16 w2)
                  = Fingerprint.hexDigits 16 w1).
  { unfold Fingerprint.drop_back. rewrite size.
    change (32 - 16)%nat with 16%nat.
    apply take_app_length'. symmetry. apply hexDigits_length. }
  assert (back : Fingerprint.drop_front 16
                   (Fingerprint.hexDigits 16 w1 ++ Fingerprint.hexDigits 16 w2)
                 = Fingerprint.hexDigits 16 w2).
  { unfold Fingerprint.drop_front.
    apply drop_app_length'. symmetry. apply hexDigits_length. }
  rewrite front, back, !extractHex_hexDigits by assumption.
  unfold Fingerprint.string_eqb.
  rewrite bool_decide_eq_true_2 by (symmetry; exact raw). reflexivity.
Qed.

Lemma fingerprint_round_trip_witness :
  let fp := Fingerprint.mkCore 255 (2 ^ 64 - 1) in
  length (Fingerprint.getRawValue fp) = 32%nat
  /\ Forall (fun c => Fingerprint.isLowerHexChar c = true)
            (Fingerprint.getRawValue fp)
  /\ Fingerprint.fromString (Fingerprint.getRawValue fp) = Returned (Some fp).
Proof.
  apply (fingerprint_round_trip (Fingerprint.mkCore 255 (2 ^ 64 - 1)));
    simpl; lia.
Defined.

(** ** The scenarios of the specification *)

(** An unconditional self-call is reported under the empty assumption. *)
Example report_unconditional :
  Examples.report Examples.unconditional = [(0, [42%nat], Returned true)].
Proof. vm_compute. reflexivity. Qed.

(** A guard on a forwarded argument: nothing under the empty assumption,
    with or without memory invariance; one report once argument 0 is
    assumed invariant. *)
Example report_guarded :
  Examples.report Examples.guarded
  = [(0, [], Returned false); (1, [], Returned false);
     (2, [42%nat], Returned true)].
Proof. vm_compute. reflexivity. Qed.

(** Recursion on both branches without forwarding: both calls are reported
    under the empty assumption. *)
Example report_decreasing :
  Examples.report Examples.decreasing
  = [(0, [43%nat; 42%nat], Returned true)].
Proof. vm_compute. reflexivity. Qed.

(** A guard that reads memory only: reported once memory invariance is
    assumed. *)
Example report_available :
  Examples.report Examples.available
  = [(0, [], Returned false); (1, [42%nat], Returned true)].
Proof. vm_compute. reflexivity. Qed.

(** * Further properties *)

(** ** The call classifier and the assumptions *)

(** X1: a call is classified as recursive only when the function it
    resolves to is the enclosing one: the directly referenced function, or,
    without one, the resolved class method or the witness found in the
    table.  A super-method, ObjC-super-method or ObjC-method callee is never
    recursive. *)
Theorem isRecursiveCall_sound (module : SILModule)
    (parentFunc : SILFunctionId) (applySite : FullApplySite) :
  isRecursiveCall module parentFunc applySite = true ->
  getReferencedFunctionOrNull applySite = Some parentFunc
  \/ (getReferencedFunctionOrNull applySite = None
      /\ resolvedTarget module (getCallee applySite) = Some parentFunc
      /\ getCallee applySite <> SuperMethodInst
      /\ getCallee applySite <> ObjCSuperMethodInst
      /\ getCallee applySite <> ObjCMethodInst).
Proof.
  unfold isRecursiveCall.
  destruct (getReferencedFunctionOrNull applySite) as [calledFn|].
  { intros same. apply Nat.eqb_eq in same. left. congruence. }
  intros recursive. right. split; [reflexivity|].
  destruct (getCallee applySite) as [ | | |CMI|WMI| ]; try discriminate.
  - split; [|repeat split; discriminate]. simpl.
    destruct (match cmi_classDecl CMI with Some _ => _ | None => _ end);
      [discriminate|].
    destruct (negb _); [discriminate|].
    destruct (isOverridden _ _); [discriminate|].
    apply sameFunction_true. exact recursive.
  - split; [|repeat split; discriminate].
    apply sameFunction_true. exact recursive.
Qed.

Lemma isRecursiveCall_sound_witness :
  getReferencedFunctionOrNull Examples.classCall = Some 7%nat
  \/ (getReferencedFunctionOrNull Examples.classCall = None
      /\ resolvedTarget Examples.module1 (getCallee Examples.classCall)
         = Some 7%nat
      /\ getCallee Examples.classCall <> SuperMethodInst
      /\ getCallee Examples.classCall <> ObjCSuperMethodInst
      /\ getCallee Examples.classCall <> ObjCMethodInst).
Proof.
  exact (isRecursiveCall_sound Examples.module1 7%nat Examples.classCall
           eq_refl).
Defined.

Lemma isBitSet_testbit (mask bitNr : Z) :
  0 <= bitNr -> isBitSet (mkInvariants mask) bitNr = Z.testbit mask bitNr.
Proof.
  intros nonneg. destruct (Z.testbit mask bitNr) eqn:bit.
  - unfold isBitSet. simpl. apply negb_true_iff, Z.eqb_neq. intros zero.
    assert (Z.testbit (Z.land mask (Z.shiftl 1 bitNr)) bitNr = true) as set.
    { rewrite Z.land_spec, bit, Z.shiftl_1_l, Z.pow2_bits_true by lia.
      reflexivity. }
    rewrite zero, Z.bits_0 in set. discriminate.
  - apply isBitSet_high; assumption.
Qed.

Lemma testbit_one (n : Z) : 0 <= n -> Z.testbit 1 n = (n =? 0).
Proof.
  intros nonneg. change 1 with (2 ^ 0). rewrite Z.pow2_bits_eqb by lia.
  apply Z.eqb_sym.
Qed.

Lemma withInvariantMemory_argument (inv : Invariants) (argIdx : Z) :
  0 <= argIdx ->
  isArgumentInvariant (withInvariantMemory inv) argIdx
  = isArgumentInvariant inv argIdx.
Proof.
  intros nonneg. destruct inv as [mask].
  unfold isArgumentInvariant, withInvariantMemory, firstArgBit,
    invariantMemoryBit. simpl bitMask.
  rewrite !isBitSet_testbit by lia.
  rewrite Z.lor_spec. change (Z.shiftl 1 0) with 1.
  rewrite testbit_one by lia.
  destruct (Z.eqb_spec (argIdx + 1) 0); [lia|].
  rewrite orb_false_r. reflexivity.
Qed.

(** X2: [withInvariantMemory] adds memory invariance and nothing else: the
    result assumes invariant memory, assumes the same arguments invariant
    as before, and applying it twice is applying it once. *)
Theorem withInvariantMemory_adds_memory_only (inv : Invariants) (argIdx : Z) :
  0 <= argIdx ->
  isMemoryInvariant (withInvariantMemory inv) = true
  /\ isArgumentInvariant (withInvariantMemory inv) argIdx
     = isArgumentInvariant inv argIdx
  /\ withInvariantMemory (withInvariantMemory inv) = withInvariantMemory inv.
Proof.
  intros nonneg. split; [|split].
  - destruct inv as [mask].
    unfold isMemoryInvariant, withInvariantMemory, invariantMemoryBit.
    simpl bitMask. rewrite isBitSet_testbit by lia.
    rewrite Z.lor_spec. change (Z.shiftl 1 0) with 1.
    rewrite testbit_one by lia. apply orb_true_r.
  - apply withInvariantMemory_argument. exact nonneg.
  - unfold withInvariantMemory. simpl. f_equal.
    rewrite <- Z.lor_assoc, Z.lor_diag. reflexivity.
Qed.

Lemma withInvariantMemory_adds_memory_only_witness :
  isMemoryInvariant (withInvariantMemory (mkInvariants 6)) = true
  /\ isArgumentInvariant (withInvariantMemory (mkInvariants 6)) 1
     = isArgumentInvariant (mkInvariants 6) 1
  /\ withInvariantMemory (withInvariantMemory (mkInvariants 6))
     = withInvariantMemory (mkInvariants 6).
Proof.
  apply (withInvariantMemory_adds_memory_only (mkInvariants 6) 1). lia.
Defined.

(** The bits [fromForwardingArguments] leaves set, for a call whose
    arguments can be counted in an [unsigned]. *)
Lemma forwardingBits_testbit (F : SILFunction) (args : list SILValue) :
  forall position mask n,
  0 <= n ->
  Z.of_nat position + Z.of_nat (length args) <= 2 ^ 32 ->
  Z.testbit (forwardingBits F args position mask) n = true <->
  Z.testbit mask n = true
  \/ exists k value,
       args !! k = Some value
       /\ n = Z.of_nat (position + k) + 1
       /\ Z.of_nat (position + k) <= 16
       /\ isIncomingArg (fn_getArguments F) (Z.of_nat (position + k))
                        (stripAccessMarkers F value) = true.
Proof.
  induction args as [|value rest IH]; intros position mask n nonneg fits.
  - simpl. split; [auto|].
    intros [set|[k [v [found _]]]]; [exact set | discriminate found].
  - simpl length in fits. cbn [forwardingBits].
    rewrite IH by lia.
    assert (argIndex position = Z.of_nat position) as ->.
    { unfold argIndex. apply Z.mod_small. lia. }
    unfold maxArgIndex, firstArgBit.
    split.
    + intros [set|[k [v [found [at_n [small same]]]]]].
      * destruct (Z.leb_spec (Z.of_nat position) 16) as [small|];
          [|left; exact set].
        destruct (isIncomingArg _ _ _) eqn:same; [|left; exact set].
        simpl in set.
        rewrite Z.lor_spec, Z.shiftl_1_l, Z.pow2_bits_eqb in set by lia.
        apply orb_true_iff in set. destruct set as [set|here];
          [left; exact set|].
        apply Z.eqb_eq in here. right. exists 0%nat, value.
        rewrite Nat.add_0_r. repeat split; [lia | exact small | exact same].
      * right. exists (S k), v.
        replace (position + S k)%nat with (S position + k)%nat by lia.
        repeat split; assumption.
    + intros [set|[[|k] [v [found [at_n [small same]]]]]].
      * left. destruct (_ && _); [|exact set].
        rewrite Z.lor_spec, set. reflexivity.
      * left. injection found as <-. rewrite Nat.add_0_r in *.
        destruct (Z.leb_spec (Z.of_nat position) 16); [|lia].
        rewrite same. simpl.
        rewrite Z.lor_spec, Z.shiftl_1_l, Z.pow2_bits_eqb by lia.
        destruct (Z.eqb_spec (Z.of_nat position + 1) n); [|lia].
        apply orb_true_r.
      * right. exists k, v.
        replace (S position + k)%nat with (position + S k)%nat by lia.
        repeat split; assumption.
Qed.

(** X3: for a call with at most [2^32] arguments, [fromForwardingArguments]
    marks exactly the positions up to 16 at which the call passes the
    function's own argument of that position (access markers apart), and
    never assumes invariant memory. *)
Theorem fromForwardingArguments_marks_forwarded (F : SILFunction)
    (recursiveApply : FullApplySite) (position : nat) :
  Z.of_nat (length (getArguments recursiveApply)) <= 2 ^ 32 ->
  (isArgumentInvariant (fromForwardingArguments F recursiveApply)
                       (Z.of_nat position) = true <->
   (position <= 16)%nat
   /\ forwards F (getArguments recursiveApply) position = true)
  /\ isMemoryInvariant (fromForwardingArguments F recursiveApply) = false.
Proof.
  intros fits. unfold fromForwardingArguments. split.
  - unfold isArgumentInvariant, maxArgIndex, firstArgBit.
    rewrite isBitSet_testbit by lia. rewrite andb_true_iff.
    rewrite forwardingBits_testbit by (simpl; lia).
    rewrite Z.bits_0. unfold forwards. split.
    + intros [small [none|[k [value [found [at_n [_ same]]]]]]];
        [discriminate|].
      apply Z.leb_le in small. split; [lia|].
      simpl in at_n, same. assert (k = position) as -> by lia.
      rewrite found. exact same.
    + intros [small same]. split; [apply Z.leb_le; lia|]. right.
      destruct (getArguments recursiveApply !! position) as [value|] eqn:found;
        [|discriminate].
      exists position, value. simpl. repeat split; [exact found | lia | exact same].
  - unfold isMemoryInvariant, invariantMemoryBit.
    rewrite isBitSet_testbit by lia.
    destruct (Z.testbit _ 0) eqn:bit; [|reflexivity].
    apply forwardingBits_testbit in bit; [|lia|simpl; lia].
    destruct bit as [none|[k [value [_ [at_n _]]]]];
      [rewrite Z.bits_0 in none; discriminate | lia].
Qed.

Lemma fromForwardingArguments_marks_forwarded_witness :
  (isArgumentInvariant
     (fromForwardingArguments Examples.forwardAll Examples.forwardAllSite)
     (Z.of_nat 16) = true <->
   (16 <= 16)%nat
   /\ forwards Examples.forwardAll (getArguments Examples.forwardAllSite) 16
      = true)
  /\ isMemoryInvariant
       (fromForwardingArguments Examples.forwardAll Examples.forwardAllSite)
     = false.
Proof.
  apply (fromForwardingArguments_marks_forwarded Examples.forwardAll
           Examples.forwardAllSite 16).
  simpl. lia.
Defined.

Lemma allInvariantForwarded_true (F : SILFunction) (inv : Invariants)
    (args : list SILValue) :
  forall position,
  Z.of_nat position + Z.of_nat (length args) <= 2 ^ 32 ->
  (forall k value,
     args !! k = Some value ->
     isArgumentInvariant inv (Z.of_nat (position + k)) = true ->
     isIncomingArg (fn_getArguments F) (Z.of_nat (position + k))
                   (stripAccessMarkers F value) = true) ->
  allInvariantForwarded F inv args position = true.
Proof.
  induction args as [|value rest IH]; intros position fits forwarded;
    [reflexivity|].
  simpl length in fits. cbn [allInvariantForwarded].
  assert (argIndex position = Z.of_nat position) as ->.
  { unfold argIndex. apply Z.mod_small. lia. }
  destruct (isArgumentInvariant inv (Z.of_nat position)) eqn:expected.
  - pose proof (forwarded 0%nat value eq_refl) as here.
    rewrite Nat.add_0_r in here. rewrite (here expected).
    simpl. apply IH; [lia|]. intros k v found.
    replace (S position + k)%nat with (position + S k)%nat by lia.
    apply forwarded. exact found.
  - simpl. apply IH; [lia|]. intros k v found.
    replace (S position + k)%nat with (position + S k)%nat by lia.
    apply forwarded. exact found.
Qed.

(** X4: a call with at most [2^32] arguments forwards every argument that
    the assumption derived from it expects to be invariant, also once
    memory invariance is added: the call that gave a candidate is never
    ignored under that candidate. *)
Theorem fromForwardingArguments_accepts_its_call (F : SILFunction)
    (recursiveApply : FullApplySite) :
  Z.of_nat (length (getArguments recursiveApply)) <= 2 ^ 32 ->
  hasInvariantArguments F (fromForwardingArguments F recursiveApply)
                        recursiveApply = true
  /\ hasInvariantArguments F
       (withInvariantMemory (fromForwardingArguments F recursiveApply))
       recursiveApply = true.
Proof.
  intros fits.
  assert (marked : forall k value,
    getArguments recursiveApply !! k = Some value ->
    isArgumentInvariant (fromForwardingArguments F recursiveApply)
                        (Z.of_nat (0 + k)) = true ->
    isIncomingArg (fn_getArguments F) (Z.of_nat (0 + k))
                  (stripAccessMarkers F value) = true).
  { intros k value found expected. simpl in *.
    unfold fromForwardingArguments, isArgumentInvariant, firstArgBit
      in expected.
    apply andb_true_iff in expected. destruct expected as [_ bit].
    rewrite isBitSet_testbit in bit by lia.
    apply forwardingBits_testbit in bit; [|lia|simpl; lia].
    destruct bit as [none|[k' [value' [found' [at_n [_ same]]]]]];
      [rewrite Z.bits_0 in none; discriminate|].
    simpl in at_n, same. assert (k' = k) as -> by lia. congruence. }
  unfold hasInvariantArguments. split.
  - apply allInvariantForwarded_true; [simpl; lia | exact marked].
  - apply allInvariantForwarded_true; [simpl; lia|].
    intros k value found expected.
    rewrite withInvariantMemory_argument in expected by lia.
    apply marked; assumption.
Qed.

Lemma fromForwardingArguments_accepts_its_call_witness :
  hasInvariantArguments Examples.forwardAll
    (fromForwardingArguments Examples.forwardAll Examples.forwardAllSite)
    Examples.forwardAllSite = true
  /\ hasInvariantArguments Examples.forwardAll
       (withInvariantMemory
          (fromForwardingArguments Examples.forwardAll Examples.forwardAllSite))
       Examples.forwardAllSite = true.
Proof.
  apply (fromForwardingArguments_accepts_its_call Examples.forwardAll
           Examples.forwardAllSite).
  simpl. lia.
Defined.

Lemma argIndex_range (position : nat) : 0 <= argIndex position.
Proof. unfold argIndex. apply Z.mod_pos_bound. lia. Qed.

Lemma allInvariantForwarded_memory (F : SILFunction) (inv : Invariants)
    (args : list SILValue) (position : nat) :
  allInvariantForwarded F (withInvariantMemory inv) args position
  = allInvariantForwarded F inv args position.
Proof.
  revert position. induction args as [|value rest IH]; intros position;
    [reflexivity|].
  cbn [allInvariantForwarded].
  rewrite withInvariantMemory_argument by apply argIndex_range.
  rewrite IH. reflexivity.
Qed.

(** X5: whether a call forwards the arguments expected to be invariant does
    not depend on the memory bit, and under the empty assumption every call
    does. *)
Theorem hasInvariantArguments_ignores_memory (F : SILFunction)
    (inv : Invariants) (recursiveApply : FullApplySite) :
  hasInvariantArguments F (withInvariantMemory inv) recursiveApply
  = hasInvariantArguments F inv recursiveApply
  /\ hasInvariantArguments F noInvariants recursiveApply = true
  /\ hasInvariantArguments F (withInvariantMemory noInvariants) recursiveApply
     = true.
Proof.
  assert (empty : hasInvariantArguments F noInvariants recursiveApply = true).
  { unfold hasInvariantArguments. generalize 0%nat.
    induction (getArguments recursiveApply) as [|value rest IH];
      intros position; [reflexivity|].
    cbn [allInvariantForwarded].
    unfold isArgumentInvariant at 1, isBitSet, noInvariants. simpl bitMask.
    rewrite Z.land_0_l, andb_false_r. simpl. apply IH. }
  unfold hasInvariantArguments in *.
  rewrite !allInvariantForwarded_memory. repeat split; exact empty.
Qed.

(** ** Block summaries, completed *)

(** What the scan of the constructor decides: either every instruction is
    quiet and the loop runs to its end, or the first instruction that is
    not quiet ends it in one of three ways. *)
Lemma scanInstructions_decides (F : SILFunction) (inv : Invariants)
    (insts : list SILInstruction) (bi : BlockInfo) :
  match scanInstructions F inv insts bi with
  | None => Forall (quiet F inv) insts
  | Some bi' =>
    exists pre inst post,
      insts = pre ++ inst :: post
      /\ Forall (quiet F inv) pre
      /\ ((isTerminationPointCall inst = true /\ bi' = bi)
          \/ (isTerminationPointCall inst = false
              /\ isConsistentRecursiveCall F inv inst = true
              /\ bi' = setRecursiveCall inst bi)
          \/ (isTerminationPointCall inst = false
              /\ isConsistentRecursiveCall F inv inst = false
              /\ isMemoryInvariant inv = true
              /\ mayWriteToMemory inst = true
              /\ bi' = setReachesReturn bi))
  end.
Proof.
  induction insts as [|inst rest IH]; [constructor|].
  cbn [scanInstructions].
  assert (decided : forall bi',
    bi' = bi /\ isTerminationPointCall inst = true
    \/ (isTerminationPointCall inst = false
        /\ isConsistentRecursiveCall F inv inst = true
        /\ bi' = setRecursiveCall inst bi)
    \/ (isTerminationPointCall inst = false
        /\ isConsistentRecursiveCall F inv inst = false
        /\ isMemoryInvariant inv = true
        /\ mayWriteToMemory inst = true
        /\ bi' = setReachesReturn bi) ->
    exists pre inst' post,
      inst :: rest = pre ++ inst' :: post
      /\ Forall (quiet F inv) pre
      /\ ((isTerminationPointCall inst' = true /\ bi' = bi)
          \/ (isTerminationPointCall inst' = false
              /\ isConsistentRecursiveCall F inv inst' = true
              /\ bi' = setRecursiveCall inst' bi)
          \/ (isTerminationPointCall inst' = false
              /\ isConsistentRecursiveCall F inv inst' = false
              /\ isMemoryInvariant inv = true
              /\ mayWriteToMemory inst' = true
              /\ bi' = setReachesReturn bi))).
  { intros bi' how. exists [], inst, rest.
    split; [reflexivity|]. split; [constructor|]. tauto. }
  assert (goes_on :
    isTerminationPointCall inst = false ->
    isConsistentRecursiveCall F inv inst = false ->
    match (if isMemoryInvariant inv && mayWriteToMemory inst
           then Some (setReachesReturn bi)
           else scanInstructions F inv rest bi) with
    | None => Forall (quiet F inv) (inst :: rest)
    | Some bi' =>
      exists pre inst' post,
        inst :: rest = pre ++ inst' :: post
        /\ Forall (quiet F inv) pre
        /\ ((isTerminationPointCall inst' = true /\ bi' = bi)
            \/ (isTerminationPointCall inst' = false
                /\ isConsistentRecursiveCall F inv inst' = true
                /\ bi' = setRecursiveCall inst' bi)
            \/ (isTerminationPointCall inst' = false
                /\ isConsistentRecursiveCall F inv inst' = false
                /\ isMemoryInvariant inv = true
                /\ mayWriteToMemory inst' = true
                /\ bi' = setReachesReturn bi))
    end).
  { intros noAssert noCall.
    destruct (isMemoryInvariant inv && mayWriteToMemory inst) eqn:write.
    - apply decided. right. right. apply andb_true_iff in write. tauto.
    - assert (quiet F inv inst) as is_quiet by (repeat split; assumption).
      destruct (scanInstructions F inv rest bi) as [bi'|].
      + destruct IH as [pre [inst' [post [-> [quiet_pre how]]]]].
        exists (inst :: pre), inst', post.
        split; [reflexivity|]. split; [constructor; assumption | exact how].
      + constructor; assumption. }
  unfold isTerminationPointCall, isConsistentRecursiveCall in *.
  destruct (asFullApplySite inst) as [applySite|];
    [|apply goes_on; reflexivity].
  destruct (isCalleeKnownProgramTerminationPoint applySite).
  { apply decided. left. split; reflexivity. }
  destruct (isRecursiveCall _ _ applySite && hasInvariantArguments F inv applySite).
  { apply decided. right. left. repeat split. }
  apply goes_on; reflexivity.
Qed.

(** X6: in every summary the counter starts at the number of successor
    edges, reachable-from-entry is clear, the invariant-condition flag is
    the terminator's, and a summary never has both a recursive-call site
    and reaches-return. *)
Theorem newBlockInfo_well_formed (F : SILFunction) (block : SILBasicBlock)
    (inv : Invariants) :
  numSuccsNotReachingReturn (newBlockInfo F block inv)
  = Z.of_nat (length (getSuccessorBlocks block))
  /\ reachableFromEntry (newBlockInfo F block inv) = false
  /\ hasInvariantCondition (newBlockInfo F block inv)
     = isInvariant F inv (getTerminator block)
  /\ (recursiveCall (newBlockInfo F block inv) = None
      \/ reachesReturn (newBlockInfo F block inv) = false).
Proof.
  unfold newBlockInfo.
  destruct (scanInstructions F inv (allInstructions block) _) as [bi'|] eqn:scan.
  - apply scanInstructions_returns in scan.
    destruct scan as [->|[[inst ->]|[-> _]]]; simpl; auto.
  - destruct (isFunctionExiting _ || isProgramTerminating _); simpl; auto.
Qed.

(** X7: the recursive-call site of a summary, when there is one, is an
    instruction of the block that is a recursive call forwarding the
    arguments expected to be invariant and no call of a termination point,
    and every instruction before it is quiet: it is the first instruction
    that ends the scan. *)
Theorem recursiveCall_is_first_decisive (F : SILFunction)
    (block : SILBasicBlock) (inv : Invariants) (call : SILInstruction) :
  recursiveCall (newBlockInfo F block inv) = Some call ->
  exists pre post,
    allInstructions block = pre ++ call :: post
    /\ Forall (quiet F inv) pre
    /\ isTerminationPointCall call = false
    /\ isConsistentRecursiveCall F inv call = true.
Proof.
  unfold newBlockInfo.
  pose proof (scanInstructions_decides F inv (allInstructions block)
                (mkBlockInfo None (getNumSuccessors block)
                   (isInvariant F inv (getTerminator block)) false false))
    as decided.
  destruct (scanInstructions F inv (allInstructions block) _) as [bi'|].
  - destruct decided as [pre [inst [post [split_at [quiet_pre how]]]]].
    destruct how as [[_ ->]|[[noAssert [isCall ->]]|[_ [_ [_ [_ ->]]]]]];
      simpl; try discriminate.
    intros [= <-]. exists pre, post. repeat split; assumption.
  - destruct (isFunctionExiting _ || isProgramTerminating _); discriminate.
Qed.

Lemma recursiveCall_is_first_decisive_witness :
  exists pre post,
    allInstructions Examples.callThenStore
    = pre ++ Examples.selfCall [] 42%nat :: post
    /\ Forall (quiet Examples.storing (withInvariantMemory noInvariants)) pre
    /\ isTerminationPointCall (Examples.selfCall [] 42%nat) = false
    /\ isConsistentRecursiveCall Examples.storing
         (withInvariantMemory noInvariants) (Examples.selfCall [] 42%nat)
       = true.
Proof.
  exact (recursiveCall_is_first_decisive Examples.storing
           Examples.callThenStore (withInvariantMemory noInvariants)
           (Examples.selfCall [] 42%nat) eq_refl).
Defined.

(** X8: a summary is built with reaches-return exactly in two cases: memory
    is assumed invariant and the first instruction that is not quiet writes
    memory (and is neither a call of a termination point nor a recursive
    call consistent with the assumption); or every instruction is quiet and
    the terminator leaves the function or ends the program. *)
Theorem reachesReturn_seed (F : SILFunction) (block : SILBasicBlock)
    (inv : Invariants) :
  reachesReturn (newBlockInfo F block inv) = true <->
  (exists pre inst post,
     allInstructions block = pre ++ inst :: post
     /\ Forall (quiet F inv) pre
     /\ isTerminationPointCall inst = false
     /\ isConsistentRecursiveCall F inv inst = false
     /\ isMemoryInvariant inv = true
     /\ mayWriteToMemory inst = true)
  \/ (Forall (quiet F inv) (allInstructions block) /\ exits block = true).
Proof.
  unfold newBlockInfo, exits.
  pose proof (scanInstructions_decides F inv (allInstructions block)
                (mkBlockInfo None (getNumSuccessors block)
                   (isInvariant F inv (getTerminator block)) false false))
    as decided.
  destruct (scanInstructions F inv (allInstructions block) _) as [bi'|] eqn:scan.
  - destruct decided as [pre [inst [post [split_at [quiet_pre how]]]]].
    split.
    + intros reaches. left. exists pre, inst, post.
      destruct how as [[_ ->]|[[_ [_ ->]]|[noAssert [noCall [memory [write _]]]]]];
        try discriminate reaches.
      repeat split; assumption.
    + intros [[pre' [inst' [post' [split_at' [quiet_pre' decisive]]]]]
             |[all_quiet _]].
      * destruct how as [[isAssert ->]|[[_ [isCall ->]]|[_ [_ [_ [_ ->]]]]]];
          [| |reflexivity]; exfalso.
        -- rewrite split_at' in scan.
           rewrite scanInstructions_app,
             (scanInstructions_quiet F inv pre' _ quiet_pre') in scan.
           cbn [scanInstructions] in scan.
           destruct decisive as [noAssert [noCall [memory write]]].
           unfold isTerminationPointCall, isConsistentRecursiveCall in *.
           rewrite memory, write in scan. simpl in scan.
           destruct (asFullApplySite inst') as [applySite|];
             [rewrite noAssert, noCall in scan|]; discriminate scan.
        -- rewrite split_at' in scan.
           rewrite scanInstructions_app,
             (scanInstructions_quiet F inv pre' _ quiet_pre') in scan.
           cbn [scanInstructions] in scan.
           destruct decisive as [noAssert [noCall [memory write]]].
           unfold isTerminationPointCall, isConsistentRecursiveCall in *.
           rewrite memory, write in scan. simpl in scan.
           destruct (asFullApplySite inst') as [applySite|];
             [rewrite noAssert, noCall in scan|]; discriminate scan.
      * rewrite (scanInstructions_quiet F inv _ _ all_quiet) in scan.
        discriminate scan.
  - split.
    + intros reaches. right. split; [exact decided|].
      destruct (isFunctionExiting _ || isProgramTerminating _);
        [reflexivity | discriminate reaches].
    + intros [[pre [inst [post [split_at [quiet_pre decisive]]]]]|[_ leaves]].
      * exfalso. rewrite split_at in scan.
        rewrite scanInstructions_app,
          (scanInstructions_quiet F inv pre _ quiet_pre) in scan.
        cbn [scanInstructions] in scan.
        destruct decisive as [noAssert [noCall [memory write]]].
        unfold isTerminationPointCall, isConsistentRecursiveCall in *.
        rewrite memory, write in scan. simpl in scan.
        destruct (asFullApplySite inst) as [applySite|];
          [rewrite noAssert, noCall in scan|]; discriminate scan.
      * rewrite leaves. reflexivity.
Qed.

(** ** The forward search *)

Lemma runLoop_invariant {S : Type} (step : S -> Step S) (P : S -> Prop) :
  (forall s s', P s -> step s = Next s' -> P s') ->
  forall fuel s s', P s -> runLoop step fuel s = Returned s' ->
  P s' /\ step s' = Finished.
Proof.
  intros preserved. induction fuel as [|fuel IH]; intros s s' holds; simpl;
    [discriminate|].
  destruct (step s) as [s1| |] eqn:one; try discriminate.
  - apply IH. eapply preserved; eassumption.
  - intros [= <-]. split; assumption.
Qed.

Lemma markedOnly_refl (bi : BlockInfo) : markedOnly bi bi.
Proof. left. reflexivity. Qed.

Lemma markedOnly_trans (bi0 bi bi' : BlockInfo) :
  markedOnly bi0 bi -> markedOnly bi bi' -> markedOnly bi0 bi'.
Proof.
  unfold markedOnly. intros [-> | ->] [-> | ->]; auto.
Qed.

Lemma markedOnly_fields (bi0 bi : BlockInfo) :
  markedOnly bi0 bi ->
  recursiveCall bi = recursiveCall bi0
  /\ reachesReturn bi = reachesReturn bi0
  /\ (reachableFromEntry bi0 = true -> reachableFromEntry bi = true).
Proof. intros [-> | ->]; simpl; auto. Qed.

(** What the loop over the successors of a block does: it marks and pushes
    the successors that neither reach a return nor are marked, and leaves
    every successor reaching a return or marked. *)
Lemma visitSuccessors_spec (succs : list BlockId) :
  forall infos workList infos' workList',
  visitSuccessors infos workList succs = Some (infos', workList') ->
  exists new,
    workList' = new ++ workList
    /\ (forall b, option_Forall2 markedOnly (infos !! b) (infos' !! b))
    /\ (forall b, isMarked infos' b <-> isMarked infos b \/ b ∈ new)
    /\ (forall b, b ∈ new ->
          b ∈ succs
          /\ exists ci, infos !! b = Some ci /\ reachesReturn ci = false)
    /\ (forall c, c ∈ succs ->
          exists ci, infos' !! c = Some ci
            /\ (reachesReturn ci = true \/ reachableFromEntry ci = true)).
Proof.
  induction succs as [|succ rest IH]; intros infos workList infos' workList';
    simpl.
  - intros [= <- <-]. exists []. repeat split.
    + intros b. destruct (infos !! b); constructor. apply markedOnly_refl.
    + auto.
    + intros [marked|member]; [exact marked|].
      apply elem_of_nil in member. contradiction.
    + apply elem_of_nil in H. contradiction.
    + apply elem_of_nil in H. contradiction.
    + intros c member. apply elem_of_nil in member. contradiction.
  - destruct (infos !! succ) as [succInfo|] eqn:found; [|discriminate].
    destruct (reachesReturn succInfo) eqn:returns; simpl.
    { intros run. apply IH in run.
      destruct run as [new [-> [frozen [marks [fresh covered]]]]].
      exists new. repeat split; try assumption.
      - apply marks.
      - apply marks.
      - apply elem_of_cons. right. apply (fresh b H).
      - apply (fresh b H).
      - intros c member. apply elem_of_cons in member.
        destruct member as [->|member]; [|apply covered; exact member].
        specialize (frozen succ). rewrite found in frozen.
        inversion frozen as [bi0 bi' related|]; subst.
        exists bi'. split; [reflexivity|].
        apply markedOnly_fields in related. left. destruct related as [_ [-> _]].
        exact returns. }
    destruct (reachableFromEntry succInfo) eqn:marked; simpl.
    { intros run. apply IH in run.
      destruct run as [new [-> [frozen [marks [fresh covered]]]]].
      exists new. repeat split; try assumption.
      - apply marks.
      - apply marks.
      - apply elem_of_cons. right. apply (fresh b H).
      - apply (fresh b H).
      - intros c member. apply elem_of_cons in member.
        destruct member as [->|member]; [|apply covered; exact member].
        specialize (frozen succ). rewrite found in frozen.
        inversion frozen as [bi0 bi' related|]; subst.
        exists bi'. split; [reflexivity|].
        apply markedOnly_fields in related. right. apply related.
        exact marked. }
    intros run. apply IH in run.
    destruct run as [new [-> [frozen [marks [fresh covered]]]]].
    exists (new ++ [succ]). split; [rewrite <- app_assoc; reflexivity|].
    assert (marked_after : forall b,
      isMarked (<[succ := setReachableFromEntry succInfo]> infos) b
      <-> isMarked infos b \/ b = succ).
    { intros b. unfold isMarked. destruct (decide (b = succ)) as [->|other].
      - rewrite lookup_insert_eq. split; [auto|]. intros _.
        eexists. split; reflexivity.
      - rewrite lookup_insert_ne by congruence. tauto. }
    split; [|split; [|split]].
    + intros b. specialize (frozen b).
      destruct (decide (b = succ)) as [->|other].
      * rewrite lookup_insert_eq in frozen. rewrite found.
        inversion frozen as [bi0 bi' related|]; subst. constructor.
        apply (markedOnly_trans _ (setReachableFromEntry succInfo));
          [right; reflexivity | exact related].
      * rewrite lookup_insert_ne in frozen by congruence. exact frozen.
    + intros b. rewrite marks, marked_after, elem_of_app,
        list_elem_of_singleton. tauto.
    + intros b member. apply elem_of_app in member.
      destruct member as [member|member].
      * destruct (fresh b member) as [in_rest [ci [found' noreturn]]].
        split; [apply elem_of_cons; right; exact in_rest|].
        destruct (decide (b = succ)) as [->|other].
        -- exists succInfo. split; assumption.
        -- rewrite lookup_insert_ne in found' by congruence.
           exists ci. split; assumption.
      * apply list_elem_of_singleton in member. subst b.
        split; [apply list_elem_of_here|].
        exists succInfo. split; assumption.
    + intros c member. apply elem_of_cons in member.
      destruct member as [->|member]; [|apply covered; exact member].
      specialize (frozen succ). rewrite lookup_insert_eq in frozen.
      inversion frozen as [bi0 bi' related|]; subst.
      exists bi'. split; [reflexivity|].
      apply markedOnly_fields in related. right. apply related. reflexivity.
Qed.

Lemma searchAccounting_step (F : SILFunction)
    (infos0 : gmap BlockId BlockInfo) (s s' : Search) :
  searchAccounting F infos0 s -> searchStep F s = Next s' ->
  searchAccounting F infos0 s'.
Proof.
  intros [done [entry [frozen [marks [reaches [closed diags]]]]]].
  unfold searchStep.
  destruct (searchWorkList s) as [|block wl] eqn:list_eq; [discriminate|].
  destruct (searchInfos s !! block) as [blockInfo|] eqn:found;
    [|discriminate].
  pose proof (frozen block) as at_block. rewrite found in at_block.
  inversion at_block as [bi0 bi_ related init_eq|]; subst bi_.
  symmetry in init_eq.
  pose proof (markedOnly_fields _ _ related) as [same_call [same_ret _]].
  assert (block_reaches : searchReaches F infos0 block).
  { apply reaches. left. apply list_elem_of_here. }
  destruct (recursiveCall blockInfo) as [call|] eqn:has_call.
  - intros [= <-]. exists (block :: done). simpl.
    split; [rewrite !elem_of_cons in *; tauto|].
    split; [exact frozen|]. split; [|split; [|split]].
    + intros b. rewrite marks, !elem_of_cons. tauto.
    + intros b member. apply reaches. rewrite !elem_of_cons in *. tauto.
    + intros b member. apply elem_of_cons in member.
      destruct member as [->|member].
      * exists bi0. split; [exact init_eq|]. rewrite <- same_call.
        apply elem_of_app. right. apply list_elem_of_here.
      * destruct (closed b member) as [bi [found' what]].
        exists bi. split; [exact found'|].
        destruct (recursiveCall bi); [|exact what].
        apply elem_of_app. left. exact what.
    + intros loc member. apply elem_of_app in member.
      destruct member as [member|member].
      * destruct (diags loc member) as [b [bi [c [in_done rest]]]].
        exists b, bi, c. split; [apply elem_of_cons; right; exact in_done|].
        exact rest.
      * apply list_elem_of_singleton in member. subst loc.
        exists block, bi0, call.
        split; [apply list_elem_of_here|]. split; [exact init_eq|].
        split; [congruence | reflexivity].
  - destruct (visitSuccessors (searchInfos s) wl (successorsOf F block))
      as [[infos' wl']|] eqn:visit; [|discriminate].
    intros [= <-]. apply visitSuccessors_spec in visit.
    destruct visit as [new [-> [grown [marks' [fresh covered]]]]].
    exists (block :: done). simpl.
    split; [rewrite elem_of_app, !elem_of_cons in *; tauto|].
    split; [|split; [|split; [|split]]].
    + intros b. specialize (frozen b). specialize (grown b).
      inversion frozen as [x y rel eq1 eq2|eq1 eq2];
        rewrite <- eq2 in grown;
        inversion grown as [y' z rel' eq3 eq4|]; constructor.
      eapply markedOnly_trans; eassumption.
    + intros b. rewrite marks', marks, elem_of_app, !elem_of_cons. tauto.
    + intros b member.
      rewrite elem_of_app, elem_of_cons in member.
      destruct member as [[is_new|in_wl]|in_done].
      * destruct (fresh b is_new) as [is_succ [ci [found' noreturn]]].
        specialize (frozen b). rewrite found' in frozen.
        inversion frozen as [ci0 ci_ related' init_eq'|]; subst ci_.
        apply markedOnly_fields in related'.
        destruct related' as [_ [same_ret' _]].
        apply (reaches_successor F infos0 block b bi0 ci0); try assumption;
          congruence.
      * apply reaches. left. apply elem_of_cons. right. exact in_wl.
      * destruct in_done as [->|in_done];
          [exact block_reaches | apply reaches; right; exact in_done].
    + intros b member. apply elem_of_cons in member.
      destruct member as [->|member].
      * exists bi0. split; [exact init_eq|]. rewrite <- same_call.
        exact covered.
      * destruct (closed b member) as [bi [found' what]].
        exists bi. split; [exact found'|].
        destruct (recursiveCall bi); [exact what|].
        intros c is_succ. destruct (what c is_succ) as [ci [found_c flags]].
        specialize (grown c). rewrite found_c in grown.
        inversion grown as [ci_ ci' related'|]; subst.
        exists ci'. split; [reflexivity|].
        apply markedOnly_fields in related'.
        destruct related' as [_ [-> keeps]]. tauto.
    + intros loc member.
      destruct (diags loc member) as [b [bi [c [in_done rest]]]].
      exists b, bi, c. split; [apply elem_of_cons; right; exact in_done|].
      exact rest.
Qed.

Lemma searchFound_step (F : SILFunction) (s s' : Search) :
  (foundInfiniteRecursion s = true <-> diagnosed s <> []) ->
  searchStep F s = Next s' ->
  (foundInfiniteRecursion s' = true <-> diagnosed s' <> []).
Proof.
  intros agree. unfold searchStep.
  destruct (searchWorkList s) as [|block wl]; [discriminate|].
  destruct (searchInfos s !! block) as [blockInfo|]; [|discriminate].
  destruct (recursiveCall blockInfo) as [call|].
  - intros [= <-]. simpl. split; [|reflexivity].
    intros _ empty. apply app_eq_nil in empty. destruct empty; discriminate.
  - destruct (visitSuccessors _ _ _) as [[infos' wl']|]; [|discriminate].
    intros [= <-]. exact agree.
Qed.

(** What [findRecursiveCallsAndDiagnose] returns agrees with what it
    reported. *)
Lemma findRecursiveCallsAndDiagnose_found (F : SILFunction)
    (infos : gmap BlockId BlockInfo) :
  fst (findRecursiveCallsAndDiagnose F infos) <> [] <->
  snd (findRecursiveCallsAndDiagnose F infos) = Returned true.
Proof.
  unfold findRecursiveCallsAndDiagnose.
  destruct (infos !! 0%nat) as [entryInfo|];
    [|simpl; split; [contradiction | discriminate]].
  cbv zeta.
  destruct (runLoop (searchStep F) (searchFuel infos) _) as [s| |] eqn:run;
    simpl; try (split; [contradiction | discriminate]).
  apply (runLoop_invariant (searchStep F)
           (fun s => foundInfiniteRecursion s = true <-> diagnosed s <> []))
    in run.
  - destruct run as [agree _]. rewrite <- agree.
    split; [intros ->; reflexivity | intros [= ->]; reflexivity].
  - apply searchFound_step.
  - simpl. split; [discriminate | contradiction].
Qed.

(** X9: started on summaries none of which is marked reachable from the
    entry, the forward search reports exactly the recursive-call sites of
    the blocks it can get to from the entry block through blocks without a
    recursive-call site and into blocks that do not reach a return; it
    returns [true] exactly when it reported something. *)
Theorem findRecursiveCallsAndDiagnose_reports_reached_calls (F : SILFunction)
    (infos : gmap BlockId BlockInfo) (diags : list SourceLoc) (found : bool) :
  (forall b bi, infos !! b = Some bi -> reachableFromEntry bi = false) ->
  findRecursiveCallsAndDiagnose F infos = (diags, Returned found) ->
  (found = true <-> diags <> [])
  /\ forall loc,
       loc ∈ diags <->
       exists b bi call,
         searchReaches F infos b /\ infos !! b = Some bi
         /\ recursiveCall bi = Some call /\ getLoc call = loc.
Proof.
  intros unmarked result. split.
  { pose proof (findRecursiveCallsAndDiagnose_found F infos) as agree.
    rewrite result in agree. simpl in agree. rewrite agree.
    split; [intros -> | intros [= ->]]; reflexivity. }
  unfold findRecursiveCallsAndDiagnose in result.
  destruct (infos !! 0%nat) as [entryInfo|] eqn:entry; [|discriminate].
  cbv zeta in result.
  destruct (runLoop (searchStep F) (searchFuel infos) _) as [s| |] eqn:run;
    try discriminate.
  injection result as <- <-.
  apply (runLoop_invariant (searchStep F) (searchAccounting F infos)) in run;
    [|apply searchAccounting_step|].
  - destruct run
      as [[done [entry_in [frozen [marks [reaches [closed diags]]]]]] finished].
    assert (empty : searchWorkList s = []).
    { unfold searchStep in finished.
      destruct (searchWorkList s) as [|block wl]; [reflexivity|].
      destruct (searchInfos s !! block) as [bi|]; [|discriminate].
      destruct (recursiveCall bi); [discriminate|].
      destruct (visitSuccessors _ _ _) as [[? ?]|]; discriminate. }
    rewrite empty in marks, reaches, entry_in.
    assert (all_done : forall b, searchReaches F infos b -> b ∈ done).
    { induction 1 as [|b c bi ci _ IH found_b nocall is_succ found_c noreturn].
      - destruct entry_in as [member|member];
          [apply elem_of_nil in member; contradiction | exact member].
      - destruct (closed b IH) as [bi' [found' closure]].
        rewrite found_b in found'. injection found' as <-.
        rewrite nocall in closure.
        destruct (closure c is_succ) as [ci' [found_c' flags]].
        specialize (frozen c). rewrite found_c, found_c' in frozen.
        inversion frozen as [x y related|]; subst.
        apply markedOnly_fields in related. destruct related as [_ [same _]].
        destruct flags as [returns|marked]; [congruence|].
        destruct (marks c) as [to_done _].
        destruct to_done as [member|member];
          [eexists; split; eassumption
          | apply elem_of_nil in member; contradiction | exact member]. }
    intros loc. split.
    + intros member. destruct (diags loc member) as [b [bi [call [in_done rest]]]].
      exists b, bi, call. split; [apply reaches; right; exact in_done|].
      exact rest.
    + intros [b [bi [call [reached [found_b [has_call at_loc]]]]]].
      destruct (closed b (all_done b reached)) as [bi' [found' closure]].
      rewrite found_b in found'. injection found' as <-.
      rewrite has_call in closure. rewrite <- at_loc. exact closure.
  - exists []. simpl.
    split; [left; apply list_elem_of_here|].
    split; [|split; [|split; [|split]]].
    + intros b. destruct (decide (b = 0%nat)) as [->|other].
      * rewrite lookup_insert_eq, entry. constructor. right. reflexivity.
      * rewrite lookup_insert_ne by congruence.
        destruct (infos !! b); constructor. apply markedOnly_refl.
    + intros b. unfold isMarked. rewrite list_elem_of_singleton.
      destruct (decide (b = 0%nat)) as [->|other].
      * rewrite lookup_insert_eq. split; [auto|]. intros _.
        eexists. split; reflexivity.
      * rewrite lookup_insert_ne by congruence. split.
        -- intros [bi [found_b marked]].
           rewrite (unmarked b bi found_b) in marked. discriminate.
        -- intros [here|member]; [contradiction|].
           apply elem_of_nil in member. contradiction.
    + intros b [member|member].
      * apply list_elem_of_singleton in member. subst b. constructor.
      * apply elem_of_nil in member. contradiction.
    + intros b member. apply elem_of_nil in member. contradiction.
    + intros loc member. apply elem_of_nil in member. contradiction.
Qed.

Lemma guardedSummaries_unmarked :
  forall b bi, Examples.guardedSummaries !! b = Some bi ->
               reachableFromEntry bi = false.
Proof.
  assert (all : map_Forall (fun _ bi => reachableFromEntry bi = false)
                           Examples.guardedSummaries).
  { apply map_Forall_to_list. vm_compute. repeat constructor. }
  exact all.
Defined.

Lemma findRecursiveCallsAndDiagnose_reports_reached_calls_witness :
  (true = true <-> [42%nat] <> [])
  /\ forall loc,
       loc ∈ [42%nat] <->
       exists b bi call,
         searchReaches Examples.guarded Examples.guardedSummaries b
         /\ Examples.guardedSummaries !! b = Some bi
         /\ recursiveCall bi = Some call /\ getLoc call = loc.
Proof.
  apply (findRecursiveCallsAndDiagnose_reports_reached_calls Examples.guarded
           Examples.guardedSummaries [42%nat] true
           guardedSummaries_unmarked).
  vm_compute. reflexivity.
Defined.

(** ** One analysis attempt and the driver *)

Lemma newBlockInfo_unmarked (F : SILFunction) (block : SILBasicBlock)
    (inv : Invariants) :
  reachableFromEntry (newBlockInfo F block inv) = false.
Proof.
  unfold newBlockInfo.
  destruct (scanInstructions F inv (allInstructions block) _) as [bi'|] eqn:scan.
  - apply scanInstructions_returns in scan.
    destruct scan as [->|[[inst ->]|[-> _]]]; reflexivity.
  - destruct (isFunctionExiting _ || isProgramTerminating _); reflexivity.
Qed.

Lemma propagateStep_unmarked (F : SILFunction) (s s' : Propagation) :
  (forall b bi, blockInfos s !! b = Some bi -> reachableFromEntry bi = false) ->
  propagateStep F s = Next s' ->
  forall b bi, blockInfos s' !! b = Some bi -> reachableFromEntry bi = false.
Proof.
  intros unmarked. unfold propagateStep.
  destruct (predsToVisit s) as [|pred rest].
  { destruct (workList s); [discriminate|]. intros [= <-]. exact unmarked. }
  destruct (visitPredecessor (blockInfos s) (workList s) pred)
    as [[infos' wl']|] eqn:visit; [|discriminate].
  intros [= <-]. simpl.
  apply visitPredecessor_cases in visit.
  destruct visit as [bi0 [found [[-> _]|[_ [_ [_ change]]]]]];
    [exact unmarked|].
  simpl in change.
  destruct change as [[_ [_ [-> _]]]|[_ [-> _]]]; intros b bi;
    (destruct (decide (b = pred)) as [->|other];
     [rewrite lookup_insert_eq; intros [= <-]; simpl;
      apply (unmarked pred bi0 found)
     |rewrite lookup_insert_ne by congruence; apply unmarked]).
Qed.

(** The summaries the backward propagation ends with: one for each block
    of the function and no other, none marked reachable from the entry. *)
Lemma isEntryReachableFromReturn_summaries (F : SILFunction)
    (inv : Invariants) (infos : gmap BlockId BlockInfo) (reaches : bool) :
  isEntryReachableFromReturn F inv = Returned (infos, reaches) ->
  (forall b bi, infos !! b = Some bi -> reachableFromEntry bi = false)
  /\ (forall b, is_Some (infos !! b) <-> (b < length (fn_blocks F))%nat).
Proof.
  unfold isEntryReachableFromReturn.
  destruct (runLoop (propagateStep F) (propagationFuel F) _) as [s| |] eqn:run;
    try discriminate.
  destruct (blockInfos s !! 0%nat) as [entryInfo|]; [|discriminate].
  intros [= <- <-].
  apply (runLoop_invariant (propagateStep F)
           (fun s => propagationInvariant F inv s
                     /\ forall b bi, blockInfos s !! b = Some bi ->
                                     reachableFromEntry bi = false)) in run.
  - destruct run as [[[_ evolved] unmarked] _]. split; [exact unmarked|].
    intros b. specialize (evolved b). rewrite init_lookup in evolved.
    rewrite <- lookup_lt_is_Some.
    destruct (fn_blocks F !! b) as [block|]; inversion evolved; subst.
    + split; eauto.
    + split; intros [x found]; discriminate found.
  - intros s1 s2 [holds unmarked] one. split.
    + eapply propagationInvariant_step; eassumption.
    + eapply propagateStep_unmarked; eassumption.
  - split; [apply propagationInvariant_init|].
    intros b bi. rewrite init_lookup.
    destruct (fn_blocks F !! b) as [block|]; [|discriminate].
    intros [= <-]. apply newBlockInfo_unmarked.
Qed.

Lemma analyzeAndDiagnose_found (F : SILFunction) (inv : Invariants) :
  fst (analyzeAndDiagnose F inv) <> [] <->
  snd (analyzeAndDiagnose F inv) = Returned true.
Proof.
  unfold analyzeAndDiagnose.
  destruct (isEntryReachableFromReturn F inv) as [[infos [|]]| |]; simpl;
    try (split; [contradiction | discriminate]).
  apply findRecursiveCallsAndDiagnose_found.
Qed.

(** X10: an analysis attempt returns [true] exactly when it reported a
    location.  The backward propagation hands the search one summary for
    each block and no other, none of them marked reachable from the entry;
    when the entry block reaches a return nothing is searched or reported,
    and otherwise the attempt is the forward search over those summaries. *)
Theorem analyzeAndDiagnose_reports_iff_true (F : SILFunction)
    (inv : Invariants) :
  (fst (analyzeAndDiagnose F inv) <> [] <->
   snd (analyzeAndDiagnose F inv) = Returned true)
  /\ forall infos reaches,
       isEntryReachableFromReturn F inv = Returned (infos, reaches) ->
       (forall b bi, infos !! b = Some bi -> reachableFromEntry bi = false)
       /\ (forall b, is_Some (infos !! b) <-> (b < length (fn_blocks F))%nat)
       /\ analyzeAndDiagnose F inv
          = if reaches then ([], Returned false)
            else findRecursiveCallsAndDiagnose F infos.
Proof.
  split; [apply analyzeAndDiagnose_found|].
  intros infos reaches backward.
  destruct (isEntryReachableFromReturn_summaries F inv infos reaches backward)
    as [unmarked domain].
  repeat split; try apply domain; [exact unmarked|].
  unfold analyzeAndDiagnose. rewrite backward. destruct reaches; reflexivity.
Qed.

Lemma tryInvariants_attempts (F : SILFunction) (set : list Invariants) :
  Forall (fun a => a = attempt F (attemptInvariants a)) (tryInvariants F set).
Proof.
  induction set as [|inv rest IH]; cbn [tryInvariants]; [constructor|].
  constructor; [rewrite attemptInvariants_attempt; reflexivity|].
  destruct (attemptResult (attempt F inv)) as [[|]| |]; try constructor;
    [rewrite attemptInvariants_attempt; reflexivity|].
  destruct (attemptResult (attempt F (withInvariantMemory inv))) as [[|]| |];
    try constructor. exact IH.
Qed.

Lemma attempt_found (F : SILFunction) (inv : Invariants) :
  attemptDiagnostics (attempt F inv) <> [] <->
  attemptResult (attempt F inv) = Returned true.
Proof.
  pose proof (analyzeAndDiagnose_found F inv) as agree.
  unfold attempt. destruct (analyzeAndDiagnose F inv). exact agree.
Qed.

Lemma run_cases (F : SILFunction) :
  run F = [] \/ run F = tryInvariants F (snd (collectInvariantsToTry F)).
Proof.
  unfold run. destruct (wasDeserializedCanonical F); [left; reflexivity|].
  destruct (collectInvariantsToTry F) as [[|] set]; simpl; auto.
Qed.

Lemma concat_last {A B : Type} (f : A -> list B) (l : list A) :
  (forall i a, l !! i = Some a -> (S i < length l)%nat -> f a = []) ->
  concat (map f l) = match last l with Some a => f a | None => [] end.
Proof.
  induction l as [|a l IH]; intros silent; [reflexivity|].
  destruct l as [|b l].
  - simpl. apply app_nil_r.
  - change (concat (map f (a :: b :: l))) with (f a ++ concat (map f (b :: l))).
    rewrite (silent 0%nat a eq_refl) by (simpl; lia).
    rewrite IH; [reflexivity|].
    intros i x found more. apply (silent (S i) x found). simpl in *. lia.
Qed.

(** Every attempt of [run] is an attempt under its assumption, and every
    attempt before the last reported nothing. *)
Lemma run_attempts (F : SILFunction) :
  Forall (fun a => a = attempt F (attemptInvariants a)) (run F)
  /\ forall i a, run F !! i = Some a -> (S i < length (run F))%nat ->
       attemptDiagnostics a = [].
Proof.
  assert (shape : Forall (fun a => a = attempt F (attemptInvariants a)) (run F)
                  /\ forall i a, run F !! i = Some a ->
                       (S i < length (run F))%nat ->
                       attemptResult a = Returned false).
  { destruct (run_cases F) as [-> | ->].
    - split; [constructor | intros i a found; discriminate found].
    - split; [apply tryInvariants_attempts | apply tryInvariants_schedule]. }
  destruct shape as [attempts earlier]. split; [exact attempts|].
  intros i a found more.
  pose proof (earlier i a found more) as result.
  assert (a = attempt F (attemptInvariants a)) as is_attempt.
  { rewrite Forall_forall in attempts. apply attempts.
    apply list_elem_of_lookup. exists i. exact found. }
  destruct (attemptDiagnostics a) as [|loc locs] eqn:diags; [reflexivity|].
  exfalso. rewrite is_attempt in diags, result.
  assert (attemptDiagnostics (attempt F (attemptInvariants a)) <> [])
    as reported by (rewrite diags; discriminate).
  apply attempt_found in reported. congruence.
Qed.

(** X11: of the attempts [run] makes only the last can have reported
    anything, so the diagnostics of a function are those of one attempt,
    and there are some exactly when that last attempt returned [true]. *)
Theorem run_reports_in_last_attempt_only (F : SILFunction) :
  (forall i a, run F !! i = Some a -> (S i < length (run F))%nat ->
     attemptDiagnostics a = [])
  /\ diagnosticsOf (run F)
     = match last (run F) with
       | Some a => attemptDiagnostics a
       | None => []
       end
  /\ (diagnosticsOf (run F) <> [] <->
      exists a, last (run F) = Some a /\ attemptResult a = Returned true).
Proof.
  destruct (run_attempts F) as [attempts silent].
  split; [exact silent|].
  assert (total : diagnosticsOf (run F)
                  = match last (run F) with
                    | Some a => attemptDiagnostics a
                    | None => []
                    end).
  { unfold diagnosticsOf. apply concat_last. exact silent. }
  split; [exact total|]. rewrite total.
  destruct (last (run F)) as [a|] eqn:at_end.
  - assert (a = attempt F (attemptInvariants a)) as is_attempt.
    { rewrite Forall_forall in attempts. apply attempts.
      apply last_Some_elem_of. exact at_end. }
    rewrite is_attempt at 1. rewrite attempt_found, <- is_attempt.
    split; [intros result; exists a; auto | intros [a' [[= <-] result]]; exact result].
  - split; [contradiction | intros [a [found _]]; discriminate found].
Qed.

(** ** The candidate assumptions *)

Lemma setInsert_Forall (P : Invariants -> Prop) (inv : Invariants)
    (set : list Invariants) :
  P inv -> Forall P set -> Forall P (setInsert inv set).
Proof.
  intros new old. unfold setInsert.
  destruct (decide (inv ∈ set)); [exact old|].
  apply Forall_app. split; [exact old | constructor; [exact new | constructor]].
Qed.

Lemma setInsert_prefix (inv : Invariants) (set : list Invariants) :
  set `prefix_of` setInsert inv set.
Proof.
  unfold setInsert. destruct (decide (inv ∈ set)); [reflexivity|].
  apply prefix_app_r. reflexivity.
Qed.

(** The scan of one block: what it keeps of the set, and whether it has
    seen a recursive call. *)
Lemma collectFromInstructions_spec (F : SILFunction) (P : Invariants -> Prop)
    (insts : list SILInstruction) :
  (forall inst applySite,
     inst ∈ insts -> asFullApplySite inst = Some applySite ->
     isRecursiveCall (fn_getModule F) (fn_id F) applySite = true ->
     P (fromForwardingArguments F applySite)) ->
  forall found set,
  Forall P set ->
  let seen :=
    exists inst applySite,
      inst ∈ insts /\ asFullApplySite inst = Some applySite
      /\ isRecursiveCall (fn_getModule F) (fn_id F) applySite = true in
  match collectFromInstructions F insts found set with
  | inl set' => Forall P set' /\ set `prefix_of` set' /\ seen
  | inr (found', set') =>
    Forall P set' /\ set `prefix_of` set'
    /\ (found' = true <-> found = true \/ seen)
  end.
Proof.
  induction insts as [|inst rest IH]; intros derived found set good;
    cbn [collectFromInstructions].
  - split; [exact good|]. split; [reflexivity|].
    split; [auto|]. intros [yes|[i [a [member _]]]]; [exact yes|].
    apply elem_of_nil in member. contradiction.
  - assert (derived' : forall i a,
      i ∈ rest -> asFullApplySite i = Some a ->
      isRecursiveCall (fn_getModule F) (fn_id F) a = true ->
      P (fromForwardingArguments F a)).
    { intros i a member. apply derived. apply elem_of_cons. auto. }
    assert (skip : forall found',
      (forall a, asFullApplySite inst = Some a ->
                 isRecursiveCall (fn_getModule F) (fn_id F) a = false) ->
      (found' = true <-> found = true \/
         exists i a, i ∈ rest /\ asFullApplySite i = Some a
           /\ isRecursiveCall (fn_getModule F) (fn_id F) a = true) ->
      (found' = true <-> found = true \/
         exists i a, i ∈ inst :: rest /\ asFullApplySite i = Some a
           /\ isRecursiveCall (fn_getModule F) (fn_id F) a = true)).
    { intros found' not_here otherwise. rewrite otherwise. split.
      - intros [yes|[i [a [member rest']]]]; [auto|]. right.
        exists i, a. split; [apply elem_of_cons; auto | exact rest'].
      - intros [yes|[i [a [member [is_apply recursive]]]]]; [auto|].
        apply elem_of_cons in member. destruct member as [->|member].
        + rewrite (not_here a is_apply) in recursive. discriminate.
        + right. exists i, a. auto. }
    assert (skipped :
      (forall a, asFullApplySite inst = Some a ->
                 isRecursiveCall (fn_getModule F) (fn_id F) a = false) ->
      match collectFromInstructions F rest found set with
      | inl set' =>
        Forall P set' /\ set `prefix_of` set'
        /\ exists i a, i ∈ inst :: rest /\ asFullApplySite i = Some a
             /\ isRecursiveCall (fn_getModule F) (fn_id F) a = true
      | inr (found', set') =>
        Forall P set' /\ set `prefix_of` set'
        /\ (found' = true <-> found = true \/
              exists i a, i ∈ inst :: rest /\ asFullApplySite i = Some a
                /\ isRecursiveCall (fn_getModule F) (fn_id F) a = true)
      end).
    { intros not_here. specialize (IH derived' found set good).
      destruct (collectFromInstructions F rest found set)
        as [set'|[found' set']].
      - destruct IH as [good' [grows [i [a [member rest']]]]].
        repeat split; try assumption.
        exists i, a. split; [apply elem_of_cons; auto | exact rest'].
      - destruct IH as [good' [grows otherwise]].
        repeat split; try assumption; apply (skip found' not_here otherwise). }
    destruct (asFullApplySite inst) as [applySite|] eqn:is_apply;
      [|apply skipped; discriminate].
    destruct (isRecursiveCall _ _ applySite) eqn:recursive;
      [|apply skipped; intros a [= <-]; exact recursive].
    assert (here : exists i a,
      i ∈ inst :: rest /\ asFullApplySite i = Some a
      /\ isRecursiveCall (fn_getModule F) (fn_id F) a = true).
    { exists inst, applySite. split; [apply list_elem_of_here | auto]. }
    assert (good' : Forall P (setInsert (fromForwardingArguments F applySite) set)).
    { apply setInsert_Forall; [|exact good].
      apply (derived inst applySite); [apply list_elem_of_here | auto..]. }
    pose proof (setInsert_prefix (fromForwardingArguments F applySite) set)
      as grows.
    destruct (4 <=? length _)%nat; [repeat split; assumption|].
    specialize (IH derived' true _ good').
    destruct (collectFromInstructions F rest true _) as [set'|[found' set']].
    + destruct IH as [good'' [grows' _]].
      repeat split; [exact good'' | etransitivity; eassumption | exact here].
    + destruct IH as [good'' [grows' otherwise]].
      repeat split; [exact good'' | etransitivity; eassumption | |].
      * auto.
      * intros _. apply otherwise. auto.
Qed.

Lemma collectFromBlocks_spec (F : SILFunction) (P : Invariants -> Prop)
    (blocks : list SILBasicBlock) :
  (forall block inst applySite,
     block ∈ blocks -> inst ∈ allInstructions block ->
     asFullApplySite inst = Some applySite ->
     isRecursiveCall (fn_getModule F) (fn_id F) applySite = true ->
     P (fromForwardingArguments F applySite)) ->
  forall found set,
  Forall P set ->
  let seen :=
    exists block inst applySite,
      block ∈ blocks /\ inst ∈ allInstructions block
      /\ asFullApplySite inst = Some applySite
      /\ isRecursiveCall (fn_getModule F) (fn_id F) applySite = true in
  match collectFromBlocks F blocks found set with
  | inl set' => Forall P set' /\ set `prefix_of` set' /\ seen
  | inr (found', set') =>
    Forall P set' /\ set `prefix_of` set'
    /\ (found' = true <-> found = true \/ seen)
  end.
Proof.
  induction blocks as [|block rest IH]; intros derived found set good;
    cbn [collectFromBlocks].
  - split; [exact good|]. split; [reflexivity|].
    split; [auto|]. intros [yes|[b [i [a [member _]]]]]; [exact yes|].
    apply elem_of_nil in member. contradiction.
  - pose proof (collectFromInstructions_spec F P (allInstructions block)
                  (fun i a member => derived block i a
                                       (list_elem_of_here _ _) member)
                  found set good) as scanned.
    assert (derived' : forall b i a,
      b ∈ rest -> i ∈ allInstructions b -> asFullApplySite i = Some a ->
      isRecursiveCall (fn_getModule F) (fn_id F) a = true ->
      P (fromForwardingArguments F a)).
    { intros b i a member. apply derived. apply elem_of_cons. auto. }
    destruct (collectFromInstructions F (allInstructions block) found set)
      as [set1|[found1 set1]].
    + destruct scanned as [good1 [grows1 [i [a [member rest']]]]].
      repeat split; try assumption.
      exists block, i, a. split; [apply list_elem_of_here | auto].
    + destruct scanned as [good1 [grows1 found_iff]].
      specialize (IH derived' found1 set1 good1).
      destruct (collectFromBlocks F rest found1 set1) as [set'|[found' set']].
      * destruct IH as [good' [grows' [b [i [a [member rest']]]]]].
        repeat split; [exact good' | etransitivity; eassumption|].
        exists b, i, a. split; [apply elem_of_cons; auto | exact rest'].
      * destruct IH as [good' [grows' found_iff']].
        repeat split; [exact good' | etransitivity; eassumption | |].
        -- intros yes. apply found_iff' in yes.
           destruct yes as [yes|[b [i [a [member rest']]]]].
           ++ apply found_iff in yes.
              destruct yes as [yes|[i [a [member rest']]]]; [auto|].
              right. exists block, i, a.
              split; [apply list_elem_of_here | auto].
           ++ right. exists b, i, a.
              split; [apply elem_of_cons; auto | exact rest'].
        -- intros [yes|[b [i [a [member [in_block rest']]]]]];
             apply found_iff'.
           ++ left. apply found_iff. auto.
           ++ apply elem_of_cons in member. destruct member as [->|member].
              ** left. apply found_iff. right. exists i, a. auto.
              ** right. exists b, i, a. auto.
Qed.

(** What [collectInvariantsToTry] returns and collects, for any property
    [P] of the empty assumption and of the assumptions derived from the
    recursive calls of the function. *)
Lemma collectInvariantsToTry_spec (F : SILFunction) (P : Invariants -> Prop) :
  P noInvariants ->
  (forall applySite, recursiveCallSite F applySite ->
                     P (fromForwardingArguments F applySite)) ->
  Forall P (snd (collectInvariantsToTry F))
  /\ (exists tail, snd (collectInvariantsToTry F) = noInvariants :: tail)
  /\ (fst (collectInvariantsToTry F) = true <->
      exists applySite, recursiveCallSite F applySite).
Proof.
  intros empty derived. unfold collectInvariantsToTry.
  assert (start : Forall P (setInsert noInvariants [])).
  { constructor; [exact empty | constructor]. }
  pose proof (collectFromBlocks_spec F P (fn_blocks F)
                (fun b i a in_blocks in_block is_apply recursive =>
                   derived a (ex_intro _ b (ex_intro _ i
                     (conj in_blocks (conj in_block (conj is_apply recursive))))))
                false _ start) as collected.
  assert (seen_iff :
    (exists block inst applySite,
       block ∈ fn_blocks F /\ inst ∈ allInstructions block
       /\ asFullApplySite inst = Some applySite
       /\ isRecursiveCall (fn_getModule F) (fn_id F) applySite = true)
    <-> exists applySite, recursiveCallSite F applySite).
  { unfold recursiveCallSite. split.
    - intros [b [i [a rest]]]. exists a, b, i. exact rest.
    - intros [a [b [i rest]]]. exists b, i, a. exact rest. }
  destruct (collectFromBlocks F (fn_blocks F) false _) as [set|[found set]];
    simpl.
  - destruct collected as [good [[tail ->] seen]].
    split; [exact good|]. split; [exists tail; reflexivity|].
    split; [intros _; apply seen_iff; exact seen | reflexivity].
  - destruct collected as [good [[tail ->] found_iff]].
    split; [exact good|]. split; [exists tail; reflexivity|].
    rewrite found_iff, seen_iff. split; [intros [no|yes]; [discriminate|exact yes] | auto].
Qed.

(** X12: [collectInvariantsToTry] returns [true] exactly when some
    instruction of the function is a recursive call; and then [run], on a
    function that was not deserialized, makes a first attempt under the
    empty assumption. *)
Theorem collectInvariantsToTry_finds_recursive_calls (F : SILFunction) :
  (fst (collectInvariantsToTry F) = true <->
   exists applySite, recursiveCallSite F applySite)
  /\ (wasDeserializedCanonical F = false ->
      (exists applySite, recursiveCallSite F applySite) ->
      exists first rest,
        run F = first :: rest /\ attemptInvariants first = noInvariants).
Proof.
  destruct (collectInvariantsToTry_spec F (fun _ => True) I (fun _ _ => I))
    as [_ [[tail starts] found_iff]].
  split; [exact found_iff|].
  intros compiled seen. apply found_iff in seen.
  unfold run. rewrite compiled.
  destruct (collectInvariantsToTry F) as [found set]. simpl in *.
  subst found set. cbn [negb tryInvariants].
  eexists _, _. split; [reflexivity | apply attemptInvariants_attempt].
Qed.

Lemma collectInvariantsToTry_finds_recursive_calls_witness :
  exists first rest,
    run Examples.guarded = first :: rest
    /\ attemptInvariants first = noInvariants.
Proof.
  apply (collectInvariantsToTry_finds_recursive_calls Examples.guarded);
    [reflexivity|].
  exists (mkFullApplySite (Some 7%nat) OtherCallee [0%nat] false).
  exists (mkSILBasicBlock [Examples.selfCall [0%nat] 42%nat] Examples.br
                          [2%nat] [0%nat]).
  exists (Examples.selfCall [0%nat] 42%nat).
  repeat split.
  - apply list_elem_of_further, list_elem_of_here.
  - apply list_elem_of_here.
Defined.

(** X13: the candidate set starts with the empty assumption, and every
    other candidate is the assumption derived from a recursive call of the
    function. *)
Theorem candidates_come_from_recursive_calls (F : SILFunction) :
  exists tail,
    snd (collectInvariantsToTry F) = noInvariants :: tail
    /\ Forall (fun inv =>
                 inv = noInvariants
                 \/ exists applySite,
                      recursiveCallSite F applySite
                      /\ inv = fromForwardingArguments F applySite)
              (noInvariants :: tail).
Proof.
  destruct (collectInvariantsToTry_spec F
              (fun inv => inv = noInvariants
                          \/ exists applySite,
                               recursiveCallSite F applySite
                               /\ inv = fromForwardingArguments F applySite))
    as [derived [[tail starts] _]].
  - left. reflexivity.
  - intros applySite is_call. right. exists applySite. auto.
  - exists tail. split; [exact starts|]. rewrite <- starts. exact derived.
Qed.

(** ** The schedule of attempts *)

Lemma forwardingBits_nonneg (F : SILFunction) (args : list SILValue) :
  forall position mask,
  0 <= mask -> 0 <= forwardingBits F args position mask.
Proof.
  induction args as [|value rest IH]; intros position mask nonneg;
    [exact nonneg|].
  cbn [forwardingBits]. apply IH.
  destruct (_ && _); [|exact nonneg].
  apply Z.lor_nonneg. split; [exact nonneg|].
  apply Z.shiftl_nonneg. lia.
Qed.

Lemma forwardingBits_low (F : SILFunction) (args : list SILValue) :
  forall position mask,
  Z.testbit mask 0 = false ->
  Z.testbit (forwardingBits F args position mask) 0 = false.
Proof.
  induction args as [|value rest IH]; intros position mask clear;
    [exact clear|].
  cbn [forwardingBits]. apply IH.
  destruct (_ && _); [|exact clear].
  pose proof (argIndex_nonneg position).
  unfold firstArgBit.
  rewrite Z.lor_spec, clear, Z.shiftl_1_l, Z.pow2_bits_eqb by lia.
  simpl. apply Z.eqb_neq. lia.
Qed.

Lemma bits_bound (m : Z) :
  0 <= m -> (forall n, 17 < n -> Z.testbit m n = false) -> m < 2 ^ 18.
Proof.
  intros nonneg high.
  destruct (Z.lt_ge_cases m (2 ^ 18)) as [small|large]; [exact small|].
  exfalso.
  assert (0 < m) as positive by lia.
  pose proof (Z.bit_log2 m positive) as top.
  rewrite high in top; [discriminate|].
  assert (18 <= Z.log2 m); [|lia].
  apply Z.log2_le_pow2; lia.
Qed.

Lemma fromForwardingArguments_plain (F : SILFunction)
    (applySite : FullApplySite) :
  plainCandidate (fromForwardingArguments F applySite).
Proof.
  unfold plainCandidate, fromForwardingArguments, isMemoryInvariant,
    invariantMemoryBit. simpl bitMask.
  rewrite isBitSet_testbit by lia.
  split; [split|].
  - apply forwardingBits_nonneg. lia.
  - apply bits_bound; [apply forwardingBits_nonneg; lia|].
    intros n high. apply forwardingBits_high; [exact high | apply Z.bits_0].
  - apply forwardingBits_low. apply Z.bits_0.
Qed.

Lemma plainCandidate_bit (inv : Invariants) :
  plainCandidate inv -> Z.testbit (bitMask inv) 0 = false.
Proof.
  intros [_ memory]. destruct inv as [mask].
  unfold isMemoryInvariant, invariantMemoryBit in memory.
  rewrite isBitSet_testbit in memory by lia. exact memory.
Qed.

Lemma withInvariantMemory_bit (inv : Invariants) :
  Z.testbit (bitMask (withInvariantMemory inv)) 0 = true.
Proof.
  unfold withInvariantMemory, invariantMemoryBit. cbn [bitMask].
  rewrite Z.lor_spec. apply orb_true_r.
Qed.

Lemma withInvariantMemory_injective (a b : Invariants) :
  plainCandidate a -> plainCandidate b ->
  withInvariantMemory a = withInvariantMemory b -> a = b.
Proof.
  intros plain_a plain_b same.
  apply plainCandidate_bit in plain_a, plain_b.
  destruct a as [x], b as [y]. cbn [bitMask] in *. f_equal.
  unfold withInvariantMemory, invariantMemoryBit in same.
  cbn [bitMask] in same.
  injection same as same. change (Z.shiftl 1 0) with 1 in same.
  apply Z.bits_inj'. intros n nonneg.
  destruct (Z.eq_dec n 0) as [->|other]; [congruence|].
  assert (Z.testbit (Z.lor x 1) n = Z.testbit (Z.lor y 1) n) as bits
    by (rewrite same; reflexivity).
  rewrite !Z.lor_spec, testbit_one in bits by lia.
  destruct (Z.eqb_spec n 0); [contradiction|].
  rewrite !orb_false_r in bits. exact bits.
Qed.

Lemma scheduledAttempts_elem (set : list Invariants) (inv : Invariants) :
  inv ∈ scheduledAttempts set ->
  exists candidate,
    candidate ∈ set /\ (inv = candidate \/ inv = withInvariantMemory candidate).
Proof.
  induction set as [|c rest IH]; simpl; intros member.
  - apply elem_of_nil in member. contradiction.
  - rewrite !elem_of_cons in member.
    destruct member as [->|[->|member]].
    + exists c. split; [apply list_elem_of_here | auto].
    + exists c. split; [apply list_elem_of_here | auto].
    + destruct (IH member) as [candidate [in_rest how]].
      exists candidate. split; [apply elem_of_cons; auto | exact how].
Qed.

Lemma scheduledAttempts_NoDup (set : list Invariants) :
  NoDup set -> Forall plainCandidate set -> NoDup (scheduledAttempts set).
Proof.
  induction 1 as [|c rest fresh distinct IH]; intros plain; simpl;
    [constructor|].
  apply Forall_cons in plain. destruct plain as [plain_c plain_rest].
  assert (rest_plain : forall x, x ∈ rest -> plainCandidate x).
  { rewrite Forall_forall in plain_rest. exact plain_rest. }
  apply NoDup_cons. split; [|apply NoDup_cons; split; [|apply IH; assumption]].
  - intros member. apply elem_of_cons in member.
    destruct member as [same|member].
    + pose proof (plainCandidate_bit c plain_c) as clear.
      rewrite same, withInvariantMemory_bit in clear. discriminate.
    + apply scheduledAttempts_elem in member.
      destruct member as [x [in_rest [->|same]]]; [contradiction|].
      pose proof (plainCandidate_bit c plain_c) as clear.
      rewrite same, withInvariantMemory_bit in clear. discriminate.
  - intros member. apply scheduledAttempts_elem in member.
    destruct member as [x [in_rest [same|same]]].
    + pose proof (plainCandidate_bit x (rest_plain x in_rest)) as clear.
      rewrite <- same, withInvariantMemory_bit in clear. discriminate.
    + apply withInvariantMemory_injective in same;
        [subst x; contradiction | exact plain_c | apply rest_plain, in_rest].
Qed.

(** X14: every candidate assumption is without memory invariance and has a
    mask below [2^18]; the schedule of attempts (each candidate plain and
    then with memory invariance) has no assumption twice, so [run] never
    analyses a function twice under the same assumption. *)
Theorem run_never_repeats_an_assumption (F : SILFunction) :
  Forall plainCandidate (snd (collectInvariantsToTry F))
  /\ NoDup (scheduledAttempts (snd (collectInvariantsToTry F)))
  /\ NoDup (map attemptInvariants (run F)).
Proof.
  assert (plain : Forall plainCandidate (snd (collectInvariantsToTry F))).
  { apply collectInvariantsToTry_spec.
    - split; [simpl; lia | reflexivity].
    - intros applySite _. apply fromForwardingArguments_plain. }
  assert (distinct : NoDup (scheduledAttempts (snd (collectInvariantsToTry F)))).
  { apply scheduledAttempts_NoDup; [|exact plain].
    apply collectInvariantsToTry_candidate. }
  repeat split; [exact plain | exact distinct|].
  destruct (run_cases F) as [-> | ->]; [constructor|].
  destruct (tryInvariants_schedule F (snd (collectInvariantsToTry F)))
    as [[rest follows] _].
  rewrite follows in distinct. apply NoDup_app in distinct. apply distinct.
Qed.

(** ** The use-def walk, what it decides *)

Lemma usedBy_trans (F : SILFunction) (a b c : SILValue) :
  usedBy F a b -> usedBy F b c -> usedBy F a c.
Proof.
  intros first second. induction second as [|n op _ IH is_operand];
    [exact first|].
  apply (used_operand F a n op); assumption.
Qed.

(** A walk that returns [false] has met a node that is evidence against
    invariance. *)
Lemma isInvariantValue_false (F : SILFunction) (inv : Invariants)
    (depth : nat) :
  forall value visited visited',
  isInvariantValue F depth inv value visited = Some (false, visited') ->
  exists node, usedBy F value node /\ ~ nodeInvariant F inv node.
Proof.
  induction depth as [|depth IH]; intros value visited visited';
    [discriminate|].
  cbn [isInvariantValue].
  destruct (decide (value ∈ visited)); [discriminate|].
  destruct (fn_nodes F !! value) as [[mayRead operands|index|]|] eqn:node.
  - destruct (isMemoryInvariant inv) eqn:memory; simpl.
    + assert (walk : forall ops vis,
        (forall op, op ∈ ops -> op ∈ operands) ->
        (fix allOperands (ops : list nat) (visited : gset nat)
           : option (bool * gset nat) :=
           match ops with
           | [] => Some (true, visited)
           | op :: ops' =>
             match isInvariantValue F depth inv op visited with
             | None => None
             | Some (false, visited') => Some (false, visited')
             | Some (true, visited') => allOperands ops' visited'
             end
           end) ops vis = Some (false, visited') ->
        exists node, usedBy F value node /\ ~ nodeInvariant F inv node).
      { induction ops as [|op ops IHops]; intros vis inside; [discriminate|].
        destruct (isInvariantValue F depth inv op vis) as [[[|] vis1]|] eqn:run;
          [| |discriminate].
        - apply IHops. intros x member. apply inside.
          apply elem_of_cons. auto.
        - intros _. destruct (IH op vis vis1 run) as [bad [used is_bad]].
          exists bad. split; [|exact is_bad].
          apply (usedBy_trans F value op bad); [|exact used].
          apply (used_operand F value value op); [constructor|].
          unfold operandsOf. rewrite node. apply inside.
          apply list_elem_of_here. }
      apply walk. auto.
    + destruct mayRead; simpl.
      * intros _. exists value. split; [constructor|].
        unfold nodeInvariant. rewrite node. intros [yes|no]; congruence.
      * assert (walk : forall ops vis,
          (forall op, op ∈ ops -> op ∈ operands) ->
          (fix allOperands (ops : list nat) (visited : gset nat)
             : option (bool * gset nat) :=
             match ops with
             | [] => Some (true, visited)
             | op :: ops' =>
               match isInvariantValue F depth inv op visited with
               | None => None
               | Some (false, visited') => Some (false, visited')
               | Some (true, visited') => allOperands ops' visited'
               end
             end) ops vis = Some (false, visited') ->
          exists node, usedBy F value node /\ ~ nodeInvariant F inv node).
        { induction ops as [|op ops IHops]; intros vis inside; [discriminate|].
          destruct (isInvariantValue F depth inv op vis) as [[[|] vis1]|] eqn:run;
            [| |discriminate].
          - apply IHops. intros x member. apply inside.
            apply elem_of_cons. auto.
          - intros _. destruct (IH op vis vis1 run) as [bad [used is_bad]].
            exists bad. split; [|exact is_bad].
            apply (usedBy_trans F value op bad); [|exact used].
            apply (used_operand F value value op); [constructor|].
            unfold operandsOf. rewrite node. apply inside.
            apply list_elem_of_here. }
        apply walk. auto.
  - intros [= unexpected _]. exists value. split; [constructor|].
    unfold nodeInvariant. rewrite node, unexpected. discriminate.
  - intros _. exists value. split; [constructor|].
    unfold nodeInvariant. rewrite node. auto.
  - intros _. exists value. split; [constructor|].
    unfold nodeInvariant. rewrite node. auto.
Qed.

(** A walk that returns [true] has added to the visited set only nodes that
    are no evidence against invariance, together with their operands. *)
Lemma isInvariantValue_true (F : SILFunction) (inv : Invariants)
    (depth : nat) :
  forall value visited visited',
  isInvariantValue F depth inv value visited = Some (true, visited') ->
  visited ⊆ visited' /\ value ∈ visited'
  /\ forall node, node ∈ visited' -> node ∉ visited ->
       nodeInvariant F inv node
       /\ forall op, op ∈ operandsOf F node -> op ∈ visited'.
Proof.
  induction depth as [|depth IH]; intros value visited visited';
    [discriminate|].
  cbn [isInvariantValue].
  destruct (decide (value ∈ visited)) as [seen|fresh].
  { intros [= <-]. split; [set_solver|]. split; [exact seen|].
    intros node yes no. contradiction. }
  destruct (fn_nodes F !! value) as [[mayRead operands|index|]|] eqn:node;
    try discriminate.
  - destruct (negb (isMemoryInvariant inv) && mayRead) eqn:reads;
      [discriminate|].
    assert (good : nodeInvariant F inv value).
    { unfold nodeInvariant. rewrite node.
      destruct (isMemoryInvariant inv); [left; reflexivity|].
      destruct mayRead; [discriminate | right; reflexivity]. }
    assert (walk : forall ops vis,
      (fix allOperands (ops : list nat) (visited : gset nat)
         : option (bool * gset nat) :=
         match ops with
         | [] => Some (true, visited)
         | op :: ops' =>
           match isInvariantValue F depth inv op visited with
           | None => None
           | Some (false, visited') => Some (false, visited')
           | Some (true, visited') => allOperands ops' visited'
           end
         end) ops vis = Some (true, visited') ->
      vis ⊆ visited' /\ (forall op, op ∈ ops -> op ∈ visited')
      /\ forall n, n ∈ visited' -> n ∉ vis ->
           nodeInvariant F inv n
           /\ forall op, op ∈ operandsOf F n -> op ∈ visited').
    { induction ops as [|op ops IHops]; intros vis.
      - intros [= <-]. split; [set_solver|]. split.
        + intros op member. apply elem_of_nil in member. contradiction.
        + intros n yes no. contradiction.
      - destruct (isInvariantValue F depth inv op vis) as [[[|] vis1]|] eqn:run;
          try discriminate.
        intros rest. apply IHops in rest.
        destruct rest as [grows [covered closed]].
        destruct (IH op vis vis1 run) as [grows1 [op_in closed1]].
        split; [set_solver|]. split.
        + intros x member. apply elem_of_cons in member.
          destruct member as [->|member]; [set_solver | apply covered, member].
        + intros n yes no. destruct (decide (n ∈ vis1)) as [early|late].
          * destruct (closed1 n early no) as [is_good ops_in].
            split; [exact is_good|]. intros x member.
            apply grows, ops_in, member.
          * apply closed; assumption. }
    intros run. apply walk in run. destruct run as [grows [covered closed]].
    split; [set_solver|]. split; [set_solver|].
    intros n yes no. destruct (decide (n = value)) as [->|other].
    + split; [exact good|]. unfold operandsOf. rewrite node. exact covered.
    + apply closed; [exact yes | set_solver].
  - intros [= expected <-]. split; [set_solver|]. split; [set_solver|].
    intros n yes no. assert (n = value) as -> by set_solver.
    split; [unfold nodeInvariant; rewrite node; exact expected|].
    unfold operandsOf. rewrite node. intros op member.
    apply elem_of_nil in member. contradiction.
Qed.

Lemma isInvariantValue_decides (F : SILFunction) (inv : Invariants)
    (depth : nat) (value : SILValue) (result : bool)
    (visited' : gset SILValue) :
  isInvariantValue F depth inv value ∅ = Some (result, visited') ->
  (result = true <-> forall node, usedBy F value node -> nodeInvariant F inv node).
Proof.
  intros run. destruct result.
  - split; [|reflexivity]. intros _.
    apply isInvariantValue_true in run. destruct run as [_ [start closed]].
    assert (inside : forall node, usedBy F value node -> node ∈ visited').
    { induction 1 as [|n op _ IH is_operand]; [exact start|].
      apply (closed n IH); [set_solver | exact is_operand]. }
    intros node used. apply closed; [apply inside, used | set_solver].
  - split; [discriminate|]. intros all_good.
    apply isInvariantValue_false in run.
    destruct run as [bad [used is_bad]]. exfalso. apply is_bad, all_good, used.
Qed.

(** X15: a use-def walk started with an empty visited set returns [true]
    exactly when every value the start value is computed from, itself
    included, is an argument assumed invariant or an instruction that
    reads no memory (any instruction, when memory is assumed invariant);
    values that use each other in a cycle make no difference. *)
Theorem isInvariantValue_true_iff_all_used_invariant (F : SILFunction)
    (inv : Invariants) (depth : nat) (value : SILValue) (result : bool)
    (visited' : gset SILValue) :
  isInvariantValue F depth inv value ∅ = Some (result, visited') ->
  (result = true <->
   forall node, usedBy F value node -> nodeInvariant F inv node).
Proof. apply isInvariantValue_decides. Qed.

Lemma isInvariantValue_true_iff_all_used_invariant_witness :
  true = true <->
  forall node, usedBy Examples.cyclic 2%nat node ->
               nodeInvariant Examples.cyclic noInvariants node.
Proof.
  apply (isInvariantValue_true_iff_all_used_invariant Examples.cyclic
           noInvariants (walkDepth Examples.cyclic) 2%nat true
           {[0%nat; 1%nat; 2%nat]}).
  vm_compute. reflexivity.
Defined.

(** X16: the condition of a terminator is invariant exactly when the
    terminator is one of the seven conditional kinds (the two address-based
    ones only under memory invariance) and every value its first operand
    is computed from is an argument assumed invariant or an instruction
    that reads no memory (any instruction under memory invariance). *)
Theorem isInvariant_iff (F : SILFunction) (inv : Invariants)
    (term : TermInst) :
  isInvariant F inv term = true <->
  conditionLookedAt inv (getTermKind term)
  /\ forall node, usedBy F (term_getOperand0 term) node ->
                  nodeInvariant F inv node.
Proof.
  destruct (isInvariantValue_returns F inv (walkDepth F)
              (term_getOperand0 term) ∅) as [result [visited' [run _]]].
  { unfold walkDepth.
    replace (dom (fn_nodes F) ∖ ∅) with (dom (fn_nodes F)) by set_solver.
    lia. }
  pose proof (isInvariantValue_decides F inv _ _ _ _ run) as decides.
  unfold isInvariant, conditionLookedAt. rewrite run.
  destruct (getTermKind term); try (split; [discriminate | tauto]);
    try (rewrite <- decides; tauto).
  - destruct (isMemoryInvariant inv); simpl;
      [rewrite <- decides; tauto | split; [discriminate | intros [[=] _]]].
  - destruct (isMemoryInvariant inv); simpl;
      [rewrite <- decides; tauto | split; [discriminate | intros [[=] _]]].
Qed.

(** ** The backward propagation, what it computes *)

Lemma occurrences_positive (x : BlockId) (l : list BlockId) :
  (0 < occurrences x l)%nat <-> x ∈ l.
Proof.
  induction l as [|y l IH]; simpl.
  - split; [lia | intros member; apply elem_of_nil in member; contradiction].
  - rewrite elem_of_cons, <- IH.
    destruct (Nat.eqb_spec y x) as [->|other]; [split; [auto | lia]|].
    split; [intros more; right; lia | intros [same|more]; [congruence | lia]].
Qed.

Lemma occurrences_sum_cons (x : BlockId) (targets blocks : list BlockId) :
  sum_list (map (fun b => occurrences b (x :: targets)) blocks)
  = (occurrences x blocks
     + sum_list (map (fun b => occurrences b targets) blocks))%nat.
Proof.
  induction blocks as [|b blocks IH]; simpl; [reflexivity|].
  simpl in IH. rewrite IH. rewrite (Nat.eqb_sym b x). lia.
Qed.

Lemma occurrences_sum_all (targets blocks : list BlockId) :
  NoDup blocks ->
  (sum_list (map (fun b => occurrences b targets) blocks) = length targets
   <-> forall x, x ∈ targets -> x ∈ blocks).
Proof.
  intros distinct. induction targets as [|x targets IH].
  - split.
    + intros _ x member. apply elem_of_nil in member. contradiction.
    + intros _. clear. induction blocks as [|b blocks IHb]; [reflexivity|].
      simpl. simpl in IHb. exact IHb.
  - rewrite occurrences_sum_cons. simpl length.
    pose proof (occurrences_le_one x blocks distinct) as at_most.
    pose proof (occurrences_sum_le targets blocks distinct) as bounded.
    pose proof (occurrences_positive x blocks) as positive.
    split.
    + intros total y member. apply elem_of_cons in member.
      destruct member as [->|member].
      * apply positive. lia.
      * apply IH; [lia | exact member].
    + intros inside.
      assert (x ∈ blocks) as here by (apply inside, list_elem_of_here).
      apply positive in here.
      assert (sum_list (map (fun b => occurrences b targets) blocks)
              = length targets) as rest.
      { apply IH. intros y member. apply inside. apply elem_of_cons. auto. }
      lia.
Qed.

Lemma visited_edges (F : SILFunction) (P : BlockId) (popped : list BlockId) :
  wellFormedCFG F ->
  occurrences P (concat (map (predecessorsOf F) popped))
  = sum_list (map (fun b => occurrences b (successorsOf F P)) popped).
Proof.
  intros [_ [_ edges]]. rewrite occurrences_concat, map_map.
  f_equal. apply map_ext. intros b. apply edges.
Qed.

Lemma initBlockInfos_pushes (F : SILFunction) (inv : Invariants)
    (blocks : list SILBasicBlock) :
  forall id infos workList infos' workList',
  initBlockInfos F inv blocks id infos workList = (infos', workList') ->
  forall b,
    b ∈ workList
    \/ (exists block, (id <= b)%nat /\ blocks !! (b - id)%nat = Some block
                      /\ reachesReturn (newBlockInfo F block inv) = true) ->
    b ∈ workList'.
Proof.
  induction blocks as [|block rest IH];
    intros id infos workList infos' workList'; simpl.
  - intros [= <- <-] b [member|[blk [_ [found _]]]];
      [exact member | discriminate found].
  - intros run b how. apply (IH _ _ _ _ _ run).
    destruct how as [member|[blk [above [found reaches]]]].
    + left. destruct (reachesReturn (newBlockInfo F block inv));
        [apply elem_of_cons; auto | exact member].
    + destruct (decide (b = id)) as [->|other].
      * rewrite Nat.sub_diag in found. injection found as <-.
        rewrite reaches. left. apply list_elem_of_here.
      * right. exists blk. split; [lia|]. split; [|exact reaches].
        replace (b - id)%nat with (S (b - S id)) in found by lia.
        exact found.
Qed.

Lemma propagationLedger_init (F : SILFunction) (inv : Invariants) :
  propagationLedger F inv (initPropagation F inv).
Proof.
  exists [], []. split; [|split; [|split]].
  - simpl. unfold initPropagation.
    destruct (initBlockInfos F inv (fn_blocks F) 0%nat ∅ []) as [infos wl]
      eqn:run.
    simpl. eapply initBlockInfos_NoDup; [| |exact run].
    + apply NoDup_nil. exact I.
    + intros b member. apply elem_of_nil in member. contradiction.
  - intros b. split.
    + intros [bi [found reaches]]. right.
      rewrite init_lookup in found.
      destruct (fn_blocks F !! b) as [block|] eqn:is_block; [|discriminate].
      injection found as <-.
      unfold initPropagation.
      destruct (initBlockInfos F inv (fn_blocks F) 0%nat ∅ []) as [infos wl]
        eqn:run.
      simpl. apply (initBlockInfos_pushes _ _ _ _ _ _ _ _ run).
      right. exists block. rewrite Nat.sub_0_r. repeat split; [lia|assumption..].
    + intros [member|member];
        [apply elem_of_nil in member; contradiction|].
      apply init_workList in member. destruct member as [block [found reaches]].
      exists (newBlockInfo F block inv). rewrite init_lookup, found.
      split; [reflexivity | exact reaches].
  - unfold initPropagation.
    destruct (initBlockInfos F inv (fn_blocks F) 0%nat ∅ []). reflexivity.
  - intros P bi found nocall. simpl.
    rewrite init_lookup in found.
    destruct (fn_blocks F !! P) as [block|] eqn:is_block; [|discriminate].
    injection found as <-.
    destruct (reachesReturn (newBlockInfo F block inv)) eqn:reaches.
    + left. exists block. split; assumption.
    + rewrite newBlockInfo_counter. unfold successorsOf, getNumSuccessors.
      rewrite is_block. split; [lia|].
      destruct (hasInvariantCondition _); auto.
Qed.

Lemma propagationLedger_step (F : SILFunction) (inv : Invariants)
    (s s' : Propagation) :
  propagationLedger F inv s -> propagateStep F s = Next s' ->
  propagationLedger F inv s'.
Proof.
  intros [popped [visited [distinct [returning [edges ledger]]]]].
  unfold propagateStep.
  destruct (predsToVisit s) as [|pred rest] eqn:to_visit.
  { destruct (workList s) as [|block wl] eqn:list_eq; [discriminate|].
    intros [= <-]. exists (popped ++ [block]), visited. simpl.
    split; [rewrite <- app_assoc; exact distinct|].
    split; [|split; [|exact ledger]].
    - intros b. rewrite returning, elem_of_app, list_elem_of_singleton,
        elem_of_cons. tauto.
    - rewrite map_app, concat_app, <- edges, app_nil_r. simpl.
      rewrite app_nil_r. reflexivity. }
  destruct (visitPredecessor (blockInfos s) (workList s) pred)
    as [[infos' wl']|] eqn:visit; [|discriminate].
  intros [= <-]. apply visitPredecessor_cases in visit.
  destruct visit as [bi [found change]].
  exists popped, (visited ++ [pred]). simpl.
  assert (edges' : (visited ++ [pred]) ++ rest
                   = concat (map (predecessorsOf F) popped)).
  { rewrite <- app_assoc. exact edges. }
  assert (count : forall P,
    occurrences P (visited ++ [pred])
    = (occurrences P visited + (if Nat.eqb pred P then 1 else 0))%nat).
  { intros P. rewrite occurrences_app. simpl. lia. }
  destruct change as [[-> [-> skipped]]|[noreturn [nocall [positive change]]]].
  { split; [exact distinct|]. split; [exact returning|].
    split; [exact edges'|].
    intros P bi' found' nocall'. specialize (ledger P bi' found' nocall').
    simpl in ledger. rewrite count.
    destruct (Nat.eqb_spec pred P) as [->|other];
      [|rewrite Nat.add_0_r; exact ledger].
    rewrite found in found'. injection found' as <-.
    destruct skipped as [reaches|call]; [|congruence].
    rewrite reaches in *.
    destruct ledger as [seed|[visited_once all]]; [left; exact seed|].
    right. split; [lia|]. intros cond. specialize (all cond). lia. }
  pose proof (ledger pred bi found nocall) as at_pred. simpl in at_pred.
  rewrite noreturn in at_pred. destruct at_pred as [counter never].
  simpl in change.
  destruct change as [[cond [more [-> ->]]]|[last [-> ->]]].
  - split; [exact distinct|]. split; [|split; [exact edges'|]].
    + intros b. rewrite <- returning. unfold returnsIn.
      destruct (decide (b = pred)) as [->|other].
      * rewrite lookup_insert_eq, found. split.
        -- intros [bi' [[= <-] reaches]]. simpl in reaches. congruence.
        -- intros [bi' [[= <-] reaches]]. congruence.
      * rewrite lookup_insert_ne by congruence. reflexivity.
    + intros P bi' found' nocall'. rewrite count.
      destruct (Nat.eqb_spec pred P) as [->|other].
      * rewrite lookup_insert_eq in found'. injection found' as <-. simpl.
        rewrite noreturn, cond. rewrite cond in never. split; [lia|]. lia.
      * rewrite lookup_insert_ne in found' by exact other.
        rewrite Nat.add_0_r. apply (ledger P bi' found' nocall').
  - assert (pred_new : ~ (pred ∈ popped \/ pred ∈ workList s)).
    { rewrite <- returning. intros [bi' [found' reaches]]. congruence. }
    split; [|split; [|split; [exact edges'|]]].
    + apply NoDup_app in distinct.
      destruct distinct as [distinct_popped [apart distinct_list]].
      apply NoDup_app. split; [exact distinct_popped|]. split.
      * intros b member on_list. apply elem_of_cons in on_list.
        destruct on_list as [->|on_list]; [tauto|].
        exact (apart b member on_list).
      * apply NoDup_cons. split; [tauto | exact distinct_list].
    + intros b. rewrite elem_of_cons. unfold returnsIn.
      destruct (decide (b = pred)) as [->|other].
      * rewrite lookup_insert_eq. split; [auto|]. intros _.
        eexists. split; reflexivity.
      * rewrite lookup_insert_ne by congruence.
        fold (returnsIn (blockInfos s) b). rewrite returning. tauto.
    + intros P bi' found' nocall'. rewrite count.
      destruct (Nat.eqb_spec pred P) as [->|other].
      * rewrite lookup_insert_eq in found'. injection found' as <-. simpl.
        right. split; [lia|]. intros cond.
        destruct last as [nocond|one]; [congruence | lia].
      * rewrite lookup_insert_ne in found' by exact other.
        rewrite Nat.add_0_r. apply (ledger P bi' found' nocall').
Qed.

(** ** The propagation, visit by visit *)





(** After two turns over [guarded] with its argument assumed invariant,
    the entry block has been visited for one of its two edges and waits. *)
Example guarded_entry_waits :
  blockInfos (Examples.guardedAfter (mkInvariants 2) 2) !! 0%nat
  = Some (mkBlockInfo None 1 true false false)
  /\ predsToVisit (Examples.guardedAfter (mkInvariants 2) 2) = [1%nat]
  /\ workList (Examples.guardedAfter (mkInvariants 2) 2) = [].
Proof. vm_compute. repeat split. Qed.

(** X17: in a function whose edges are listed consistently, when the
    backward propagation has ended, a block without a recursive-call site
    reaches a return exactly when its summary was built so, or, without an
    invariant condition, some successor reaches a return, or, with an
    invariant condition, it has successors and all of them reach a
    return. *)
Theorem backward_propagation_fixpoint (F : SILFunction) (inv : Invariants)
    (infos : gmap BlockId BlockInfo) (reaches : bool) (P : BlockId)
    (bi : BlockInfo) :
  wellFormedCFG F ->
  isEntryReachableFromReturn F inv = Returned (infos, reaches) ->
  infos !! P = Some bi ->
  recursiveCall bi = None ->
  (reachesReturn bi = true <->
   seeded F inv P
   \/ if hasInvariantCondition bi
      then successorsOf F P <> []
           /\ forall B, B ∈ successorsOf F P -> returnsIn infos B
      else exists B, B ∈ successorsOf F P /\ returnsIn infos B).
Proof.
  intros wf backward found nocall.
  unfold isEntryReachableFromReturn in backward.
  destruct (runLoop (propagateStep F) (propagationFuel F) _) as [s| |] eqn:run;
    try discriminate.
  destruct (blockInfos s !! 0%nat) as [entryInfo|]; [|discriminate].
  injection backward as <- <-.
  apply (runLoop_invariant (propagateStep F)
           (fun s => propagationInvariant F inv s
                     /\ propagationLedger F inv s)) in run.
  2:{ intros s1 s2 [holds ledger] one. split.
      - eapply propagationInvariant_step; eassumption.
      - eapply propagationLedger_step; eassumption. }
  2:{ split; [apply propagationInvariant_init | apply propagationLedger_init]. }
  destruct run as [[[_ evolved] ledger] finished].
  destruct ledger as [popped [visited [distinct [returning [edges ledger]]]]].
  assert (idle : predsToVisit s = [] /\ workList s = []).
  { unfold propagateStep in finished.
    destruct (predsToVisit s) as [|pred rest].
    - destruct (workList s); [auto | discriminate].
    - destruct (visitPredecessor _ _ _) as [[? ?]|]; discriminate. }
  destruct idle as [no_preds no_work].
  rewrite no_preds, app_nil_r in edges. rewrite no_work, app_nil_r in distinct.
  assert (returned : forall b, returnsIn (blockInfos s) b <-> b ∈ popped).
  { intros b. rewrite returning, no_work. split; [|auto].
    intros [yes|no]; [exact yes | apply elem_of_nil in no; contradiction]. }
  assert (count : occurrences P visited
                  = sum_list (map (fun b => occurrences b (successorsOf F P))
                                  popped)).
  { rewrite edges. apply visited_edges. exact wf. }
  assert (via : (0 < occurrences P visited)%nat <->
                exists B, B ∈ successorsOf F P /\ B ∈ popped).
  { rewrite count. clear - distinct. induction popped as [|b popped IH].
    - simpl. split; [lia|]. intros [B [_ member]].
      apply elem_of_nil in member. contradiction.
    - apply NoDup_cons in distinct. destruct distinct as [_ distinct].
      specialize (IH distinct). simpl.
      pose proof (occurrences_positive b (successorsOf F P)) as here.
      split.
      + intros some.
        destruct (Nat.eq_dec (occurrences b (successorsOf F P)) 0%nat) as [none|].
        * destruct IH as [[B [is_succ member]] _]; [lia|].
          exists B. split; [exact is_succ | apply elem_of_cons; auto].
        * exists b. split; [apply here; lia | apply list_elem_of_here].
      + intros [B [is_succ member]]. apply elem_of_cons in member.
        destruct member as [->|member].
        * apply here in is_succ. lia.
        * destruct IH as [_ back].
          assert (0 < sum_list (map (fun b0 => occurrences b0 (successorsOf F P))
                                    popped))%nat; [|lia].
          apply back. exists B. auto. }
  assert (full : (length (successorsOf F P) <= occurrences P visited)%nat <->
                 forall B, B ∈ successorsOf F P -> B ∈ popped).
  { rewrite count, <- (occurrences_sum_all _ _ distinct).
    pose proof (occurrences_sum_le (successorsOf F P) popped distinct). lia. }
  pose proof (ledger P bi found nocall) as at_P. simpl in at_P.
  assert (unseeded : reachesReturn bi = false -> ~ seeded F inv P).
  { intros noreturn [block [is_block seed]].
    specialize (evolved P). rewrite init_lookup, is_block, found in evolved.
    inversion evolved as [bi0 bi_ related|]; subst.
    destruct related as [_ [_ [_ [_ [keep _]]]]].
    rewrite (keep seed) in noreturn. congruence. }
  destruct (reachesReturn bi) eqn:now.
  - split; [|reflexivity]. intros _.
    destruct at_P as [seed|[once all]]; [left; exact seed|]. right.
    destruct (hasInvariantCondition bi).
    + specialize (all eq_refl). split.
      * intros none. rewrite none in via. apply via in once.
        destruct once as [B [member _]].
        apply elem_of_nil in member. contradiction.
      * intros B member. apply returned. apply full; assumption.
    + apply via in once. destruct once as [B [member done]].
      exists B. split; [exact member | apply returned, done].
  - split; [discriminate|]. intros [seed|propagated];
      [exfalso; apply (unseeded eq_refl seed)|].
    exfalso. destruct at_P as [_ never].
    destruct (hasInvariantCondition bi).
    + destruct propagated as [some all].
      assert (length (successorsOf F P) <= occurrences P visited)%nat as filled.
      { apply full. intros B member. apply returned, all, member. }
      destruct (successorsOf F P) as [|B succs] eqn:succs_eq;
        [contradiction|].
      simpl in filled, never. lia.
    + destruct propagated as [B [member returns]].
      assert (0 < occurrences P visited)%nat; [|lia].
      apply via. exists B. split; [exact member | apply returned, returns].
Qed.

Lemma backward_propagation_fixpoint_witness :
  let bi := mkBlockInfo None 1 true false false in
  reachesReturn bi = true <->
  seeded Examples.guarded (mkInvariants 2) 0%nat
  \/ if hasInvariantCondition bi
     then successorsOf Examples.guarded 0%nat <> []
          /\ forall B, B ∈ successorsOf Examples.guarded 0%nat ->
                       returnsIn Examples.guardedSummaries B
     else exists B, B ∈ successorsOf Examples.guarded 0%nat
                    /\ returnsIn Examples.guardedSummaries B.
Proof.
  apply (backward_propagation_fixpoint Examples.guarded (mkInvariants 2)
           Examples.guardedSummaries false 0%nat
           (mkBlockInfo None 1 true false false) guarded_well_formed);
    vm_compute; reflexivity.
Defined.

(** ** Fingerprints, the other direction *)

Lemma hexValue_range (c : ascii) (d : Z) :
  Fingerprint.hexValue c = Some d -> 0 <= d < 16.
Proof.
  unfold Fingerprint.hexValue.
  repeat match goal with
         | |- context [if ?c then _ else _] => destruct c eqn:?
         end; intros [= <-]; lia.
Qed.

Lemma readHexDigits_nonneg (s : list ascii) :
  forall acc any, 0 <= acc -> 0 <= fst (Fingerprint.readHexDigits s acc any).
Proof.
  induction s as [|c rest IH]; intros acc any nonneg; simpl; [exact nonneg|].
  destruct (Fingerprint.hexValue c) as [d|] eqn:digit; [|exact nonneg].
  apply IH. apply hexValue_range in digit. lia.
Qed.

Lemma extractHex_range (s : list ascii) :
  0 <= Fingerprint.extractHex s < 2 ^ 64.
Proof.
  unfold Fingerprint.extractHex.
  destruct (match Fingerprint.skipSpace s with
            | [] => _ | c :: rest => _ end) as [negative s1].
  pose proof (readHexDigits_nonneg
                match s1 with
                | c0 :: c1 :: rest =>
                  if Ascii.eqb c0 "0" && (Ascii.eqb c1 "x" || Ascii.eqb c1 "X")
                  then c0 :: rest else s1
                | _ => s1
                end 0 false ltac:(lia)) as nonneg.
  destruct (Fingerprint.readHexDigits _ 0 false) as [value any].
  simpl in nonneg. unfold Fingerprint.uint64_max.
  destruct (negb any); [lia|].
  destruct (Z.ltb_spec (2 ^ 64 - 1) value); [lia|].
  destruct negative; [apply Z.mod_pos_bound|]; lia.
Qed.

(** X18: [fromString] stops on the length assertion exactly for strings
    that are not 32 characters long; and a fingerprint it returns is read
    back from its own canonical text: the string is [getRawValue] of the
    result, 32 lower-case hexadecimal digits, and both words fit in 64
    bits. *)
Theorem fromString_accepts_only_canonical (value : list ascii) :
  (Fingerprint.fromString value = Aborted <->
   length value <> Fingerprint.DIGEST_LENGTH)
  /\ forall fp,
       Fingerprint.fromString value = Returned (Some fp) ->
       value = Fingerprint.getRawValue fp
       /\ length value = 32%nat
       /\ 0 <= Fingerprint.first fp < 2 ^ 64
       /\ 0 <= Fingerprint.second fp < 2 ^ 64
       /\ Forall (fun c => Fingerprint.isLowerHexChar c = true) value.
Proof.
  unfold Fingerprint.fromString.
  destruct (Nat.eqb_spec (length value) Fingerprint.DIGEST_LENGTH)
    as [size|size]; simpl.
  - split.
    { destruct (negb _); split; try discriminate; contradiction. }
    intros fp.
    destruct (Fingerprint.string_eqb value _) eqn:same; simpl;
      [|discriminate].
    intros [= <-].
    unfold Fingerprint.string_eqb in same. apply bool_decide_eq_true in same.
    pose proof (extractHex_range
                  (Fingerprint.drop_back (Fingerprint.DIGEST_LENGTH / 2) value))
      as range1.
    pose proof (extractHex_range
                  (Fingerprint.drop_front (Fingerprint.DIGEST_LENGTH / 2) value))
      as range2.
    split; [exact same|]. split; [exact size|].
    split; [exact range1|]. split; [exact range2|].
    rewrite same. unfold Fingerprint.getRawValue. simpl.
    rewrite !format_hex_16 by assumption.
    apply Forall_app. split; apply forall_hexDigits_lower.
  - split; [tauto | discriminate].
Qed.

(** X19: [getRawValue] tells fingerprints of 64-bit words apart. *)
Theorem getRawValue_injective (fp1 fp2 : Fingerprint.Core) :
  0 <= Fingerprint.first fp1 < 2 ^ 64 ->
  0 <= Fingerprint.second fp1 < 2 ^ 64 ->
  0 <= Fingerprint.first fp2 < 2 ^ 64 ->
  0 <= Fingerprint.second fp2 < 2 ^ 64 ->
  Fingerprint.getRawValue fp1 = Fingerprint.getRawValue fp2 ->
  fp1 = fp2.
Proof.
  destruct fp1 as [a1 b1], fp2 as [a2 b2]. simpl.
  intros ra1 rb1 ra2 rb2. unfold Fingerprint.getRawValue. simpl.
  rewrite !format_hex_16 by assumption. intros same.
  apply app_inj_1 in same; [|rewrite !hexDigits_length; reflexivity].
  destruct same as [same1 same2].
  apply (f_equal Fingerprint.extractHex) in same1, same2.
  rewrite !extractHex_hexDigits in same1, same2 by assumption.
  congruence.
Qed.

Lemma getRawValue_injective_witness :
  (0 <= 255 < 2 ^ 64 /\ 0 <= 2 ^ 64 - 1 < 2 ^ 64)
  /\ Fingerprint.getRawValue (Fingerprint.mkCore 255 (2 ^ 64 - 1))
     = Fingerprint.getRawValue (Fingerprint.mkCore 255 (2 ^ 64 - 1))
  /\ Fingerprint.mkCore 255 (2 ^ 64 - 1) = Fingerprint.mkCore 255 (2 ^ 64 - 1).
Proof.
  split; [lia|]. split; [reflexivity|].
  apply (getRawValue_injective (Fingerprint.mkCore 255 (2 ^ 64 - 1))
           (Fingerprint.mkCore 255 (2 ^ 64 - 1)));
    [simpl; lia | simpl; lia | simpl; lia | simpl; lia | reflexivity].
Defined.

(** A lower-case hexadecimal digit is the digit the formatter writes for
    its value. *)
Lemma lowerHex_digit (c : ascii) :
  Fingerprint.isLowerHexChar c = true ->
  exists d, 0 <= d < 16 /\ Fingerprint.hexValue c = Some d
            /\ Fingerprint.hexdigit d = c.
Proof.
  destruct c as [b0 b1 b2 b3 b4 b5 b6 b7].
  destruct b0, b1, b2, b3, b4, b5, b6, b7;
    intros lower; vm_compute in lower; try discriminate lower; clear lower;
    match goal with
    | |- exists d, _ /\ Fingerprint.hexValue ?c = _ /\ _ =>
      exists (match Fingerprint.hexValue c with Some d => d | None => 0 end)
    end;
    repeat split; vm_compute; congruence.
Qed.

Lemma hexDigits_high_part (digits : nat) :
  forall m d N,
  (digits <= m)%nat ->
  Fingerprint.hexDigits digits (d * 16 ^ Z.of_nat m + N)
  = Fingerprint.hexDigits digits N.
Proof.
  induction digits as [|digits IH]; intros m d N below; [reflexivity|].
  cbn [Fingerprint.hexDigits]. rewrite IH by lia. f_equal. f_equal.
  replace (Z.of_nat m) with (Z.of_nat digits + (1 + Z.of_nat (m - S digits)))
    by lia.
  rewrite Z.pow_add_r, Z.pow_add_r by lia.
  replace (d * (16 ^ Z.of_nat digits * (16 ^ 1 * 16 ^ Z.of_nat (m - S digits)))
           + N)
    with (N + (d * 16 ^ Z.of_nat (m - S digits) * 16) * 16 ^ Z.of_nat digits)
    by ring.
  rewrite Z.div_add by (apply Z.pow_nonzero; lia).
  rewrite Z.mod_add by lia. reflexivity.
Qed.

Lemma digitsValue_range (s : list ascii) :
  Forall (fun c => Fingerprint.isLowerHexChar c = true) s ->
  0 <= Fingerprint.digitsValue s < 16 ^ Z.of_nat (length s).
Proof.
  induction 1 as [|c rest lower _ IH]; simpl Fingerprint.digitsValue;
    [simpl; lia|].
  destruct (lowerHex_digit c lower) as [d [range [-> _]]].
  simpl length. rewrite Nat2Z.inj_succ, Z.pow_succ_r by lia. nia.
Qed.

Lemma hexDigits_digitsValue (s : list ascii) :
  Forall (fun c => Fingerprint.isLowerHexChar c = true) s ->
  Fingerprint.hexDigits (length s) (Fingerprint.digitsValue s) = s.
Proof.
  induction 1 as [|c rest lower all_lower IH]; [reflexivity|].
  simpl length. cbn [Fingerprint.hexDigits Fingerprint.digitsValue].
  destruct (lowerHex_digit c lower) as [d [range [-> written]]].
  pose proof (digitsValue_range rest all_lower) as small.
  rewrite hexDigits_high_part by lia. rewrite IH. f_equal.
  rewrite Z.add_comm, Z.div_add by (apply Z.pow_nonzero; lia).
  rewrite Z.div_small by lia. simpl. rewrite Z.mod_small by lia.
  exact written.
Qed.

Lemma readHexDigits_digitsValue (s : list ascii) :
  Forall (fun c => Fingerprint.isLowerHexChar c = true) s ->
  forall acc any,
  Fingerprint.readHexDigits s acc any
  = (acc * 16 ^ Z.of_nat (length s) + Fingerprint.digitsValue s,
     any || negb (Nat.eqb (length s) 0)).
Proof.
  induction 1 as [|c rest lower _ IH]; intros acc any.
  - simpl. rewrite orb_false_r. f_equal. lia.
  - cbn [Fingerprint.readHexDigits Fingerprint.digitsValue].
    destruct (lowerHex_digit c lower) as [d [range [-> _]]].
    rewrite IH. simpl length. simpl Nat.eqb. rewrite orb_true_r.
    f_equal.
    rewrite Nat2Z.inj_succ, Z.pow_succ_r by lia. ring.
Qed.

Lemma extractHex_lower (s : list ascii) :
  length s = 16%nat ->
  Forall (fun c => Fingerprint.isLowerHexChar c = true) s ->
  Fingerprint.extractHex s = Fingerprint.digitsValue s.
Proof.
  intros size lower.
  pose proof (readHexDigits_digitsValue s lower 0 false) as read.
  pose proof (digitsValue_range s lower) as small.
  rewrite size in read, small.
  destruct s as [|c0 [|c1 rest]]; try discriminate size.
  assert (lower0 : Fingerprint.isLowerHexChar c0 = true).
  { apply Forall_cons in lower. apply lower. }
  assert (lower1 : Fingerprint.isLowerHexChar c1 = true).
  { apply Forall_cons in lower. destruct lower as [_ lower].
    apply Forall_cons in lower. apply lower. }
  destruct (lowerHex_digit c0 lower0) as [d0 [range0 [_ written0]]].
  destruct (lowerHex_digit c1 lower1) as [d1 [range1 [_ written1]]].
  destruct (hexdigit_read d0 range0) as [_ [_ [nospace [noplus [nominus _]]]]].
  destruct (hexdigit_read d1 range1) as [_ [_ [_ [_ [_ [nox noX]]]]]].
  cbv zeta in *. rewrite written0 in *. rewrite written1 in *.
  unfold Fingerprint.extractHex. cbn [Fingerprint.skipSpace].
  rewrite nospace, noplus, nominus, nox, noX, andb_false_r, read.
  simpl negb. cbv iota. unfold Fingerprint.uint64_max.
  change (16 ^ Z.of_nat 16) with (2 ^ 64) in small.
  destruct (Z.ltb_spec (2 ^ 64 - 1) (0 * 16 ^ Z.of_nat 16
                                     + Fingerprint.digitsValue (c0 :: c1 :: rest)));
    lia.
Qed.

Lemma fromString_lower (value : list ascii) :
  length value = 32%nat ->
  Forall (fun c => Fingerprint.isLowerHexChar c = true) value ->
  exists fp, Fingerprint.fromString value = Returned (Some fp)
             /\ Fingerprint.getRawValue fp = value.
Proof.
  intros size lower.
  assert (halves : value = take 16 value ++ drop 16 value)
    by (symmetry; apply take_drop).
  assert (size1 : length (take 16 value) = 16%nat)
    by (rewrite length_take; lia).
  assert (size2 : length (drop 16 value) = 16%nat)
    by (rewrite length_drop; lia).
  assert (lower1 : Forall (fun c => Fingerprint.isLowerHexChar c = true)
                          (take 16 value)) by (apply Forall_take, lower).
  assert (lower2 : Forall (fun c => Fingerprint.isLowerHexChar c = true)
                          (drop 16 value)) by (apply Forall_drop, lower).
  pose proof (digitsValue_range _ lower1) as range1.
  pose proof (digitsValue_range _ lower2) as range2.
  rewrite size1 in range1. rewrite size2 in range2.
  change (16 ^ Z.of_nat 16) with (2 ^ 64) in range1, range2.
  exists (Fingerprint.mkCore (Fingerprint.digitsValue (take 16 value))
                             (Fingerprint.digitsValue (drop 16 value))).
  assert (raw : Fingerprint.getRawValue
                  (Fingerprint.mkCore (Fingerprint.digitsValue (take 16 value))
                                      (Fingerprint.digitsValue (drop 16 value)))
                = value).
  { unfold Fingerprint.getRawValue. simpl.
    rewrite !format_hex_16 by assumption.
    pose proof (hexDigits_digitsValue _ lower1) as written1.
    pose proof (hexDigits_digitsValue _ lower2) as written2.
    rewrite size1 in written1. rewrite size2 in written2.
    rewrite written1, written2. symmetry. exact halves. }
  split; [|exact raw].
  unfold Fingerprint.fromString. rewrite size.
  change (negb (Nat.eqb 32 Fingerprint.DIGEST_LENGTH)) with false. cbv iota.
  change (Fingerprint.DIGEST_LENGTH / 2)%nat with 16%nat.
  unfold Fingerprint.drop_back, Fingerprint.drop_front. rewrite size.
  change (32 - 16)%nat with 16%nat.
  rewrite !extractHex_lower by assumption.
  unfold Fingerprint.string_eqb.
  rewrite bool_decide_eq_true_2 by (symmetry; exact raw). reflexivity.
Qed.

Lemma fromString_only_lower (value : list ascii) (fp : Fingerprint.Core) :
  Fingerprint.fromString value = Returned (Some fp) ->
  length value = 32%nat
  /\ Forall (fun c => Fingerprint.isLowerHexChar c = true) value.
Proof.
  intros accepted.
  unfold Fingerprint.fromString in accepted.
  destruct (Nat.eqb_spec (length value) Fingerprint.DIGEST_LENGTH)
    as [size|size]; simpl in accepted; [|discriminate].
  destruct (Fingerprint.string_eqb value _) eqn:same; simpl in accepted;
    [|discriminate].
  unfold Fingerprint.string_eqb in same. apply bool_decide_eq_true in same.
  split; [exact size|]. rewrite same.
  unfold Fingerprint.getRawValue. simpl.
  rewrite !format_hex_16 by apply extractHex_range.
  apply Forall_app. split; apply forall_hexDigits_lower.
Qed.

(** X20: [fromString] returns a fingerprint exactly for the strings of 32
    lower-case hexadecimal digits. *)
Theorem fromString_accepts_lower_hex (value : list ascii) :
  (exists fp, Fingerprint.fromString value = Returned (Some fp)) <->
  length value = 32%nat
  /\ Forall (fun c => Fingerprint.isLowerHexChar c = true) value.
Proof.
  split.
  - intros [fp accepted]. apply (fromString_only_lower value fp accepted).
  - intros [size lower].
    destruct (fromString_lower value size lower) as [fp [accepted _]].
    exists fp. exact accepted.
Qed.

Lemma replicate_lower (n : nat) :
  Forall (fun c => Fingerprint.isLowerHexChar c = true)
         (replicate n "0"%char).
Proof. induction n; simpl; constructor; [reflexivity | assumption]. Qed.

(** X21: [mockFromString] returns no fingerprint exactly for the empty
    string and for strings longer than 32 characters.  For the other
    strings it returns the fingerprint whose text is the string padded
    with zeros at the front when the string is made of lower-case
    hexadecimal digits, and aborts when it is not. *)
Theorem mockFromString_pads (value : list ascii) :
  (Fingerprint.mockFromString value = Returned None <->
   length value = 0%nat \/ (32 < length value)%nat)
  /\ ((1 <= length value <= 32)%nat ->
      if bool_decide (Forall (fun c => Fingerprint.isLowerHexChar c = true)
                             value)
      then exists fp,
             Fingerprint.mockFromString value = Returned (Some fp)
             /\ Fingerprint.getRawValue fp
                = replicate (32 - length value) "0"%char ++ value
      else Fingerprint.mockFromString value = Aborted).
Proof.
  unfold Fingerprint.mockFromString.
  change Fingerprint.DIGEST_LENGTH with 32%nat.
  destruct (Nat.eqb_spec (length value) 0) as [empty|nonempty]; simpl.
  { split; [split; auto | lia]. }
  destruct (Nat.ltb_spec 32 (length value)) as [long|short].
  { split; [split; auto | lia]. }
  assert (size : length (replicate (32 - length value) "0"%char ++ value)
                 = 32%nat).
  { rewrite length_app, length_replicate. lia. }
  split.
  - split; [|lia]. intros none. exfalso.
    destruct (Fingerprint.fromString _) as [[fp|]| |]; discriminate.
  - intros _.
    destruct (bool_decide_reflect
                (Forall (fun c => Fingerprint.isLowerHexChar c = true) value))
      as [lower|not_lower].
    + destruct (fromString_lower _ size) as [fp [accepted raw]].
      { apply Forall_app. split; [apply replicate_lower | exact lower]. }
      rewrite accepted. exists fp. split; [reflexivity | exact raw].
    + destruct (Fingerprint.fromString _) as [[fp|]| |] eqn:result;
        try reflexivity.
      * exfalso. apply not_lower.
        apply fromString_only_lower in result.
        destruct result as [_ lower]. apply Forall_app in lower. apply lower.
      * exfalso. unfold Fingerprint.fromString in result. rewrite size in result.
        simpl in result. destruct (negb _); discriminate.
Qed.

(** ** No block is reported twice *)

Lemma visitSuccessors_worklist (reported : list BlockId)
    (succs : list BlockId) :
  forall infos workList infos' workList',
  visitSuccessors infos workList succs = Some (infos', workList') ->
  NoDup workList ->
  (forall b, b ∈ workList -> isMarked infos b) ->
  (forall b, b ∈ reported -> isMarked infos b /\ b ∉ workList) ->
  NoDup workList'
  /\ (forall b, b ∈ workList' -> isMarked infos' b)
  /\ (forall b, b ∈ reported -> isMarked infos' b /\ b ∉ workList').
Proof.
  induction succs as [|succ rest IH]; intros infos workList infos' workList';
    simpl.
  - intros [= <- <-]. auto.
  - destruct (infos !! succ) as [succInfo|] eqn:found; [|discriminate].
    destruct (reachesReturn succInfo); simpl; [apply IH|].
    destruct (reachableFromEntry succInfo) eqn:unmarked; simpl; [apply IH|].
    intros visit distinct marked kept.
    assert (fresh : ~ isMarked infos succ).
    { intros [bi [found' is_marked]]. congruence. }
    assert (still : forall b, isMarked infos b ->
                      isMarked (<[succ := setReachableFromEntry succInfo]> infos) b).
    { intros b [bi [found_b is_marked]].
      destruct (decide (b = succ)) as [->|other].
      - exfalso. apply fresh. exists bi. auto.
      - exists bi. rewrite lookup_insert_ne by congruence. auto. }
    apply IH in visit; [exact visit| | |].
    + apply NoDup_cons. split; [|exact distinct].
      intros member. apply fresh, marked, member.
    + intros b member. apply elem_of_cons in member.
      destruct member as [-> | member]; [|apply still, marked, member].
      exists (setReachableFromEntry succInfo).
      rewrite lookup_insert_eq. auto.
    + intros b member. destruct (kept b member) as [is_marked outside].
      split; [apply still, is_marked|].
      intros inside. apply elem_of_cons in inside.
      destruct inside as [-> | inside]; [apply fresh, is_marked|].
      apply outside, inside.
Qed.

Lemma reportLedger_step (F : SILFunction) (infos0 : gmap BlockId BlockInfo)
    (s s' : Search) :
  reportLedger infos0 s -> searchStep F s = Next s' -> reportLedger infos0 s'.
Proof.
  intros [reported [distinct [sites [frozen [once [marked kept]]]]]].
  unfold searchStep.
  destruct (searchWorkList s) as [|block wl] eqn:list_eq; [discriminate|].
  destruct (searchInfos s !! block) as [blockInfo|] eqn:found;
    [|discriminate].
  apply NoDup_cons in once. destruct once as [outside once].
  assert (unreported : block ∉ reported).
  { intros member. apply (kept block) in member. destruct member as [_ out].
    apply out. apply list_elem_of_here. }
  destruct (recursiveCall blockInfo) as [call|] eqn:site.
  - intros [= <-]. exists (reported ++ [block]). simpl.
    split; [|split; [|split; [exact frozen|split; [exact once|split]]]].
    + apply NoDup_app. split; [exact distinct|]. split.
      * intros b member here. apply list_elem_of_singleton in here.
        subst b. contradiction.
      * apply NoDup_singleton.
    + apply Forall2_app; [exact sites|]. constructor; [|constructor].
      pose proof (frozen block) as at_block. rewrite found in at_block.
      inversion at_block as [bi0 bi_ related init_eq|]; subst.
      apply markedOnly_fields in related. destruct related as [same _].
      exists bi0, call. split; [reflexivity|]. split; [congruence|reflexivity].
    + intros b member. apply marked. apply elem_of_cons. right. exact member.
    + intros b member. apply elem_of_app in member.
      destruct member as [member | here].
      * destruct (kept b member) as [is_marked out]. split; [exact is_marked|].
        intros inside. apply out. apply elem_of_cons. right. exact inside.
      * apply list_elem_of_singleton in here. subst b.
        split; [|exact outside]. apply marked. apply list_elem_of_here.
  - destruct (visitSuccessors (searchInfos s) wl (successorsOf F block))
      as [[infos' wl']|] eqn:visit; [|discriminate].
    intros [= <-]. simpl.
    destruct (visitSuccessors_spec _ _ _ _ _ visit)
      as [new [_ [frozen' [marks _]]]].
    destruct (visitSuccessors_worklist (block :: reported) _ _ _ _ _ visit once)
      as [once' [marked' kept']].
    + intros b member. apply marked. apply elem_of_cons. right. exact member.
    + intros b member. apply elem_of_cons in member.
      destruct member as [-> | member].
      * split; [|exact outside]. apply marked. apply list_elem_of_here.
      * destruct (kept b member) as [is_marked out]. split; [exact is_marked|].
        intros inside. apply out. apply elem_of_cons. right. exact inside.
    + exists reported. split; [exact distinct|]. split; [exact sites|].
      split; [|split; [exact once'|split; [exact marked'|]]].
      * intros b. specialize (frozen b). specialize (frozen' b).
        cbn [searchInfos].
        destruct (infos0 !! b) as [bi0|]; destruct (searchInfos s !! b) as [bi|];
          inversion frozen as [x y related|]; subst;
          destruct (infos' !! b) as [bi'|];
          inversion frozen' as [x y related'|]; subst; constructor.
        eapply markedOnly_trans; eassumption.
      * intros b member. apply kept'. apply elem_of_cons. right. exact member.
Qed.

(** X24: the forward search reports no block twice: the diagnostics are,
    in order, the locations of the recursive-call sites of pairwise
    different blocks, whatever the summaries and however the search ends. *)
Theorem findRecursiveCallsAndDiagnose_reports_a_block_once (F : SILFunction)
    (infos : gmap BlockId BlockInfo) :
  exists blocks : list BlockId,
    NoDup blocks
    /\ Forall2 (fun b loc => exists bi call,
                  infos !! b = Some bi /\ recursiveCall bi = Some call
                  /\ getLoc call = loc)
               blocks (fst (findRecursiveCallsAndDiagnose F infos)).
Proof.
  unfold findRecursiveCallsAndDiagnose.
  destruct (infos !! 0%nat) as [entryInfo|] eqn:entry;
    [|exists []; split; constructor].
  cbv zeta.
  destruct (runLoop (searchStep F) (searchFuel infos) _) as [s| |] eqn:run;
    try (exists []; split; constructor).
  apply (runLoop_invariant (searchStep F) (reportLedger infos)) in run;
    [|apply reportLedger_step|].
  - destruct run as [[reported [distinct [sites _]]] _].
    exists reported. split; assumption.
  - exists []. simpl. split; [constructor|]. split; [constructor|].
    split; [|split; [apply NoDup_singleton|split]].
    + intros b. destruct (decide (b = 0%nat)) as [->|other].
      * rewrite entry, lookup_insert_eq. constructor. right. reflexivity.
      * rewrite lookup_insert_ne by congruence.
        destruct (infos !! b); constructor. apply markedOnly_refl.
    + intros b member. apply list_elem_of_singleton in member. subst b.
      exists (setReachableFromEntry entryInfo). rewrite lookup_insert_eq. auto.
    + intros b member. apply elem_of_nil in member. contradiction.
Qed.

(** ** Every attempt returns *)

Lemma analyzeAndDiagnose_returns_witness :
  wellFormedCFG Examples.guarded
  /\ exists result,
       snd (analyzeAndDiagnose Examples.guarded noInvariants)
       = Returned result.
Proof.
  split; [exact guarded_well_formed|].
  apply (analyzeAndDiagnose_returns Examples.guarded noInvariants).
  exact guarded_well_formed.
Defined.

(** ** Loads and access markers *)

(** X25: the analysis counts no [load], [begin_access] or [end_access] as a
    write, whatever the generic query says of it.  A block without call
    sites whose other instructions do not write memory (a condition that
    matters under memory invariance only) is summarised by its terminator
    alone: no recursive-call site, and reaches-return exactly when the
    terminator leaves the function or ends the program. *)
Theorem loads_and_access_markers_are_no_writes (F : SILFunction)
    (block : SILBasicBlock) (inv : Invariants) :
  Forall (fun inst =>
            asFullApplySite inst = None
            /\ (isMemoryInvariant inv = true ->
                getKind inst = OtherInstructionKind ->
                inst_mayWriteToMemory inst = false))
         (allInstructions block) ->
  newBlockInfo F block inv
  = if exits block then setReachesReturn (initialBlockInfo F block inv)
    else initialBlockInfo F block inv.
Proof.
  intros harmless.
  assert (silent : Forall (quiet F inv) (allInstructions block)).
  { eapply Forall_impl; [exact harmless|].
    intros inst [nocall nowrite].
    unfold quiet, isTerminationPointCall, isConsistentRecursiveCall.
    rewrite nocall. split; [reflexivity|]. split; [reflexivity|].
    destruct (isMemoryInvariant inv); [|reflexivity]. simpl.
    unfold mayWriteToMemory.
    destruct (getKind inst); try reflexivity. apply nowrite; reflexivity. }
  unfold newBlockInfo. rewrite (scanInstructions_quiet F inv _ _ silent).
  reflexivity.
Qed.

Lemma loads_and_access_markers_are_no_writes_witness :
  newBlockInfo Examples.storing Examples.loadsOnly
               (withInvariantMemory noInvariants)
  = initialBlockInfo Examples.storing Examples.loadsOnly
                     (withInvariantMemory noInvariants).
Proof.
  apply (loads_and_access_markers_are_no_writes Examples.storing
           Examples.loadsOnly (withInvariantMemory noInvariants)).
  repeat constructor; simpl; intros; congruence.
Defined.

(** ** The keys of the candidate set *)

(** X26: [isEqual] is equality of assumptions, and no candidate that
    [collectInvariantsToTry] inserts into the set is one of the two keys
    the set reserves for empty and erased slots. *)
Theorem candidates_are_no_reserved_keys (F : SILFunction) :
  (forall LHS RHS, DenseMapInfo.isEqual LHS RHS = true <-> LHS = RHS)
  /\ Forall (fun inv =>
               DenseMapInfo.isEqual inv DenseMapInfo.getEmptyKey = false
               /\ DenseMapInfo.isEqual inv DenseMapInfo.getTombstoneKey = false)
            (snd (collectInvariantsToTry F)).
Proof.
  split.
  - intros [left] [right]. unfold DenseMapInfo.isEqual. simpl.
    rewrite Z.eqb_eq. split; [intros ->; reflexivity | intros [= ->]; reflexivity].
  - assert (plain : Forall plainCandidate (snd (collectInvariantsToTry F))).
    { apply collectInvariantsToTry_spec.
      - split; [simpl; lia | reflexivity].
      - intros applySite _. apply fromForwardingArguments_plain. }
    eapply Forall_impl; [exact plain|].
    intros inv [[low high] _].
    unfold DenseMapInfo.isEqual, DenseMapInfo.getEmptyKey,
      DenseMapInfo.getTombstoneKey. simpl.
    assert (2 ^ 18 < 2 ^ 32 - 2) by (vm_compute; reflexivity).
    split; apply Z.eqb_neq; lia.
Qed.
